(** * beacon_finder.py: the beacon-scoring pipeline

    A shallow embedding of [src/beacon_finder.py].  The script is a straight
    line of pandas column operations; every column operation is a map over
    the rows of the frame, so the frame is a list of records and each
    column assignment is a field computed per row.

    Conventions of the embedding.
    - Timestamps are parsed with the format [%Y-%m-%d-%H:%M:%S], i.e. at a
      resolution of one second: a timestamp is the integer number of
      seconds since an arbitrary origin ([Z]); a time delta is an integer
      number of seconds.
    - Floating-point columns are exact rationals ([Q]); the one division
      whose divisor can be zero ([10 * Count / ConnDiv]) lands in [xfloat],
      the rationals extended with the IEEE special values that pandas
      produces there (no exception is raised by a float division).  The
      float64 operations round, so a score computed by the script can
      differ from the exact one in its last digits; what is stated about
      the comparison [Score > 0.7] is stated where the exact score keeps a
      distance from 0.7 that rounding cannot bridge, or lies above it.
    - [np.percentile], [np.median] and the indexing [x[-1]], [x[0]] are only
      reached for conversations with more than 36 timestamps (line 79), i.e.
      on non-empty arrays; the definitions below return 0 on the empty array
      and every statement about them carries the non-emptiness hypothesis. *)

From Stdlib Require Import String Ascii DecimalString.
From Stdlib Require Import ZArith QArith Qabs Qminmax List Bool Lia Lqa.
From Stdlib Require Import Permutation Sorted.
Import ListNotations.

Local Open Scope Z_scope.

(** ** Extended rationals: the values of a float64 column *)

Module Float.

Inductive xfloat : Type :=
| Fin (q : Q)
| PInf
| NInf
| NaN.

(** float / float on finite operands: a zero divisor gives an infinity
    or nan, never an exception.  The zero divisor is +0.0, the seconds of
    a zero time delta. *)
Definition div (a b : Q) : xfloat :=
  if Qeq_bool b 0 then
    (if negb (Qle_bool a 0) then PInf
     else if negb (Qle_bool 0 a) then NInf
     else NaN)
  else Fin (a / b).

(** [x > c] for a finite constant [c]; false on nan. *)
Definition gtb (x : xfloat) (c : Q) : bool :=
  match x with
  | Fin q => negb (Qle_bool q c)
  | PInf => true
  | NInf => false
  | NaN => false
  end.

(** [q + x] for a finite [q]. *)
Definition addq (q : Q) (x : xfloat) : xfloat :=
  match x with
  | Fin a => Fin (q + a)
  | other => other
  end.

(** [x / c] and [x * c] for a positive literal [c]. *)
Definition divc (x : xfloat) (c : Q) : xfloat :=
  match x with
  | Fin a => Fin (a / c)
  | other => other
  end.

Definition mulc (x : xfloat) (c : Q) : xfloat :=
  match x with
  | Fin a => Fin (a * c)
  | other => other
  end.

(** [x >= y], the order [sort_values(ascending=False)] establishes
    between consecutive rows; nan sorts last. *)
Definition geb (x y : xfloat) : bool :=
  match x, y with
  | _, NaN => true
  | NaN, _ => false
  | PInf, _ => true
  | _, NInf => true
  | NInf, _ => false
  | Fin _, PInf => false
  | Fin a, Fin b => Qle_bool b a
  end.

(** [x != x]: true of nan only. *)
Definition isnan (x : xfloat) : bool :=
  match x with
  | NaN => true
  | _ => false
  end.

(** [a < b]; false as soon as one side is nan. *)
Definition ltb (a b : xfloat) : bool :=
  match a, b with
  | NaN, _ => false
  | _, NaN => false
  | PInf, _ => false
  | _, PInf => true
  | _, NInf => false
  | NInf, _ => true
  | Fin x, Fin y => negb (Qle_bool y x)
  end.

(** The order numpy sorts doubles by, [a < b || (b != b && a == a)]: the
    usual one, with nan above everything. *)
Definition DOUBLE_LT (a b : xfloat) : bool :=
  ltb a b || (isnan b && negb (isnan a)).

End Float.

Import Float.

(** ** numpy: sort, percentile, median *)

Module Numpy.

Local Open Scope Q_scope.

Fixpoint insert (x : Q) (l : list Q) : list Q :=
  match l with
  | [] => [x]
  | y :: l' => if Qle_bool x y then x :: l else y :: insert x l'
  end.

Fixpoint sort (l : list Q) : list Q :=
  match l with
  | [] => []
  | x :: l' => insert x (sort l')
  end.

(** The interpolation step of [np.percentile] (method 'linear') on the
    sorted array [s] of length [n]: [r] is one hundred times the virtual
    index, [j] the floor of the virtual index, [r mod 100 / 100] its
    fractional part; the result interpolates between the order statistics
    [j] and [j+1] (the latter clipped to [n-1]). *)
Definition interp (s : list Q) (n r : Z) : Q :=
  let j := (r / 100)%Z in
  let lo := nth (Z.to_nat j) s 0 in
  let hi := nth (Z.to_nat (Z.min (j + 1) (n - 1))) s 0 in
  lo + (hi - lo) * ((r mod 100)%Z # 100).

(** [np.percentile(a, p)]: the virtual index is [p/100 * (n-1)]. *)
Definition percentile (a : list Q) (p : Z) : Q :=
  let n := Z.of_nat (length a) in
  interp (sort a) n (p * (n - 1)).

(** [np.median(a)]: the middle order statistic, or the mean of the two
    middle ones when the length is even. *)
Definition median (a : list Q) : Q :=
  let s := sort a in
  let n := length a in
  if Nat.even n
  then (nth (n / 2 - 1) s 0 + nth (n / 2) s 0) / 2
  else nth (n / 2) s 0.

End Numpy.

Import Numpy.

(** ** numpy: argsort of kind 'quicksort'

    [sort_values] (line 115) orders the rows with [np.argsort] of kind
    'quicksort', numpy's introsort for doubles ([aquicksort] in
    npysort/quicksort): median-of-three quicksort on the array of row
    indices, insertion sort on segments of at most 17 indices, heapsort
    ([aheapsort]) on a segment reached after more than [2 * msb(num)]
    partitions.  The array [tosort] holds row indices that are compared by
    the keys they point to, [LT(v[a], v[b])]; here the array holds the
    elements themselves and [LT] compares their keys.  Positions count from
    the left end [pl] of the segment at hand, so [pl] is position 0 and [pr]
    the last position; [d] is what a read outside the array gives (no such
    read happens).  This is the routine written in C; a build of numpy
    that hands doubles to a vectorised sort is not what is modelled. *)

Module Npysort.

Local Open Scope nat_scope.

Section Sort.

Context {A : Type} (LT : A -> A -> bool) (d : A).

Definition get (a : list A) (i : nat) : A := nth i a d.

Fixpoint upd (a : list A) (i : nat) (x : A) : list A :=
  match a, i with
  | [], _ => []
  | _ :: a', O => x :: a'
  | y :: a', S i' => y :: upd a' i' x
  end.

Definition INTP_SWAP (a : list A) (i j : nat) : list A :=
  upd (upd a i (get a j)) j (get a i).

Definition SMALL_QUICKSORT : nat := 16.

(** The position of the highest set bit. *)
Definition npy_get_msb (n : nat) : Z := Z.of_nat (Nat.log2 n).

(** The insertion sort of a short segment: each index [vi] in turn moves
    down past the indices of larger key,
    [while (pj > pl && LT(vp, v[*pk])) *pj-- = *pk--; *pj = vi].
    [below] lists the part already sorted from its upper end. *)
Fixpoint shift (vi : A) (below : list A) : list A :=
  match below with
  | [] => [vi]
  | k :: below' => if LT vi k then k :: shift vi below' else vi :: below
  end.

Definition insertion_sort (a : list A) : list A :=
  rev (fold_left (fun below vi => shift vi below) a []).

(** The three conditional swaps that put the median of first, middle and
    last key in the middle. *)
Definition median3 (a : list A) (pl pm pr : nat) : list A :=
  let a := if LT (get a pm) (get a pl) then INTP_SWAP a pm pl else a in
  let a := if LT (get a pr) (get a pm) then INTP_SWAP a pr pm else a in
  if LT (get a pm) (get a pl) then INTP_SWAP a pm pl else a.

(** [do ++pi; while (LT(v[*pi], vp))] and [do --pj; while (LT(vp, v[*pj]))]. *)
Fixpoint scan_up (fuel : nat) (a : list A) (vp : A) (pi : nat) : nat :=
  match fuel with
  | O => S pi
  | S fuel' =>
      if LT (get a (S pi)) vp then scan_up fuel' a vp (S pi) else S pi
  end.

Fixpoint scan_down (a : list A) (vp : A) (pj : nat) : nat :=
  match pj with
  | O => O
  | S pj' => if LT vp (get a pj') then scan_down a vp pj' else pj'
  end.

(** The loop [for (;;) { scan up; scan down; if (pi >= pj) break; swap }],
    the swap being that of the entries at [pi] and [pj]. *)
Fixpoint exchange (fuel : nat) (a : list A) (vp : A) (pi pj : nat)
  : list A * nat :=
  let pi := scan_up (length a) a vp pi in
  let pj := scan_down a vp pj in
  if pj <=? pi then (a, pi)
  else match fuel with
       | O => (a, pi)
       | S fuel' => exchange fuel' (INTP_SWAP a pi pj) vp pi pj
       end.

(** One partition of the segment [a]: the pivot is parked at [pr - 1],
    the two scans exchange what is on the wrong side, and the pivot is
    swapped to the position [pi] where they met. *)
Definition partition (a : list A) : list A * nat :=
  let pr := length a - 1 in
  let pm := pr / 2 in
  let a := median3 a 0 pm pr in
  let vp := get a pm in
  let a := INTP_SWAP a pm (pr - 1) in
  let (a, pi) := exchange (length a) a vp 0 (pr - 1) in
  (INTP_SWAP a pi (pr - 1), pi).

(** Heapsort indexes its array from 1 ([a = tosort - 1]). *)
Definition at1 (a : list A) (k : nat) : A := get a (k - 1).
Definition put1 (a : list A) (k : nat) (x : A) : list A := upd a (k - 1) x.

(** The inner loop of both phases: the index [tmp] taken from position [i]
    sinks below the larger of its two children as long as that child has a
    larger key,
    [for (j = 2i; j <= n;) { if (j < n && LT(v[a[j]], v[a[j+1]])) j += 1;
       if (LT(v[tmp], v[a[j]])) { a[i] = a[j]; i = j; j += j; } else break; }
     a[i] = tmp]. *)
Fixpoint sift (fuel : nat) (a : list A) (tmp : A) (i n : nat) : list A :=
  match fuel with
  | O => put1 a i tmp
  | S fuel' =>
      let j := 2 * i in
      if j <=? n then
        let j :=
          if (j <? n) && LT (at1 a j) (at1 a (j + 1)) then j + 1 else j in
        if LT tmp (at1 a j)
        then sift fuel' (put1 a i (at1 a j)) tmp j n
        else put1 a i tmp
      else put1 a i tmp
  end.

(** [for (l = n >> 1; l > 0; --l) { tmp = a[l]; ... }]. *)
Fixpoint build (l : nat) (a : list A) (n : nat) : list A :=
  match l with
  | O => a
  | S l' => build l' (sift n a (at1 a l) l n) n
  end.

(** [for (; n > 1;) { tmp = a[n]; a[n] = a[1]; n -= 1; ... }]. *)
Fixpoint extract (n : nat) (a : list A) : list A :=
  match n with
  | O => a
  | S n' =>
      if 1 <? n then
        let tmp := at1 a n in
        let a := put1 a n (at1 a 1) in
        extract n' (sift n' a tmp 1 n')
      else a
  end.

Definition aheapsort (a : list A) : list A :=
  let n := length a in
  extract n (build (n / 2) a n).

(** The main loop on one segment.  After a partition the larger part is
    pushed on the stack together with the decremented depth, and the loop
    goes on with the smaller part; a segment popped from the stack first
    meets the test [cdepth < 0], which hands it to heapsort.  The parts
    are disjoint segments of the array, so the result is that of sorting
    each part where it stands; [popped] tells whether the segment comes
    from the stack (the whole array is treated like a popped segment).
    No segment needs more fuel than its length. *)
Fixpoint sort_segment (fuel : nat) (popped : bool) (cdepth : Z) (a : list A)
  : list A :=
  match fuel with
  | O => a
  | S fuel' =>
      if popped && (cdepth <? 0)%Z then aheapsort a
      else if SMALL_QUICKSORT <? length a - 1 then
        let (a', pi) := partition a in
        let push_right := pi <? length a - 1 - pi in
        sort_segment fuel' (negb push_right) (cdepth - 1)%Z (firstn pi a')
        ++ get a' pi
        :: sort_segment fuel' push_right (cdepth - 1)%Z (skipn (S pi) a')
      else insertion_sort a
  end.

Definition aquicksort (a : list A) : list A :=
  sort_segment (length a) true (npy_get_msb (length a) * 2)%Z a.

(** Notions used to state the invariants of the sort: [x] is not above
    [y]; the element at [k] is not below its children in the heap
    [1 .. n]; the heap order from position [l] on; and the sinking loop on
    an array that holds [tmp] at the position it sinks from. *)
Definition le (x y : A) : Prop := LT y x = false.

Definition dominates (b : list A) (n k : nat) : Prop :=
  forall c, c = 2 * k \/ c = 2 * k + 1 -> c <= n -> le (at1 b c) (at1 b k).

Definition heap_from (b : list A) (l n : nat) : Prop :=
  forall k, l <= k -> dominates b n k.

Fixpoint sift_swap (fuel : nat) (b : list A) (i n : nat) : list A :=
  match fuel with
  | O => b
  | S fuel' =>
      let j := 2 * i in
      if j <=? n then
        let j :=
          if (j <? n) && LT (at1 b j) (at1 b (j + 1)) then j + 1 else j in
        if LT (at1 b i) (at1 b j)
        then sift_swap fuel' (INTP_SWAP b (i - 1) (j - 1)) j n
        else b
      else b
  end.

End Sort.

End Npysort.

(** ** The frame read from the proxy log *)

(** One row of [proxy1.csv].  Of the thirteen columns only these are ever
    read by the script (line 51 and line 59).  Every field of such a row
    is present; frames in which [read_csv] found empty fields are the
    [CsvRow] frames further down. *)
Record LogRow : Type := mkLogRow {
  timestamp : Z;
  source_ip : string;
  username : string;
  dest_ip : string;
  domain : string
}.

(** The placeholder of an absent field in the proxy log. *)
Definition sentinel : string := "-"%string.

(** Line 51: [df.loc[(df['username'] != '-') & (df['dest_ip'] != '-')]]. *)
Definition sentinel_filter (df : list LogRow) : list LogRow :=
  filter (fun r => negb (String.eqb (username r) sentinel)
                   && negb (String.eqb (dest_ip r) sentinel)) df.

(** Lines 54-57: the columns of the conversation key. *)
Definition src (r : LogRow) : string := username r.
Definition dst (r : LogRow) : string := domain r.

(** ** Grouping the connections (lines 63-72) *)

Record Conversation : Type := mkConversation {
  c_src : string;
  c_dst : string;
  c_time : list Z
}.

(** Line 72: [Count = len(timestamps)]. *)
Definition c_count (c : Conversation) : Z := Z.of_nat (length (c_time c)).

Definition key_compare (s1 d1 s2 d2 : string) : comparison :=
  match String.compare s1 s2 with
  | Eq => String.compare d1 d2
  | o => o
  end.

(** [groupby([src, dst]).agg(list)]: one group per distinct key, the groups
    in key order (pandas sorts the group keys), each group listing its
    timestamps in row order. *)
Fixpoint group_insert (s d : string) (t : Z) (gs : list Conversation)
  : list Conversation :=
  match gs with
  | [] => [mkConversation s d [t]]
  | g :: gs' =>
      match key_compare s d (c_src g) (c_dst g) with
      | Lt => mkConversation s d [t] :: g :: gs'
      | Eq => mkConversation (c_src g) (c_dst g) (c_time g ++ [t]) :: gs'
      | Gt => g :: group_insert s d t gs'
      end
  end.

Definition groupby (df : list LogRow) : list Conversation :=
  fold_left (fun gs r => group_insert (src r) (dst r) (timestamp r) gs) df [].

(** The rows of a frame that belong to the key [(s, d)], and the
    timestamps listed under that key in a grouped frame (none when the key
    has no group). *)
Definition same_key (s d : string) (r : LogRow) : bool :=
  String.eqb (src r) s && String.eqb (dst r) d.

Fixpoint times_of (s d : string) (gs : list Conversation) : list Z :=
  match gs with
  | [] => []
  | g :: gs' =>
      match key_compare s d (c_src g) (c_dst g) with
      | Eq => c_time g
      | _ => times_of s d gs'
      end
  end.

Definition key_lt (g1 g2 : Conversation) : Prop :=
  key_compare (c_src g1) (c_dst g1) (c_src g2) (c_dst g2) = Lt.

(** Line 79: [df.loc[df[count] > 36]]. *)
Definition minActivityThreshold : Z := 36.

Definition active (c : Conversation) : bool := minActivityThreshold <? c_count c.

Definition remove_short_sessions (df : list Conversation) : list Conversation :=
  filter active df.

(** ** Time deltas and span (lines 90, 104) *)

(** [pd.Series(x).diff().dropna().tolist()]: [diff] yields a missing value
    followed by the consecutive differences; [dropna] removes the missing
    value. *)
Fixpoint diff_dropna (x : list Z) : list Z :=
  match x with
  | a :: (b :: _) as tl => (b - a) :: diff_dropna tl
  | _ => []
  end.

(** [(x[-1] - x[0]).total_seconds()]. *)
Definition ConnDiv (x : list Z) : Z := last x 0 - hd 0 x.

Definition seconds (x : list Z) : list Q := map inject_Z x.

(** ** Statistical features of a delta series (lines 94-102)

    Each is the body of a [df[dlt].apply(lambda x: ...)]: a function of the
    [Deltas] cell [x]. *)

Section Features.

Local Open Scope Q_scope.

Definition Low (x : list Z) : Q := percentile (seconds x) 20.
Definition Mid (x : list Z) : Q := percentile (seconds x) 50.
Definition High (x : list Z) : Q := percentile (seconds x) 80.

Definition BowleyNum (x : list Z) : Q := Low x + High x - 2 * Mid x.
Definition BowleyDen (x : list Z) : Q := High x - Low x.

(** Line 99:
    [BowleyNum / BowleyDen if BowleyNum != 0 and Mid != Low and Mid != High
     else 0.0]. *)
Definition Skew (x : list Z) : Q :=
  if negb (Qeq_bool (BowleyNum x) 0)
     && negb (Qeq_bool (Mid x) (Low x))
     && negb (Qeq_bool (Mid x) (High x))
  then BowleyNum x / BowleyDen x
  else 0.

(** Line 102: median of the absolute deviations from the median. *)
Definition Madm (x : list Z) : Q :=
  median (map (fun y => Qabs (y - median (seconds x))) (seconds x)).

End Features.

(** ** The score (lines 109-114)

    The columns are functions of the row. *)

Section Score.

Local Open Scope Q_scope.

Definition Deltas (c : Conversation) : list Z := diff_dropna (c_time c).

Definition SkewScore (c : Conversation) : Q := 1 - Qabs (Skew (Deltas c)).

(** Lines 110-111: [1.0 - Madm/30.0], then [0 if x < 0 else x]. *)
Definition dispersion (madm : Q) : Q :=
  let x := 1 - madm / 30 in
  if negb (Qle_bool 0 x) then 0 else x.

Definition MadmScore (c : Conversation) : Q := dispersion (Madm (Deltas c)).

(** Lines 112-113: [10 * Count / ConnDiv], then [1.0 if x > 1.0 else x]. *)
Definition rate (count span : Z) : xfloat :=
  let x := Float.div (inject_Z (10 * count)) (inject_Z span) in
  if gtb x 1 then Fin 1 else x.

Definition ConnCountScore (c : Conversation) : xfloat :=
  rate (c_count c) (ConnDiv (c_time c)).

(** Line 114. *)
Definition Score (c : Conversation) : xfloat :=
  divc (mulc (divc (addq (SkewScore c + MadmScore c) (ConnCountScore c)) 3)
             1000) 1000.

End Score.

(** ** Ranking and reporting (lines 115-127) *)

(** [df.sort_values(by='Score', ascending=False)], by its contract: the
    sorting algorithm is pandas' default ([kind='quicksort']), which
    promises a reordering of the rows into descending score order and
    nothing about rows of equal score.  The order the call returns is
    [sort_by_Score] below. *)
Definition score_ge (a b : Conversation) : Prop := geb (Score a) (Score b) = true.

Definition sort_values (df out : list Conversation) : Prop :=
  Permutation df out /\ StronglySorted score_ge out.

(** A sort of the stable kind: a row goes in front of the first row whose
    score is not larger than its own. *)
Fixpoint insert_by_score (c : Conversation) (l : list Conversation)
  : list Conversation :=
  match l with
  | [] => [c]
  | y :: l' =>
      if geb (Score c) (Score y) then c :: l else y :: insert_by_score c l'
  end.

Definition stable_sort (df : list Conversation) : list Conversation :=
  fold_right insert_by_score [] df.

(** The order line 115 returns.  For a single sort key [sort_values] calls
    [nargsort(k, kind='quicksort', ascending=False, na_position='last')]:
    the rows whose key is nan are set aside, the others are reversed,
    sorted in ascending order by [argsort] and reversed again, and the nan
    rows follow in frame order.  [before] is the comparison of two rows by
    their keys. *)
Definition before (a b : Conversation) : bool :=
  DOUBLE_LT (Score a) (Score b).

Definition no_row : Conversation := mkConversation EmptyString EmptyString [].

Definition sort_by_Score (df : list Conversation) : list Conversation :=
  let mask := fun c => isnan (Score c) in
  let non_nans := filter (fun c => negb (mask c)) df in
  let nan_rows := filter mask df in
  rev (Npysort.aquicksort before no_row (rev non_nans)) ++ nan_rows.

(** Line 122: the columns kept for the report. *)
Record Report : Type := mkReport {
  rep_Score : xfloat;
  rep_Count : Z;
  rep_src : string;
  rep_dst : string;
  rep_Deltas : list Z
}.

Definition report_row (c : Conversation) : Report :=
  mkReport (Score c) (c_count c) (c_src c) (c_dst c) (Deltas c).

Definition beaconThreshold : Q := 0.7.

(** Line 127: [df.loc[df[score] > 0.7]]. *)
Definition possible_beacons (df : list Report) : list Report :=
  filter (fun r => gtb (rep_Score r) beaconThreshold) df.

(** The frame that reaches scoring, and what the contract of
    [sort_values] says of the report: a descending reordering of the
    scored frame. *)
Definition scored_frame (rows : list LogRow) : list Conversation :=
  remove_short_sessions (groupby (sentinel_filter rows)).

Definition ranking (rows : list LogRow) (out : list Conversation) : Prop :=
  sort_values (scored_frame rows) out.

(** ** The run of the script

    Line 99 computes the skew with [DataFrame.apply(f, axis=1)], which
    calls [f] on every row and returns the Series of the results.  On a
    frame without rows there is no row to call [f] on: pandas probes [f]
    with an empty Series, the lookup [x['BowleyNum']] fails on it, and
    [apply] returns a copy of the frame, its five columns without rows.
    The assignment of that frame to the single column ['Skew'] raises
    [ValueError], and the script ends there, before anything of the
    report is printed.  (The other column operations go through
    [Series.apply] and Series arithmetic, which return an empty Series on
    an empty one.)  This is [apply] as the pandas of the script has it:
    line 115 notes that production lacks [ignore_index], an argument
    [sort_values] has since pandas 1.0. *)
Inductive Applied : Type :=
| Series (values : list Q)
| DataFrame (columns : list string).

Definition apply_axis1 (columns : list string) (f : Conversation -> Q)
           (df : list Conversation) : Applied :=
  match df with
  | [] => DataFrame columns
  | _ => Series (map f df)
  end.

Inductive Outcome : Type :=
| Reported (scores flagged : list Report)
| ValueError.

(** Lines 79-127: the scores in ranking order and the possible beacons, or
    the error of line 99. *)
Definition beacon_finder (rows : list LogRow) : Outcome :=
  let df := scored_frame rows in
  match apply_axis1 ["Low"; "Mid"; "High"; "BowleyNum"; "BowleyDen"]%string
                    (fun c => Skew (Deltas c)) df with
  | DataFrame _ => ValueError
  | Series _ =>
      let scores := map report_row (sort_by_Score df) in
      Reported scores (possible_beacons scores)
  end.

(** ** Missing values (lines 47-63)

    [read_csv] stores an empty field of a text column as the missing value
    NaN.  A cell of such a column is a string or missing; the rows below
    carry the columns the script reads before grouping. *)
Record CsvRow : Type := mkCsvRow {
  f_timestamp : Z;
  f_username : option string;
  f_dest_ip : option string;
  f_domain : option string
}.

(** [cell != '-']: a missing value compares unequal to every string. *)
Definition differs (cell : option string) (s : string) : bool :=
  match cell with
  | Some x => negb (String.eqb x s)
  | None => true
  end.

(** Line 51 on a frame with missing values. *)
Definition csv_sentinel_filter (df : list CsvRow) : list CsvRow :=
  filter (fun r => differs (f_username r) sentinel
                   && differs (f_dest_ip r) sentinel) df.

(** Line 63 on a frame with missing values: [groupby] leaves out every
    row whose key has a missing part. *)
Definition csv_groupby (df : list CsvRow) : list Conversation :=
  fold_left (fun gs r =>
               match f_username r, f_domain r with
               | Some s, Some d => group_insert s d (f_timestamp r) gs
               | _, _ => gs
               end) df [].

Definition has_key (r : CsvRow) : bool :=
  match f_username r, f_domain r with
  | Some _, Some _ => true
  | _, _ => false
  end.

Definition csv_same_key (s d : string) (r : CsvRow) : bool :=
  match f_username r, f_domain r with
  | Some s', Some d' => String.eqb s' s && String.eqb d' d
  | _, _ => false
  end.

(** A row without missing values, and (for the rows that are grouped) the
    way back: line 59 keeps the time and the key columns only, the other
    fields play no part in grouping. *)
Definition complete (r : LogRow) : CsvRow :=
  mkCsvRow (timestamp r) (Some (username r)) (Some (dest_ip r))
           (Some (domain r)).

Definition keyed (r : CsvRow) : list LogRow :=
  match f_username r, f_domain r with
  | Some s, Some d =>
      [mkLogRow (f_timestamp r) EmptyString s
                (match f_dest_ip r with Some a => a | None => EmptyString end)
                d]
  | _, _ => []
  end.

(** ** Sample logs

    [n] rows of one user contacting one domain, the first at [start] and
    each next one [step] seconds later (as the log generator emits a
    beacon). *)
Definition beacon_rows (n : nat) (user ip dom : string) (start step : Z)
  : list LogRow :=
  map (fun i => mkLogRow (start + Z.of_nat i * step) "172.30.0.1" user ip dom)
      (seq 0 n).

Definition beacon_conv (n : nat) (user dom : string) (start step : Z)
  : Conversation :=
  mkConversation user dom (map (fun i => start + Z.of_nat i * step) (seq 0 n)).

(** 37 check-ins one minute apart. *)
Definition minute_rows : list LogRow :=
  beacon_rows 37 "user1" "99.11.99.1" "itsabeacon.com" 0 60.
Definition minute_conv : Conversation :=
  beacon_conv 37 "user1" "itsabeacon.com" 0 60.

(** 37 check-ins ten seconds apart: 370 / 360 exceeds the rate cap. *)
Definition ten_second_conv : Conversation :=
  beacon_conv 37 "user1" "domain1.com" 0 10.

(** 36 check-ins: one short of the activity filter. *)
Definition short_rows : list LogRow :=
  beacon_rows 36 "user2" "99.11.99.2" "domain1.com" 0 60.


(** 37 rows logged newest first, one second apart. *)
Definition newest_first_rows : list LogRow :=
  beacon_rows 37 "user4" "99.11.99.4" "domain3.com" 36 (-1).
Definition newest_first_conv : Conversation :=
  beacon_conv 37 "user4" "domain3.com" 36 (-1).

(** 37 rows with a resolved address and the placeholder as domain. *)
Definition no_domain_rows : list LogRow :=
  beacon_rows 37 "user5" "99.11.99.5" "-" 0 60.
Definition no_domain_conv : Conversation :=
  beacon_conv 37 "user5" "-" 0 60.

(** Two conversations with the same timing, hence the same score. *)
Definition twin_rows : list LogRow :=
  beacon_rows 37 "user6" "99.11.99.6" "a.com" 0 60
  ++ beacon_rows 37 "user6" "99.11.99.7" "b.com" 0 60.
Definition twin_a : Conversation := beacon_conv 37 "user6" "a.com" 0 60.
Definition twin_b : Conversation := beacon_conv 37 "user6" "b.com" 0 60.

(** Eighteen conversations with the same timing, hence the same score;
    their keys are in the order of the list. *)
Definition tied_users : list string :=
  ["user10"; "user11"; "user12"; "user13"; "user14"; "user15"; "user16";
   "user17"; "user18"; "user19"; "user20"; "user21"; "user22"; "user23";
   "user24"; "user25"; "user26"; "user27"]%string.

Definition tied_conv (user : string) : Conversation :=
  beacon_conv 37 user "tie.com" 0 60.

Definition tied_rows : list LogRow :=
  flat_map (fun user => beacon_rows 37 user "99.11.99.8" "tie.com" 0 60)
           tied_users.

(** A frame with missing values: the second row has no user name, the
    third neither address nor domain. *)
Definition gappy_rows : list CsvRow :=
  [mkCsvRow 0 (Some "user1") (Some "99.11.99.1") (Some "a.com");
   mkCsvRow 5 None (Some "99.11.99.1") (Some "a.com");
   mkCsvRow 9 (Some "user1") None None;
   mkCsvRow 60 (Some "user1") (Some "99.11.99.1") (Some "a.com");
   mkCsvRow 70 (Some "-") (Some "99.11.99.1") (Some "a.com")]%string.

(** * sub_count.py: number of subdomains per domain

    Text is the byte string of an ASCII log.  [count_subdomains] is
    modelled from the rows that [csv.reader] yields to the lines that it
    prints; [None] is the [IndexError] of [row[2]]. *)

Module SubCount.

Local Open Scope string_scope.

(** The characters [str.strip()] removes: tab to carriage return, the
    four separators 28-31, and the space. *)
Definition is_space (c : ascii) : bool :=
  let n := nat_of_ascii c in
  ((9 <=? n)%nat && (n <=? 13)%nat) || ((28 <=? n)%nat && (n <=? 32)%nat).

Fixpoint lstrip (s : string) : string :=
  match s with
  | EmptyString => EmptyString
  | String c s' => if is_space c then lstrip s' else s
  end.

Fixpoint rstrip (s : string) : string :=
  match s with
  | EmptyString => EmptyString
  | String c s' =>
      match rstrip s' with
      | EmptyString => if is_space c then EmptyString else String c EmptyString
      | r => String c r
      end
  end.

Definition strip (s : string) : string := rstrip (lstrip s).

(** Line 15-16: a line made of the same text twice is cut to its first
    half ([line[:len(line)//2]]). *)
Definition dedupe (line : string) : string :=
  let n := String.length line in
  let h := (n / 2)%nat in
  if (n mod 2 =? 0)%nat
     && String.eqb (substring 0 h line) (substring h (n - h) line)
  then substring 0 h line
  else line.

(** [keyword in line]. *)
Fixpoint contains (keyword line : string) : bool :=
  prefix keyword line
  || match line with
     | EmptyString => false
     | String _ rest => contains keyword rest
     end.

(** Line 18: [any(keyword in line for keyword in keywords)]. *)
Definition ignored (keywords : list string) (line : string) : bool :=
  existsb (fun keyword => contains keyword line) keywords.

(** [line.split(sep)]: the text before the first separator, and the
    parts after it. *)
Fixpoint split_from (sep : ascii) (s : string) : string * list string :=
  match s with
  | EmptyString => (EmptyString, [])
  | String c s' =>
      let (p, ps) := split_from sep s' in
      if Ascii.eqb c sep then (EmptyString, p :: ps) else (String c p, ps)
  end.

Definition split (sep : ascii) (s : string) : list string :=
  let (p, ps) := split_from sep s in p :: ps.

(** Line 22: ['.'.join(parts[-2:])]. *)
Definition root_domain (parts : list string) : string :=
  String.concat "." (skipn (length parts - 2) parts).

(** [defaultdict(set)]: the keys in insertion order, each with its set. *)
Definition Domains : Type := list (string * list string).

Definition set_add (x : string) (s : list string) : list string :=
  if existsb (String.eqb x) s then s else s ++ [x].

(** [domains[k].add(v)]. *)
Fixpoint dict_add (k v : string) (d : Domains) : Domains :=
  match d with
  | [] => [(k, [v])]
  | (k', s) :: d' =>
      if String.eqb k k' then (k', set_add v s) :: d'
      else (k', s) :: dict_add k v d'
  end.

(** Lines 13-24: the body of the loop over the lines. *)
Definition visit (keywords : list string) (domains : Domains) (line0 : string)
  : Domains :=
  let line := dedupe (strip line0) in
  if ignored keywords line then domains
  else
    let parts := split "." line in
    if (2 <? length parts)%nat
    then dict_add (root_domain parts) (hd EmptyString parts) domains
    else domains.

Definition collect (keywords : list string) (lines : list string) : Domains :=
  fold_left (visit keywords) lines [].

Definition show_nat (n : nat) : string := NilZero.string_of_uint (Nat.to_uint n).

(** Lines 25-26: one printed line per domain. *)
Definition report (domains : Domains) : list string :=
  map (fun e => show_nat (length (snd e)) ++ " " ++ fst e) domains.

(** Line 10: [[row[2] for row in reader]]. *)
Fixpoint column2 (rows : list (list string)) : option (list string) :=
  match rows with
  | [] => Some []
  | row :: rows' =>
      match nth_error row 2, column2 rows' with
      | Some x, Some xs => Some (x :: xs)
      | _, _ => None
      end
  end.

Definition count_subdomains (rows : list (list string)) (keywords : list string)
  : option (list string) :=
  match column2 rows with
  | Some lines => Some (report (collect keywords lines))
  | None => None
  end.

(** The ignore list of the script (line 30). *)
Definition ignore_list : list string := ["word1"; "word2"].

(** The pairs (domain, subdomain) a line contributes: none or one. *)
Definition contribution (keywords : list string) (line0 : string)
  : option (string * string) :=
  let line := dedupe (strip line0) in
  if ignored keywords line then None
  else
    let parts := split "." line in
    if (2 <? length parts)%nat
    then Some (root_domain parts, hd EmptyString parts)
    else None.

(** [v] is in the set stored under [k]. *)
Definition listed (k v : string) (d : Domains) : Prop :=
  exists subs, In (k, subs) d /\ In v subs.

(** A dictionary of sets: distinct keys, each set without repetition; the
    loop never stores an empty set. *)
Definition well_formed (d : Domains) : Prop :=
  NoDup (map fst d)
  /\ Forall (fun e => NoDup (snd e) /\ snd e <> []) d.

Definition sample_rows : list (list string) :=
  [ ["t"; "1.1.1.1"; "www.example.com"];
    ["t"; "1.1.1.1"; " mail.example.com "];
    ["t"; "1.1.1.1"; "example.com"];
    ["t"; "1.1.1.1"; "a.b.example.orga.b.example.org"];
    ["t"; "1.1.1.1"; "www.example.com"];
    ["t"; "1.1.1.1"; "x.word1.net"] ].

End SubCount.

(** * proxy_log_generator.py: a synthetic proxy log with one beacon

    The script draws from [random]; every draw is an input of the model:
    [Random] holds the two draws made before the loop and, for the
    iteration of each second, the draws made in that iteration ([random.choice]
    as the index it picks, [random.randint] as the integer it returns).
    Time is counted in seconds since midnight of 2023-03-02; a row is the
    record of the thirteen fields that [print] writes, in that order. *)

Module Generator.

Local Open Scope string_scope.

Definition show (n : nat) : string := SubCount.show_nat n.

Definition quoted (s : string) : string :=
  String (ascii_of_nat 34) (s ++ String (ascii_of_nat 34) "").

Definition start_time : Z := 20 * 3600 + 58 * 60 + 27.
Definition end_time : Z := start_time + 8 * 3600.
Definition time_increment : Z := 1.
Definition beacon_increment : Z := 60.

Definition sources (num_sources : nat) : list string :=
  map (fun i => "172.30.0." ++ show i) (seq 1 num_sources).
Definition usernames (num_sources : nat) : list string :=
  map (fun i => "user" ++ show i) (seq 1 num_sources).
Definition source_username_pairs (num_sources : nat) : list (string * string) :=
  combine (sources num_sources) (usernames num_sources).
Definition dest_ips : list string :=
  map (fun i => "99.11.99." ++ show i) (seq 1 20).
Definition category : string := quoted "category".
Definition method : string := "POST".
Definition port : Z := 443.
Definition domains : list string :=
  map (fun i => "domain" ++ show i ++ ".com") (seq 1 100).
Definition uri : string := "/index.html".
Definition filetype : Z := 0.
Definition agent : string :=
  quoted "Mozilla/5.0_(Windows_NT_10.0;_Win64;_x64)_AppleWebKit/537.36_(KHTML,_like_Gecko)_Chrome/109.0.0.0_Safari/537.36".

Record ProxyRow : Type := mkProxyRow {
  p_time : Z;
  p_source : string;
  p_username : string;
  p_dest_ip : string;
  p_category : string;
  p_method : string;
  p_port : Z;
  p_domain : string;
  p_uri : string;
  p_filetype : Z;
  p_agent : string;
  p_bytes_received : Z;
  p_bytes_sent : Z
}.

(** The draws of one iteration of the loop, in the order they are made;
    the jitter is drawn only in an iteration that prints a beacon row. *)
Record Draw : Type := mkDraw {
  d_pair : nat;
  d_dest_ip : nat;
  d_domain : nat;
  d_bytes_received : Z;
  d_bytes_sent : Z;
  d_jitter : Z
}.

Record Random : Type := mkRandom {
  r_beacon_pair : nat;
  r_beacon_dest_ip : nat;
  r_draw : nat -> Draw
}.

(** What [random] guarantees about its draws: [choice] picks an index of
    the sequence, [randint(a, b)] an integer between [a] and [b]. *)
Definition valid_draw (num_sources : nat) (d : Draw) : Prop :=
  (d_pair d <= num_sources)%nat
  /\ (d_dest_ip d <= 20)%nat
  /\ (d_domain d < 100)%nat
  /\ (100 <= d_bytes_received d <= 1000)%Z
  /\ (1000 <= d_bytes_sent d <= 10000)%Z
  /\ (-10 <= d_jitter d <= 10)%Z.

Definition valid_random (num_sources : nat) (r : Random) : Prop :=
  (r_beacon_pair r < num_sources)%nat
  /\ (r_beacon_dest_ip r < 20)%nat
  /\ forall i, valid_draw num_sources (r_draw r i).

(** Line 48: the beacon row. *)
Definition beacon_row (current_time : Z) (beacon_pair : string * string)
           (beacon_dest_ip : string) : ProxyRow :=
  mkProxyRow current_time (fst beacon_pair) (snd beacon_pair) beacon_dest_ip
             category method port "itsabeacon.com" uri filetype agent 400 300.

(** Lines 28-40 and 50: the row of every second. *)
Definition regular_row (num_sources : nat) (current_time : Z) (d : Draw)
  : ProxyRow :=
  let source_username_pair :=
    nth (d_pair d) (source_username_pairs num_sources ++ [("-", "-")])
        ("-", "-") in
  mkProxyRow current_time
             (fst source_username_pair) (snd source_username_pair)
             (nth (d_dest_ip d) (dest_ips ++ ["-"]) "-")
             category method port
             (nth (d_domain d) domains "")
             uri filetype agent
             (d_bytes_received d) (d_bytes_sent d).

(** Lines 27-52: the loop, from the iteration [i] on. *)
Fixpoint loop (fuel : nat) (num_sources : nat)
         (beacon_pair : string * string) (beacon_dest_ip : string)
         (draw : nat -> Draw) (i : nat) (current_time beacon_time : Z)
  : option (list ProxyRow) :=
  match fuel with
  | O => None
  | S fuel' =>
      if (current_time <? end_time)%Z then
        let d := draw i in
        let fire := (beacon_time <=? current_time)%Z in
        let beacon_time' :=
          if fire then (beacon_time + (beacon_increment + d_jitter d))%Z
          else beacon_time in
        match loop fuel' num_sources beacon_pair beacon_dest_ip draw (S i)
                   (current_time + time_increment)%Z beacon_time' with
        | None => None
        | Some rows =>
            Some ((if fire
                   then [beacon_row current_time beacon_pair beacon_dest_ip]
                   else [])
                    ++ regular_row num_sources current_time d :: rows)%list
        end
      else Some []
  end.

Inductive outcome : Type :=
| Done (rows : list ProxyRow)
| IndexError
| OutOfFuel.

Definition generate_dummy_log_data (fuel : nat) (num_sources : nat) (r : Random)
  : outcome :=
  match nth_error (source_username_pairs num_sources) (r_beacon_pair r) with
  | None => IndexError
  | Some beacon_source_username_pair =>
      match nth_error dest_ips (r_beacon_dest_ip r) with
      | None => IndexError
      | Some beacon_dest_ip =>
          match loop fuel num_sources beacon_source_username_pair
                     beacon_dest_ip (r_draw r) 0 start_time start_time with
          | Some rows => Done rows
          | None => OutOfFuel
          end
      end
  end.

Definition is_beacon (row : ProxyRow) : bool :=
  String.eqb (p_domain row) "itsabeacon.com".

(** What the loop prints from the iteration [i] on, started at
    [cur <= bt]: the row of every remaining second, and beacon rows at [bt]
    and then every 50 to 70 seconds up to the end. *)
Definition loop_result (n : nat) (bp : string * string) (bd : string)
           (draw : nat -> Draw) (i : nat) (cur bt : Z) (rows : list ProxyRow)
  : Prop :=
  filter (fun r => negb (is_beacon r)) rows
  = map (fun k => regular_row n (cur + Z.of_nat k) (draw (i + k)%nat))
        (seq 0 (Z.to_nat (end_time - cur)))
  /\ Forall (fun r => r = beacon_row (p_time r) bp bd) (filter is_beacon rows)
  /\ Forall (fun t => bt <= t < end_time)%Z (map p_time (filter is_beacon rows))
  /\ ((bt < end_time)%Z ->
      hd_error (map p_time (filter is_beacon rows)) = Some bt
      /\ (end_time - 70 <= last (map p_time (filter is_beacon rows)) 0)%Z)
  /\ Forall (fun d => 50 <= d <= 70)%Z
            (diff_dropna (map p_time (filter is_beacon rows))).

(** The row as [read_csv] of the finder names its columns. *)
Definition read_row (row : ProxyRow) : LogRow :=
  mkLogRow (p_time row) (p_source row) (p_username row) (p_dest_ip row)
           (p_domain row).

(** A stream of draws: the same user, address and domain every second,
    and the jitter [j]. *)
Definition steady (j : Z) : Random :=
  mkRandom 0 0 (fun _ => mkDraw 1 1 1 500 5000 j).

(** A stream of draws that changes every second: the pair, the address
    and the domain run through their sequences, the jitter through
    -10 .. 10. *)
Definition varied : Random :=
  mkRandom 7 3
           (fun i => mkDraw (i mod 201) (i mod 21) (i mod 100)
                            (100 + Z.of_nat (i mod 901))
                            (1000 + 10 * Z.of_nat (i mod 901))
                            (Z.of_nat (i mod 21) - 10)).

End Generator.

(** ** Notions used to state properties of the pipeline *)

(** The running sums of a delta series from a first timestamp. *)
Fixpoint cumsum (t0 : Z) (ds : list Z) : list Z :=
  match ds with
  | [] => [t0]
  | d :: ds' => t0 :: cumsum (t0 + d) ds'
  end.

(** The same conversation observed [k] seconds later. *)
Definition shift_time (k : Z) (c : Conversation) : Conversation :=
  mkConversation (c_src c) (c_dst c) (map (Z.add k) (c_time c)).

(** * Properties *)

(** ** Order statistics *)

Module NumpyFacts.

Local Open Scope Q_scope.

Lemma insert_length (x : Q) (l : list Q) :
  length (insert x l) = S (length l).
Proof.
  induction l as [|y l IH]; simpl; [reflexivity|].
  destruct (Qle_bool x y); simpl; congruence.
Qed.

Lemma sort_length (l : list Q) : length (sort l) = length l.
Proof.
  induction l as [|x l IH]; simpl; [reflexivity|].
  rewrite insert_length; congruence.
Qed.

Lemma insert_perm (x : Q) (l : list Q) : Permutation (x :: l) (insert x l).
Proof.
  induction l as [|y l IH]; simpl; [apply Permutation_refl|].
  destruct (Qle_bool x y); [apply Permutation_refl|].
  eapply perm_trans; [apply perm_swap|]. now apply perm_skip.
Qed.

Lemma sort_perm (l : list Q) : Permutation l (sort l).
Proof.
  induction l as [|x l IH]; simpl; [constructor|].
  eapply perm_trans; [apply perm_skip, IH | apply insert_perm].
Qed.

Lemma sort_Forall (P : Q -> Prop) (l : list Q) :
  Forall P l -> Forall P (sort l).
Proof. intro H. eapply Permutation_Forall; [apply sort_perm | exact H]. Qed.

Lemma insert_sorted (x : Q) (l : list Q) :
  StronglySorted Qle l -> StronglySorted Qle (insert x l).
Proof.
  induction l as [|y l IH]; simpl; intro Hs.
  - repeat constructor.
  - inversion Hs as [|? ? Hl Hy]; subst.
    destruct (Qle_bool x y) eqn:E.
    + apply Qle_bool_iff in E.
      constructor; [exact Hs|].
      constructor; [exact E|].
      eapply Forall_impl; [|exact Hy].
      intros z Hz. now apply Qle_trans with y.
    + assert (Hyx : y <= x).
      { destruct (Qlt_le_dec y x) as [Hlt|Hle]; [now apply Qlt_le_weak|].
        apply Qle_bool_iff in Hle. congruence. }
      constructor; [now apply IH|].
      eapply Permutation_Forall; [apply insert_perm|].
      now constructor.
Qed.

Lemma sort_sorted (l : list Q) : StronglySorted Qle (sort l).
Proof.
  induction l as [|x l IH]; simpl; [constructor | now apply insert_sorted].
Qed.

Lemma nth_sorted_le (s : list Q) :
  StronglySorted Qle s ->
  forall i j : nat, (i <= j < length s)%nat -> nth i s 0 <= nth j s 0.
Proof.
  induction 1 as [|x s Hs IH Hx]; intros i j [Hij Hj]; simpl in Hj; [lia|].
  destruct j as [|j].
  - assert (i = 0%nat) by lia; subst. apply Qle_refl.
  - destruct i as [|i]; simpl.
    + rewrite Forall_forall in Hx. apply Hx, nth_In. lia.
    + apply IH. lia.
Qed.

Lemma percentile_interp (a : list Q) (p : Z) :
  percentile a p
  = interp (sort a) (Z.of_nat (length a)) (p * (Z.of_nat (length a) - 1)).
Proof. reflexivity. Qed.

Lemma frac_bounds (m : Z) : (0 <= m < 100)%Z -> 0 <= m # 100 /\ m # 100 <= 1.
Proof. intros [H0 H1]. unfold Qle; simpl. lia. Qed.

Lemma frac_mono (m1 m2 : Z) : (m1 <= m2)%Z -> m1 # 100 <= m2 # 100.
Proof. intro H. unfold Qle; simpl. lia. Qed.

Section Interp.

Variables (s : list Q) (n : Z).
Hypothesis Hsorted : StronglySorted Qle s.
Hypothesis Hlen : Z.of_nat (length s) = n.

Lemma interp_between (r : Z) :
  (0 <= r <= 100 * (n - 1))%Z ->
  nth (Z.to_nat (r / 100)) s 0 <= interp s n r
  /\ interp s n r <= nth (Z.to_nat (Z.min (r / 100 + 1) (n - 1))) s 0.
Proof.
  intros Hr. unfold interp; cbv zeta.
  set (j := (r / 100)%Z).
  assert (Hj : (0 <= j <= n - 1)%Z).
  { unfold j. split; [apply Z.div_pos; lia|].
    apply Z.div_le_upper_bound; lia. }
  assert (Hm : (0 <= r mod 100 < 100)%Z) by (apply Z.mod_pos_bound; lia).
  destruct (frac_bounds _ Hm) as [Hg0 Hg1].
  set (g := (r mod 100)%Z # 100) in *.
  assert (Hlohi : nth (Z.to_nat j) s 0
                  <= nth (Z.to_nat (Z.min (j + 1) (n - 1))) s 0).
  { apply nth_sorted_le; [exact Hsorted | lia]. }
  set (lo := nth (Z.to_nat j) s 0) in *.
  set (hi := nth (Z.to_nat (Z.min (j + 1) (n - 1))) s 0) in *.
  split; nra.
Qed.

Lemma interp_mono (r1 r2 : Z) :
  (0 <= r1 <= r2)%Z -> (r2 <= 100 * (n - 1))%Z ->
  interp s n r1 <= interp s n r2.
Proof.
  intros H12 H2.
  assert (Hq : (r1 / 100 <= r2 / 100)%Z) by (apply Z.div_le_mono; lia).
  assert (Hq1 : (0 <= r1 / 100)%Z) by (apply Z.div_pos; lia).
  assert (Hq2 : (r2 / 100 <= n - 1)%Z)
    by (apply Z.div_le_upper_bound; lia).
  destruct (Z.eq_dec (r1 / 100) (r2 / 100)) as [E|NE].
  - assert (Hm : (r1 mod 100 <= r2 mod 100)%Z).
    { pose proof (Z.div_mod r1 100 ltac:(lia)).
      pose proof (Z.div_mod r2 100 ltac:(lia)). lia. }
    assert (Hm1 : (0 <= r1 mod 100 < 100)%Z)
      by (apply Z.mod_pos_bound; lia).
    apply frac_mono in Hm. destruct (frac_bounds _ Hm1) as [Hg0 _].
    unfold interp; cbv zeta. rewrite <- E.
    assert (Hlohi : nth (Z.to_nat (r1 / 100)) s 0
              <= nth (Z.to_nat (Z.min (r1 / 100 + 1) (n - 1))) s 0).
    { apply nth_sorted_le; [exact Hsorted | lia]. }
    set (lo := nth (Z.to_nat (r1 / 100)) s 0) in *.
    set (hi := nth (Z.to_nat (Z.min (r1 / 100 + 1) (n - 1))) s 0) in *.
    set (g1 := (r1 mod 100)%Z # 100) in *.
    set (g2 := (r2 mod 100)%Z # 100) in *.
    nra.
  - destruct (interp_between r1 ltac:(lia)) as [_ Hup].
    destruct (interp_between r2 ltac:(lia)) as [Hdown _].
    eapply Qle_trans; [exact Hup|].
    eapply Qle_trans; [|exact Hdown].
    apply nth_sorted_le; [exact Hsorted | lia].
Qed.

End Interp.

Lemma percentile_mono (a : list Q) (p1 p2 : Z) :
  a <> [] -> (0 <= p1 <= p2)%Z -> (p2 <= 100)%Z ->
  percentile a p1 <= percentile a p2.
Proof.
  intros Ha H12 H2. rewrite !percentile_interp.
  assert (Hn : (1 <= Z.of_nat (length a))%Z)
    by (destruct a; [congruence | simpl length; lia]).
  apply interp_mono.
  - apply sort_sorted.
  - now rewrite sort_length.
  - nia.
  - nia.
Qed.

Lemma median_nonneg (a : list Q) :
  a <> [] -> Forall (fun q => 0 <= q) a -> 0 <= median a.
Proof.
  intros Ha Hall. unfold median.
  assert (Hn : (0 < length a)%nat)
    by (destruct a; [congruence | simpl; lia]).
  assert (Hs : forall i, (i < length a)%nat -> 0 <= nth i (sort a) 0).
  { intros i Hi. apply sort_Forall in Hall. rewrite Forall_forall in Hall.
    apply Hall, nth_In. now rewrite sort_length. }
  assert (Hhalf : (length a / 2 < length a)%nat)
    by (apply Nat.div_lt; lia).
  destruct (Nat.even (length a)).
  - pose proof (Hs (length a / 2 - 1)%nat ltac:(lia)).
    pose proof (Hs (length a / 2)%nat Hhalf).
    apply Qle_shift_div_l; lra.
  - now apply Hs.
Qed.

End NumpyFacts.

(** ** numpy's argsort: a sorted rearrangement

    For every comparison [LT] that is a strict weak order, [aquicksort]
    returns a rearrangement of its input in which no element is above a
    later one, whichever of insertion sort, partition and heapsort its
    segments go through. *)

Module NpysortFacts.

Import Npysort.

Local Open Scope nat_scope.

(** *** Arrays as lists *)

Section Arrays.

Context {A : Type} (d : A).


Lemma upd_length (a : list A) (i : nat) (x : A) :
  length (upd a i x) = length a.
Proof.
  revert i. induction a as [|y a IH]; intros [|i]; simpl; auto.
Qed.

Lemma get_upd_eq (a : list A) (i : nat) (x : A) :
  i < length a -> get d (upd a i x) i = x.
Proof.
  revert i. induction a as [|y a IH]; intros [|i] H; simpl in *; try lia.
  - reflexivity.
  - apply IH. lia.
Qed.

Lemma get_upd_ne (a : list A) (i k : nat) (x : A) :
  i <> k -> get d (upd a i x) k = get d a k.
Proof.
  revert i k. induction a as [|y a IH]; intros [|i] [|k] H; simpl;
    try reflexivity; try lia.
  apply IH. lia.
Qed.

Lemma upd_same (a : list A) (i : nat) : upd a i (get d a i) = a.
Proof.
  revert i. induction a as [|y a IH]; intros [|i]; simpl; try reflexivity.
  f_equal. apply IH.
Qed.

Lemma upd_twice (a : list A) (i : nat) (x y : A) :
  upd (upd a i x) i y = upd a i y.
Proof.
  revert i. induction a as [|z a IH]; intros [|i]; simpl; try reflexivity.
  f_equal. apply IH.
Qed.

Lemma upd_comm (a : list A) (i j : nat) (x y : A) :
  i <> j -> upd (upd a i x) j y = upd (upd a j y) i x.
Proof.
  revert i j. induction a as [|z a IH]; intros [|i] [|j] H; simpl;
    try reflexivity; try lia.
  f_equal. apply IH. lia.
Qed.

Lemma swap_length (a : list A) (i j : nat) :
  length (INTP_SWAP d a i j) = length a.
Proof. unfold INTP_SWAP. now rewrite !upd_length. Qed.

Lemma get_swap_l (a : list A) (i j : nat) :
  i < length a -> j < length a -> get d (INTP_SWAP d a i j) i = get d a j.
Proof.
  intros Hi Hj. unfold INTP_SWAP.
  destruct (Nat.eq_dec i j) as [->|N].
  - rewrite get_upd_eq; [reflexivity | now rewrite upd_length].
  - rewrite get_upd_ne by lia. now apply get_upd_eq.
Qed.

Lemma get_swap_r (a : list A) (i j : nat) :
  j < length a -> get d (INTP_SWAP d a i j) j = get d a i.
Proof.
  intros Hj. unfold INTP_SWAP.
  apply get_upd_eq. now rewrite upd_length.
Qed.

Lemma get_swap_other (a : list A) (i j k : nat) :
  k <> i -> k <> j -> get d (INTP_SWAP d a i j) k = get d a k.
Proof.
  intros Hi Hj. unfold INTP_SWAP.
  rewrite !get_upd_ne by lia. reflexivity.
Qed.

Lemma swap_same (a : list A) (i : nat) : INTP_SWAP d a i i = a.
Proof.
  unfold INTP_SWAP. rewrite upd_twice. apply upd_same.
Qed.

Lemma swap_sym (a : list A) (i j : nat) : INTP_SWAP d a i j = INTP_SWAP d a j i.
Proof.
  destruct (Nat.eq_dec i j) as [->|N]; [reflexivity|].
  unfold INTP_SWAP. apply upd_comm. exact N.
Qed.

Lemma pull_perm (x : A) (a : list A) (j : nat) :
  j < length a -> Permutation (x :: a) (get d a j :: upd a j x).
Proof.
  revert j. induction a as [|y a IH]; intros [|j] H; simpl in *; try lia.
  - apply perm_swap.
  - eapply perm_trans; [apply perm_swap|].
    eapply perm_trans; [apply perm_skip, (IH j); lia|]. apply perm_swap.
Qed.

Lemma swap_perm_lt (a : list A) (i j : nat) :
  i < j -> j < length a -> Permutation a (INTP_SWAP d a i j).
Proof.
  unfold INTP_SWAP.
  revert i j. induction a as [|y a IH]; intros i j Hij Hj; simpl in *; [lia|].
  destruct j as [|j]; [lia|]. destruct i as [|i]; simpl.
  - apply pull_perm. lia.
  - apply perm_skip. apply IH; lia.
Qed.

Lemma swap_perm (a : list A) (i j : nat) :
  i < length a -> j < length a -> Permutation a (INTP_SWAP d a i j).
Proof.
  intros Hi Hj. destruct (Nat.lt_total i j) as [H | [-> | H]].
  - now apply swap_perm_lt.
  - rewrite swap_same. apply Permutation_refl.
  - rewrite swap_sym. now apply swap_perm_lt.
Qed.

Lemma get_In (a : list A) (i : nat) : i < length a -> In (get d a i) a.
Proof. intro H. now apply nth_In. Qed.

Lemma In_get (a : list A) (x : A) :
  In x a -> exists i, i < length a /\ get d a i = x.
Proof. intro H. destruct (In_nth a x d H) as (i & H1 & H2). eauto. Qed.

Lemma get_firstn (a : list A) (n k : nat) :
  k < n -> get d (firstn n a) k = get d a k.
Proof.
  unfold get. revert n k.
  induction a as [|y a IH]; intros [|n] [|k] H; simpl; try reflexivity; try lia.
  apply IH. lia.
Qed.

Lemma get_skipn (a : list A) (n k : nat) :
  get d (skipn n a) k = get d a (n + k).
Proof.
  unfold get. revert n. induction a as [|y a IH]; intros [|n]; simpl;
    try reflexivity.
  - now destruct k.
  - apply IH.
Qed.

Lemma split_at (a : list A) (i : nat) :
  i < length a -> a = firstn i a ++ get d a i :: skipn (S i) a.
Proof.
  unfold get. revert i.
  induction a as [|y a IH]; intros [|i] H; simpl in *; try lia.
  - reflexivity.
  - f_equal. apply IH. lia.
Qed.

Lemma sorted_rev (R : A -> A -> Prop) (l : list A) :
  StronglySorted R l -> StronglySorted (fun x y => R y x) (rev l).
Proof.
  induction 1 as [|x l Hl IH Hx]; simpl; [constructor|].
  assert (G : forall m, StronglySorted (fun x y => R y x) m ->
                Forall (fun y => R x y) m ->
                StronglySorted (fun x y => R y x) (m ++ [x])).
  { induction 1 as [|z m Hm IHm Hz]; simpl; intro Hall.
    - repeat constructor.
    - inversion Hall; subst. constructor; [now apply IHm|].
      apply Forall_app. split; [exact Hz|]. repeat constructor. assumption. }
  apply G; [exact IH|].
  apply Forall_forall. intros y Hy. apply in_rev in Hy.
  rewrite Forall_forall in Hx. now apply Hx.
Qed.

End Arrays.

(** *** Insertion sort and partition *)

Section Order.

Context {A : Type} (LT : A -> A -> bool) (d : A).

Hypothesis LT_irrefl : forall x, LT x x = false.
Hypothesis LT_asym : forall x y, LT x y = true -> LT y x = false.
Hypothesis le_trans : forall x y z, le LT x y -> le LT y z -> le LT x z.

Lemma LT_le (x y : A) : LT x y = true -> le LT x y.
Proof. apply LT_asym. Qed.

(** ** Sorted lists *)

Lemma sorted_index (a : list A) :
  (forall i j, i < j -> j < length a -> le LT (get d a i) (get d a j)) ->
  StronglySorted (le LT) a.
Proof.
  induction a as [|x a IH]; intro H; constructor.
  - apply IH. intros i j Hij Hj. apply (H (S i) (S j)); simpl; lia.
  - apply Forall_forall. intros y Hy.
    destruct (In_get d a y Hy) as (j & Hj & <-).
    apply (H 0 (S j)); simpl; lia.
Qed.

Lemma sorted_app (l r : list A) (p : A) :
  StronglySorted (le LT) l -> StronglySorted (le LT) r ->
  Forall (fun x => le LT x p) l -> Forall (le LT p) r ->
  StronglySorted (le LT) (l ++ p :: r).
Proof.
  intros Hl Hr Hlp Hpr. induction Hl as [|x l Hl IH Hx]; simpl.
  - constructor; assumption.
  - constructor; [apply IH; now inversion Hlp|].
    apply Forall_app. split; [exact Hx|].
    inversion Hlp as [|? ? Hxp Hlp']; subst.
    constructor; [exact Hxp|].
    eapply Forall_impl; [|exact Hpr]. intros y Hy. now apply le_trans with p.
Qed.

(** ** Insertion sort *)

Lemma shift_perm (vi : A) (below : list A) :
  Permutation (vi :: below) (shift LT vi below).
Proof.
  induction below as [|k below IH]; simpl; [apply Permutation_refl|].
  destruct (LT vi k); [|apply Permutation_refl].
  eapply perm_trans; [apply perm_swap | now apply perm_skip].
Qed.

Lemma shift_sorted (vi : A) (below : list A) :
  StronglySorted (fun x y => le LT y x) below ->
  StronglySorted (fun x y => le LT y x) (shift LT vi below).
Proof.
  induction 1 as [|k below Hs IH Hk]; simpl; [repeat constructor|].
  destruct (LT vi k) eqn:E.
  - constructor; [exact IH|].
    eapply Permutation_Forall; [apply shift_perm|].
    constructor; [now apply LT_le | exact Hk].
  - constructor; [now constructor|].
    constructor; [exact E|].
    eapply Forall_impl; [|exact Hk]. intros y Hy. cbv beta in *.
    now apply le_trans with k.
Qed.

Lemma insertion_fold (a : list A) (acc : list A) :
  StronglySorted (fun x y => le LT y x) acc ->
  Permutation (rev a ++ acc) (fold_left (fun below vi => shift LT vi below) a acc)
  /\ StronglySorted (fun x y => le LT y x)
                    (fold_left (fun below vi => shift LT vi below) a acc).
Proof.
  revert acc. induction a as [|x a IH]; intros acc Hacc; simpl.
  - split; [apply Permutation_refl | exact Hacc].
  - destruct (IH (shift LT x acc) (shift_sorted x acc Hacc)) as [P S].
    split; [|exact S].
    eapply perm_trans; [|exact P].
    rewrite <- app_assoc. apply Permutation_app_head. simpl. apply shift_perm.
Qed.

Lemma insertion_sort_spec (a : list A) :
  Permutation a (insertion_sort LT a)
  /\ StronglySorted (le LT) (insertion_sort LT a).
Proof.
  unfold insertion_sort.
  destruct (insertion_fold a [] (SSorted_nil _)) as [P S].
  rewrite app_nil_r in P. split.
  - eapply perm_trans; [apply Permutation_rev|].
    eapply perm_trans; [exact P | apply Permutation_rev].
  - apply (sorted_rev (fun x y => le LT y x)). exact S.
Qed.

(** ** Partition *)

Lemma median3_spec (a : list A) (pm pr : nat) :
  0 < pm -> pm < pr -> pr < length a ->
  let a' := median3 LT d a 0 pm pr in
  Permutation a a' /\ length a' = length a
  /\ le LT (get d a' 0) (get d a' pm) /\ le LT (get d a' pm) (get d a' pr).
Proof.
  intros H0 Hm Hr. unfold median3.
  set (a1 := if LT (get d a pm) (get d a 0) then INTP_SWAP d a pm 0 else a).
  assert (P1 : Permutation a a1 /\ length a1 = length a
               /\ le LT (get d a1 0) (get d a1 pm)).
  { unfold a1. destruct (LT (get d a pm) (get d a 0)) eqn:E.
    - split; [apply swap_perm; lia|]. split; [apply swap_length|].
      rewrite get_swap_r, get_swap_l by lia. now apply LT_le.
    - split; [apply Permutation_refl|]. split; [reflexivity | exact E]. }
  destruct P1 as (P1 & L1 & O1). clearbody a1.
  set (a2 := if LT (get d a1 pr) (get d a1 pm) then INTP_SWAP d a1 pr pm else a1).
  assert (P2 : Permutation a1 a2 /\ length a2 = length a1
               /\ le LT (get d a2 pm) (get d a2 pr)
               /\ le LT (get d a2 0) (get d a2 pr)).
  { unfold a2. destruct (LT (get d a1 pr) (get d a1 pm)) eqn:E.
    - split; [apply swap_perm; lia|]. split; [apply swap_length|].
      rewrite get_swap_r, get_swap_l by lia.
      rewrite get_swap_other by lia. split; [now apply LT_le | exact O1].
    - split; [apply Permutation_refl|]. split; [reflexivity|].
      split; [exact E|]. now apply le_trans with (get d a1 pm). }
  destruct P2 as (P2 & L2 & O2 & O3). clearbody a2.
  destruct (LT (get d a2 pm) (get d a2 0)) eqn:E.
  - split; [eapply perm_trans; [exact P1|];
            eapply perm_trans; [exact P2|]; apply swap_perm; lia|].
    split; [rewrite swap_length; congruence|].
    rewrite get_swap_r, get_swap_l by lia.
    rewrite get_swap_other by lia. split; [now apply LT_le | exact O3].
  - split; [eapply perm_trans; eassumption|]. split; [congruence|].
    split; [exact E | exact O2].
Qed.

Lemma scan_up_spec (a : list A) (vp : A) (fuel pi s : nat) :
  pi < s -> s <= pi + S fuel -> LT (get d a s) vp = false ->
  let pi' := scan_up LT d fuel a vp pi in
  pi < pi' /\ pi' <= s /\ LT (get d a pi') vp = false
  /\ forall k, pi < k -> k < pi' -> LT (get d a k) vp = true.
Proof.
  revert pi. induction fuel as [|fuel IH]; intros pi Hs Hf Hstop; simpl.
  - assert (s = S pi) by lia. subst s.
    repeat split; try lia. exact Hstop.
  - destruct (LT (get d a (S pi)) vp) eqn:E.
    + assert (S pi <> s) by (intros <-; congruence).
      destruct (IH (S pi) ltac:(lia) ltac:(lia) Hstop) as (I1 & I2 & I3 & I4).
      repeat split; try lia; [exact I3|].
      intros k K1 K2. destruct (Nat.eq_dec k (S pi)) as [->|N]; [exact E|].
      apply I4; lia.
    + repeat split; try lia. exact E.
Qed.

Lemma scan_down_spec (a : list A) (vp : A) (pj s : nat) :
  s < pj -> LT vp (get d a s) = false ->
  let pj' := scan_down LT d a vp pj in
  s <= pj' /\ pj' < pj /\ LT vp (get d a pj') = false
  /\ forall k, pj' < k -> k < pj -> LT vp (get d a k) = true.
Proof.
  induction pj as [|pj IH]; intros Hs Hstop; simpl; [lia|].
  destruct (LT vp (get d a pj)) eqn:E.
  - assert (pj <> s) by (intros ->; congruence).
    destruct (IH ltac:(lia) Hstop) as (I1 & I2 & I3 & I4).
    repeat split; try lia; [exact I3|].
    intros k K1 K2. destruct (Nat.eq_dec k pj) as [->|N]; [exact E|].
    apply I4; lia.
  - repeat split; try lia. exact E.
Qed.

Lemma exchange_spec (fuel : nat) :
  forall (a : list A) (vp : A) (pi pj : nat),
    pi < pj -> pj - pi <= S fuel -> S pj < length a ->
    (forall k, k <= pi -> LT vp (get d a k) = false) ->
    (forall k, pj <= k -> k < length a -> LT (get d a k) vp = false) ->
    let (a', pi') := exchange LT d fuel a vp pi pj in
    Permutation a a' /\ length a' = length a
    /\ pi < pi' /\ pi' <= pj
    /\ (forall k, pj <= k -> get d a' k = get d a k)
    /\ (forall k, k < pi' -> LT vp (get d a' k) = false)
    /\ (forall k, pi' <= k -> k < length a -> LT (get d a' k) vp = false).
Proof.
  induction fuel as [|fuel IH]; intros a vp pi pj Hij Hf Hj Hlo Hhi.
  - (* one round is enough *)
    cbn [exchange].
    destruct (scan_up_spec a vp (length a) pi pj Hij ltac:(lia)
                (Hhi pj (Nat.le_refl _) ltac:(lia))) as (U1 & U2 & U3 & U4).
    destruct (scan_down_spec a vp pj pi Hij (Hlo pi (Nat.le_refl _)))
      as (D1 & D2 & D3 & D4).
    set (pi' := scan_up LT d (length a) a vp pi) in *.
    set (pj' := scan_down LT d a vp pj) in *.
    assert (Hc : pj' <= pi') by lia.
    assert (R : Permutation a a /\ length a = length a
      /\ pi < pi' /\ pi' <= pj
      /\ (forall k, pj <= k -> get d a k = get d a k)
      /\ (forall k, k < pi' -> LT vp (get d a k) = false)
      /\ (forall k, pi' <= k -> k < length a -> LT (get d a k) vp = false)).
    { split; [apply Permutation_refl|]. split; [reflexivity|].
      split; [exact U1|]. split; [exact U2|]. split; [reflexivity|]. split.
      - intros k Hk. destruct (Nat.le_gt_cases k pi) as [K|K];
          [now apply Hlo|]. apply LT_asym, U4; lia.
      - intros k K1 K2. destruct (Nat.eq_dec k pi') as [->|N]; [exact U3|].
        destruct (Nat.le_gt_cases pj k) as [K|K]; [now apply Hhi|].
        apply LT_asym, D4; lia. }
    destruct (pj' <=? pi'); exact R.
  - cbn [exchange].
    destruct (scan_up_spec a vp (length a) pi pj Hij ltac:(lia)
                (Hhi pj (Nat.le_refl _) ltac:(lia))) as (U1 & U2 & U3 & U4).
    destruct (scan_down_spec a vp pj pi Hij (Hlo pi (Nat.le_refl _)))
      as (D1 & D2 & D3 & D4).
    set (pi' := scan_up LT d (length a) a vp pi) in *.
    set (pj' := scan_down LT d a vp pj) in *.
    destruct (pj' <=? pi') eqn:Ec.
    + apply Nat.leb_le in Ec.
      split; [apply Permutation_refl|]. split; [reflexivity|].
      split; [exact U1|]. split; [exact U2|]. split; [reflexivity|]. split.
      * intros k Hk. destruct (Nat.le_gt_cases k pi) as [K|K];
          [now apply Hlo|]. apply LT_asym, U4; lia.
      * intros k K1 K2. destruct (Nat.eq_dec k pi') as [->|N]; [exact U3|].
        destruct (Nat.le_gt_cases pj k) as [K|K]; [now apply Hhi|].
        apply LT_asym, D4; lia.
    + apply Nat.leb_gt in Ec.
      set (a1 := INTP_SWAP d a pi' pj').
      assert (L1 : length a1 = length a) by apply swap_length.
      specialize (IH a1 vp pi' pj' Ec ltac:(lia) ltac:(lia)).
      destruct (exchange LT d fuel a1 vp pi' pj') as [a' p'].
      destruct IH as (P & L & I1 & I2 & I3 & I4 & I5).
      * intros k Hk. destruct (Nat.eq_dec k pi') as [->|N].
        -- unfold a1. rewrite get_swap_l by lia. exact D3.
        -- unfold a1. rewrite get_swap_other by lia.
           destruct (Nat.le_gt_cases k pi) as [K|K];
             [now apply Hlo|]. apply LT_asym, U4; lia.
      * intros k K1 K2. rewrite L1 in K2.
        destruct (Nat.eq_dec k pj') as [->|N].
        -- unfold a1. rewrite get_swap_r by lia. exact U3.
        -- unfold a1. rewrite get_swap_other by lia.
           destruct (Nat.le_gt_cases pj k) as [K|K]; [now apply Hhi|].
           apply LT_asym, D4; lia.
      * split; [eapply perm_trans; [|exact P]; apply swap_perm; lia|].
        split; [congruence|]. split; [lia|]. split; [lia|]. split.
        -- intros k Hk. rewrite I3 by lia. unfold a1.
           apply get_swap_other; lia.
        -- split; [exact I4|]. intros k K1 K2. apply I5; [exact K1 | lia].
Qed.

Lemma partition_spec (a : list A) :
  3 <= length a ->
  let (a', pi) := partition LT d a in
  Permutation a a' /\ length a' = length a
  /\ 0 < pi /\ S pi < length a
  /\ (forall k, k < pi -> le LT (get d a' k) (get d a' pi))
  /\ (forall k, pi < k -> k < length a -> le LT (get d a' pi) (get d a' k)).
Proof.
  intro Hn. unfold partition.
  set (pr := length a - 1). set (pm := pr / 2).
  assert (Hpm : 0 < pm /\ pm < pr).
  { unfold pm. assert (2 <= pr) by (unfold pr; lia).
    split; [apply Nat.div_str_pos; lia | apply Nat.div_lt; lia]. }
  destruct (median3_spec a pm pr (proj1 Hpm) (proj2 Hpm) ltac:(unfold pr; lia))
    as (P0 & L0 & O1 & O2).
  set (a0 := median3 LT d a 0 pm pr) in *.
  set (vp := get d a0 pm) in *.
  set (a1 := INTP_SWAP d a0 pm (pr - 1)).
  assert (L1 : length a1 = length a) by (unfold a1; rewrite swap_length; exact L0).
  assert (P1 : Permutation a a1).
  { eapply perm_trans; [exact P0|]. apply swap_perm; unfold pr in *; lia. }
  assert (V : get d a1 (pr - 1) = vp)
    by (unfold a1; apply get_swap_r; unfold pr in *; lia).
  assert (Hlo : forall k, k <= 0 -> LT vp (get d a1 k) = false).
  { intros k Hk. assert (k = 0) by lia. subst k.
    unfold a1. rewrite get_swap_other by (unfold pr in *; lia). exact O1. }
  assert (Hhi : forall k, pr - 1 <= k -> k < length a1 ->
                  LT (get d a1 k) vp = false).
  { intros k K1 K2. rewrite L1 in K2.
    destruct (Nat.eq_dec k (pr - 1)) as [->|N]; [rewrite V; apply LT_irrefl|].
    assert (k = pr) by (unfold pr in *; lia). subst k.
    unfold a1. rewrite get_swap_other by (unfold pr in *; lia). exact O2. }
  rewrite L1.
  pose proof (exchange_spec (length a) a1 vp 0 (pr - 1)
                ltac:(unfold pr; lia) ltac:(unfold pr; lia)
                ltac:(rewrite L1; unfold pr; lia) Hlo Hhi) as X.
  destruct (exchange LT d (length a) a1 vp 0 (pr - 1)) as [a2 pi].
  destruct X as (P2 & L2 & I1 & I2 & I3 & I4 & I5).
  rewrite L1 in *.
  assert (V2 : get d a2 (pr - 1) = vp) by (rewrite I3 by lia; exact V).
  split; [eapply perm_trans; [exact P1|]; eapply perm_trans; [exact P2|];
          apply swap_perm; unfold pr in *; lia|].
  split; [rewrite swap_length; congruence|].
  split; [exact I1|]. split; [unfold pr in *; lia|].
  assert (Epi : get d (INTP_SWAP d a2 pi (pr - 1)) pi = vp).
  { rewrite get_swap_l by (unfold pr in *; lia). exact V2. }
  rewrite Epi. split.
  - intros k Hk. rewrite get_swap_other by (unfold pr in *; lia).
    now apply I4.
  - intros k K1 K2. destruct (Nat.eq_dec k (pr - 1)) as [->|N].
    + rewrite get_swap_r by (unfold pr in *; lia). apply I5; lia.
    + rewrite get_swap_other by lia. apply I5; lia.
Qed.

End Order.

(** *** Heapsort *)

Section Heap.

Context {A : Type} (LT : A -> A -> bool) (d : A).

Hypothesis LT_irrefl : forall x, LT x x = false.
Hypothesis LT_asym : forall x y, LT x y = true -> LT y x = false.
Hypothesis le_trans : forall x y z, le LT x y -> le LT y z -> le LT x z.

Lemma at1_S (a : list A) (i : nat) : at1 d a (S i) = get d a i.
Proof. unfold at1. f_equal. lia. Qed.

Lemma at1_swap_l (b : list A) (i j : nat) :
  1 <= i -> i <= length b -> 1 <= j -> j <= length b ->
  at1 d (INTP_SWAP d b (i - 1) (j - 1)) i = at1 d b j.
Proof. intros. unfold at1. apply get_swap_l; lia. Qed.

Lemma at1_swap_r (b : list A) (i j : nat) :
  1 <= j -> j <= length b ->
  at1 d (INTP_SWAP d b (i - 1) (j - 1)) j = at1 d b i.
Proof. intros. unfold at1. apply get_swap_r; lia. Qed.

Lemma at1_swap_other (b : list A) (i j k : nat) :
  1 <= i -> 1 <= j -> 1 <= k -> k <> i -> k <> j ->
  at1 d (INTP_SWAP d b (i - 1) (j - 1)) k = at1 d b k.
Proof. intros. unfold at1. apply get_swap_other; lia. Qed.

Lemma sift_swap_spec (l n : nat) (fuel : nat) :
  forall (b : list A) (i : nat),
    1 <= l -> l <= i -> n <= length b -> n < i + fuel ->
    (forall k, l <= k -> k <> i -> dominates LT d b n k) ->
    (forall c, l <= i / 2 -> c = 2 * i \/ c = 2 * i + 1 -> c <= n ->
               le LT (at1 d b c) (at1 d b (i / 2))) ->
    let b' := sift_swap LT d fuel b i n in
    heap_from LT d b' l n
    /\ Permutation b b' /\ length b' = length b
    /\ (forall k, n < k -> at1 d b' k = at1 d b k)
    /\ (forall P : A -> Prop,
          (forall k, 1 <= k -> k <= n -> P (at1 d b k)) ->
          forall k, 1 <= k -> k <= n -> P (at1 d b' k)).
Proof.
  induction fuel as [|fuel IH]; intros b i Hl Hi Hn Hf Hex Hgp.
  - cbn [sift_swap]. split; [|repeat split; auto].
    intros k Hk. destruct (Nat.eq_dec k i) as [->|N]; [|now apply Hex].
    intros c Hc Hcn. lia.
  - cbn [sift_swap]. cbv zeta.
    destruct (2 * i <=? n) eqn:E2.
    2:{ apply Nat.leb_gt in E2. split; [|repeat split; auto].
        intros k Hk. destruct (Nat.eq_dec k i) as [->|N]; [|now apply Hex].
        intros c Hc Hcn. lia. }
    apply Nat.leb_le in E2.
    set (j := if (2 * i <? n) && LT (at1 d b (2 * i)) (at1 d b (2 * i + 1))
              then 2 * i + 1 else 2 * i).
    assert (Hj : (j = 2 * i \/ j = 2 * i + 1) /\ j <= n
                 /\ forall c, c = 2 * i \/ c = 2 * i + 1 -> c <= n ->
                              le LT (at1 d b c) (at1 d b j)).
    { unfold j. destruct (2 * i <? n) eqn:E3; cbn [andb].
      - apply Nat.ltb_lt in E3.
        destruct (LT (at1 d b (2 * i)) (at1 d b (2 * i + 1))) eqn:E4.
        + split; [now right|]. split; [lia|].
          intros c [-> | ->] _; [now apply LT_asym | apply LT_irrefl].
        + split; [now left|]. split; [lia|].
          intros c [-> | ->] _; [apply LT_irrefl | exact E4].
      - apply Nat.ltb_ge in E3. split; [now left|]. split; [lia|].
        intros c [-> | ->] Hc; [apply LT_irrefl | lia]. }
    clearbody j. destruct Hj as (Hj & Hjn & Hbig).
    assert (Hij : i < j) by lia.
    destruct (LT (at1 d b i) (at1 d b j)) eqn:E5.
    + set (b1 := INTP_SWAP d b (i - 1) (j - 1)).
      assert (L1 : length b1 = length b) by apply swap_length.
      assert (Gi : at1 d b1 i = at1 d b j)
        by (apply at1_swap_l; lia).
      assert (Gj : at1 d b1 j = at1 d b i)
        by (apply at1_swap_r; lia).
      assert (Go : forall k, 1 <= k -> k <> i -> k <> j ->
                     at1 d b1 k = at1 d b k)
        by (intros; apply at1_swap_other; lia).
      assert (Hdiv : j / 2 = i).
      { destruct Hj as [-> | ->].
        - rewrite Nat.mul_comm. apply Nat.div_mul. lia.
        - rewrite Nat.mul_comm, Nat.add_comm.
          symmetry. apply (Nat.div_unique (1 + i * 2) 2 i 1); lia. }
      destruct (IH b1 j Hl ltac:(lia) ltac:(lia) ltac:(lia))
        as (H1 & H2 & H3 & H4 & H5).
      * intros k Hk Nk.
        destruct (Nat.eq_dec k i) as [->|Ni].
        -- intros c Hc Hcn. rewrite Gi.
           destruct (Nat.eq_dec c j) as [->|Nc].
           ++ rewrite Gj. now apply LT_asym.
           ++ rewrite Go by lia. now apply Hbig.
        -- intros c Hc Hcn. rewrite (Go k) by lia.
           assert (c <> j) by lia.
           destruct (Nat.eq_dec c i) as [->|Nc].
           ++ rewrite Gi.
              assert (Ek : i / 2 = k).
              { destruct Hc as [-> | ->].
                - rewrite Nat.mul_comm. apply Nat.div_mul. lia.
                - rewrite Nat.mul_comm, Nat.add_comm.
                  symmetry. apply (Nat.div_unique (1 + k * 2) 2 k 1); lia. }
              rewrite <- Ek. apply Hgp; [lia | exact Hj | exact Hjn].
           ++ rewrite Go by lia. now apply (Hex k Hk Ni).
      * intros c Hp Hc Hcn. rewrite Hdiv, Gi.
        rewrite Go by lia. apply (Hex j ltac:(lia) ltac:(lia)); assumption.
      * split; [exact H1|]. split.
        { eapply perm_trans; [|exact H2]. apply swap_perm; lia. }
        split; [congruence|]. split.
        { intros k Hk. rewrite H4 by exact Hk. apply Go; lia. }
        intros P HP. apply H5. intros k K1 K2.
        destruct (Nat.eq_dec k i) as [->|Ni]; [rewrite Gi; apply HP; lia|].
        destruct (Nat.eq_dec k j) as [->|Nj]; [rewrite Gj; apply HP; lia|].
        rewrite Go by lia. now apply HP.
    + split; [|repeat split; auto].
      intros k Hk. destruct (Nat.eq_dec k i) as [->|N]; [|now apply Hex].
      intros c Hc Hcn. apply le_trans with (at1 d b j); [now apply Hbig|].
      exact E5.
Qed.

Lemma sift_as_swap (n : nat) (fuel : nat) :
  forall (a : list A) (tmp : A) (i : nat),
    1 <= i -> i <= length a -> n <= length a ->
    sift LT d fuel a tmp i n = sift_swap LT d fuel (put1 a i tmp) i n.
Proof.
  induction fuel as [|fuel IH]; intros a tmp i Hi Hl Hn; [reflexivity|].
  cbn [sift sift_swap]. cbv zeta.
  destruct (2 * i <=? n) eqn:E2; [|reflexivity].
  apply Nat.leb_le in E2.
  assert (Ga : forall k, 1 <= k -> k <> i ->
                 at1 d (put1 a i tmp) k = at1 d a k).
  { intros k K1 K2. unfold at1, put1. apply get_upd_ne. lia. }
  assert (Gi : at1 d (put1 a i tmp) i = tmp).
  { unfold at1, put1. apply get_upd_eq. lia. }
  rewrite (Ga (2 * i)), (Ga (2 * i + 1)) by lia.
  set (j := if (2 * i <? n) && LT (at1 d a (2 * i)) (at1 d a (2 * i + 1))
            then 2 * i + 1 else 2 * i).
  assert (Hj : i < j /\ j <= n).
  { unfold j. destruct (2 * i <? n) eqn:E3; cbn [andb].
    - apply Nat.ltb_lt in E3.
      destruct (LT (at1 d a (2 * i)) (at1 d a (2 * i + 1))); lia.
    - lia. }
  clearbody j. rewrite Gi, (Ga j) by lia.
  destruct (LT tmp (at1 d a j)); [|reflexivity].
  rewrite IH by (unfold put1; rewrite ?upd_length; lia).
  f_equal. unfold INTP_SWAP, put1.
  fold (at1 d (upd a (i - 1) tmp) j). fold (at1 d (upd a (i - 1) tmp) i).
  fold (put1 a i tmp). rewrite Gi, (Ga j) by lia. unfold put1.
  now rewrite upd_twice.
Qed.

Lemma heap_root (b : list A) (n : nat) :
  heap_from LT d b 1 n ->
  forall k, 1 <= k -> k <= n -> le LT (at1 d b k) (at1 d b 1).
Proof.
  intros H k. induction k as [k IH] using lt_wf_ind. intros K1 K2.
  destruct (Nat.eq_dec k 1) as [->|N]; [apply LT_irrefl|].
  assert (Hp : 1 <= k / 2 /\ k / 2 < k
               /\ (k = 2 * (k / 2) \/ k = 2 * (k / 2) + 1)).
  { pose proof (Nat.div_mod_eq k 2) as E.
    pose proof (Nat.mod_upper_bound k 2 ltac:(lia)) as M.
    assert (1 <= k / 2) by (apply Nat.div_str_pos; lia). lia. }
  destruct Hp as (P1 & P2 & P3).
  apply le_trans with (at1 d b (k / 2)).
  - apply (H (k / 2) P1 k P3 K2).
  - apply IH; lia.
Qed.

Lemma build_spec (n : nat) (l : nat) :
  forall a : list A,
    n <= length a -> l <= n ->
    heap_from LT d a (S l) n ->
    let a' := build LT d l a n in
    heap_from LT d a' 1 n /\ Permutation a a' /\ length a' = length a
    /\ (forall k, n < k -> at1 d a' k = at1 d a k).
Proof.
  induction l as [|l IH]; intros a Hn Hl Hheap.
  - cbn [build]. split; [exact Hheap|]. split; [apply Permutation_refl|].
    split; [reflexivity|]. intros; reflexivity.
  - cbn [build].
    rewrite sift_as_swap by lia.
    assert (E : put1 a (S l) (at1 d a (S l)) = a) by apply upd_same.
    rewrite E.
    destruct (sift_swap_spec (S l) n n a (S l) ltac:(lia) ltac:(lia) Hn
                ltac:(lia)) as (H1 & H2 & H3 & H4 & _).
    + intros k K1 K2. apply Hheap. lia.
    + intros c Hp. assert (S l / 2 < S l) by (apply Nat.div_lt; lia). lia.
    + destruct (IH (sift_swap LT d n a (S l) n) ltac:(lia) ltac:(lia) H1)
        as (I1 & I2 & I3 & I4).
      split; [exact I1|]. split; [eapply perm_trans; eassumption|].
      split; [congruence|]. intros k Hk. rewrite I4 by exact Hk. now apply H4.
Qed.

Lemma extract_spec (N : nat) (n : nat) :
  forall a : list A,
    length a = N -> n <= N ->
    heap_from LT d a 1 n ->
    (forall k k', n < k -> k <= k' -> k' <= N ->
                  le LT (at1 d a k) (at1 d a k')) ->
    (forall k k', 1 <= k -> k <= n -> n < k' -> k' <= N ->
                  le LT (at1 d a k) (at1 d a k')) ->
    let a' := extract LT d n a in
    Permutation a a' /\ StronglySorted (le LT) a'.
Proof.
  induction n as [|n IH]; intros a HN Hn Hheap Hsuf Hcut.
  - cbn [extract]. split; [apply Permutation_refl|].
    apply (sorted_index LT d). intros i j Hij Hj. rewrite <- !at1_S.
    apply (Hsuf (S i) (S j)); lia.
  - cbn [extract]. destruct (1 <? S n) eqn:E1.
    2:{ apply Nat.ltb_ge in E1. assert (n = 0) by lia. subst n.
        split; [apply Permutation_refl|].
        apply (sorted_index LT d). intros i j Hij Hj. rewrite <- !at1_S.
        destruct i as [|i].
        - apply (Hcut 1 (S j)); lia.
        - apply (Hsuf (S (S i)) (S j)); lia. }
    apply Nat.ltb_lt in E1. cbv zeta.
    rewrite sift_as_swap by (unfold put1; rewrite ?upd_length; lia).
    assert (Esw : put1 (put1 a (S n) (at1 d a 1)) 1 (at1 d a (S n))
                  = INTP_SWAP d a (S n - 1) (1 - 1)).
    { reflexivity. }
    rewrite Esw.
    set (b := INTP_SWAP d a (S n - 1) (1 - 1)).
    assert (Lb : length b = N) by (unfold b; rewrite swap_length; exact HN).
    assert (Gn : at1 d b (S n) = at1 d a 1)
      by (apply at1_swap_l; lia).
    assert (G1 : at1 d b 1 = at1 d a (S n))
      by (apply at1_swap_r; lia).
    assert (Go : forall k, 1 <= k -> k <> S n -> k <> 1 ->
                   at1 d b k = at1 d a k)
      by (intros; apply at1_swap_other; lia).
    pose proof (heap_root a (S n) Hheap) as Hroot.
    destruct (sift_swap_spec 1 n n b 1 ltac:(lia) ltac:(lia) ltac:(lia)
                ltac:(lia)) as (H1 & H2 & H3 & H4 & H5).
    + intros k K1 K2 c Hc Hcn. rewrite !Go by lia.
      apply (Hheap k K1 c Hc). lia.
    + intros c Hp. cbn in Hp. lia.
    + set (b' := sift_swap LT d n b 1 n) in *.
      destruct (IH b' ltac:(lia) ltac:(lia) H1) as (I1 & I2).
      * intros k k' K1 K2 K3. rewrite !H4 by lia.
        destruct (Nat.eq_dec k (S n)) as [->|Nk].
        -- rewrite Gn. destruct (Nat.eq_dec k' (S n)) as [->|Nk'].
           ++ rewrite Gn. apply LT_irrefl.
           ++ rewrite Go by lia. apply (Hcut 1 k'); lia.
        -- rewrite !Go by lia. apply Hsuf; lia.
      * intros k k' K1 K2 K3 K4. rewrite (H4 k') by lia.
        revert k K1 K2.
        apply (H5 (fun x => le LT x (at1 d b k'))).
        intros k K1 K2.
        assert (Hk : le LT (at1 d b k) (at1 d a 1)).
        { destruct (Nat.eq_dec k 1) as [->|N1].
          - rewrite G1. apply Hroot; lia.
          - rewrite Go by lia. apply Hroot; lia. }
        destruct (Nat.eq_dec k' (S n)) as [->|Nk'].
        -- rewrite Gn. exact Hk.
        -- rewrite (Go k') by lia.
           apply le_trans with (at1 d a 1); [exact Hk|].
           apply (Hcut 1 k'); lia.
      * split; [|exact I2].
        eapply perm_trans; [|exact I1].
        eapply perm_trans; [|exact H2]. apply swap_perm; lia.
Qed.

Lemma aheapsort_spec (a : list A) :
  Permutation a (aheapsort LT d a)
  /\ StronglySorted (le LT) (aheapsort LT d a).
Proof.
  unfold aheapsort.
  set (n := length a).
  destruct (build_spec n (n / 2) a (Nat.le_refl _)) as (B1 & B2 & B3 & _).
  - destruct (Nat.eq_dec n 0) as [->|N]; [reflexivity|].
    apply Nat.lt_le_incl, Nat.div_lt; lia.
  - intros k Hk c Hc Hcn.
    pose proof (Nat.div_mod_eq n 2) as E.
    pose proof (Nat.mod_upper_bound n 2 ltac:(lia)) as M. lia.
  - destruct (extract_spec n n (build LT d (n / 2) a n) B3 (Nat.le_refl _) B1)
      as (E1 & E2).
    + intros k k' K1 K2 K3. lia.
    + intros k k' K1 K2 K3 K4. lia.
    + split; [eapply perm_trans; eassumption | exact E2].
Qed.

End Heap.

(** *** The main loop *)

Section Quick.

Context {A : Type} (LT : A -> A -> bool) (d : A).

Hypothesis LT_irrefl : forall x, LT x x = false.
Hypothesis LT_asym : forall x y, LT x y = true -> LT y x = false.
Hypothesis le_trans : forall x y z, le LT x y -> le LT y z -> le LT x z.

Lemma sort_segment_spec (fuel : nat) :
  forall (popped : bool) (cdepth : Z) (a : list A),
    length a <= fuel ->
    Permutation a (sort_segment LT d fuel popped cdepth a)
    /\ StronglySorted (le LT) (sort_segment LT d fuel popped cdepth a).
Proof.
  induction fuel as [|fuel IH]; intros popped cdepth a Hlen.
  - destruct a; [|simpl in Hlen; lia]. simpl.
    split; constructor.
  - cbn [sort_segment].
    destruct (popped && (cdepth <? 0)%Z);
      [apply aheapsort_spec; assumption|].
    destruct (SMALL_QUICKSORT <? length a - 1) eqn:E;
      [|apply insertion_sort_spec; assumption].
    apply Nat.ltb_lt in E. unfold SMALL_QUICKSORT in E.
    pose proof (partition_spec LT d LT_irrefl LT_asym le_trans a ltac:(lia))
      as X.
    destruct (partition LT d a) as [a' pi].
    destruct X as (P & L & I1 & I2 & Hlo & Hhi).
    set (l := firstn pi a'). set (r := skipn (S pi) a').
    assert (Ll : length l = pi) by (unfold l; rewrite length_firstn; lia).
    assert (Lr : length r = length a - S pi)
      by (unfold r; rewrite length_skipn; lia).
    destruct (IH (negb (pi <? length a - 1 - pi)) (cdepth - 1)%Z l ltac:(lia))
      as [Pl Sl].
    destruct (IH (pi <? length a - 1 - pi) (cdepth - 1)%Z r ltac:(lia))
      as [Pr Sr].
    split.
    + eapply perm_trans; [exact P|].
      rewrite (split_at d a' pi) at 1 by lia. fold l r.
      apply Permutation_app; [exact Pl|]. now apply perm_skip.
    + apply (sorted_app LT le_trans); [exact Sl | exact Sr | |].
      * eapply Permutation_Forall; [exact Pl|].
        apply Forall_forall. intros x Hx.
        destruct (In_get d l x Hx) as (k & Hk & <-).
        unfold l. rewrite get_firstn by lia. apply Hlo. lia.
      * eapply Permutation_Forall; [exact Pr|].
        apply Forall_forall. intros x Hx.
        destruct (In_get d r x Hx) as (k & Hk & <-).
        unfold r. rewrite get_skipn. apply Hhi; lia.
Qed.

Lemma aquicksort_spec (a : list A) :
  Permutation a (aquicksort LT d a)
  /\ StronglySorted (le LT) (aquicksort LT d a).
Proof. apply sort_segment_spec. apply Nat.le_refl. Qed.

Lemma sort_segment_small (fuel : nat) (popped : bool) (cdepth : Z)
      (a : list A) :
  0 < fuel -> (0 <= cdepth)%Z -> length a <= S SMALL_QUICKSORT ->
  sort_segment LT d fuel popped cdepth a = insertion_sort LT a.
Proof.
  intros Hf Hc H. destruct fuel as [|fuel]; [lia|]. cbn [sort_segment].
  assert (E1 : (cdepth <? 0)%Z = false) by (apply Z.ltb_ge; exact Hc).
  rewrite E1, andb_false_r.
  assert (E2 : (SMALL_QUICKSORT <? length a - 1) = false)
    by (apply Nat.ltb_ge; lia).
  now rewrite E2.
Qed.

Lemma aquicksort_small (a : list A) :
  length a <= S SMALL_QUICKSORT -> aquicksort LT d a = insertion_sort LT a.
Proof.
  intro H. destruct a as [|x a]; [reflexivity|].
  unfold aquicksort. apply sort_segment_small.
  - simpl. lia.
  - unfold npy_get_msb. lia.
  - exact H.
Qed.

End Quick.

End NpysortFacts.


Import NumpyFacts.

(** ** Boolean tests on rationals *)

Lemma Qeq_bool_false (a b : Q) : Qeq_bool a b = false <-> ~ a == b.
Proof.
  split.
  - intros H E. apply Qeq_bool_iff in E. congruence.
  - intro H. destruct (Qeq_bool a b) eqn:E; [|reflexivity].
    apply Qeq_bool_iff in E. contradiction.
Qed.

Lemma Qle_bool_false (a b : Q) : Qle_bool a b = false <-> (b < a)%Q.
Proof.
  split.
  - intro H. apply Qnot_le_lt. intro Hle. apply Qle_bool_iff in Hle. congruence.
  - intro H. destruct (Qle_bool a b) eqn:E; [|reflexivity].
    apply Qle_bool_iff in E. apply Qlt_not_le in H. contradiction.
Qed.

(** ** Time deltas *)

Lemma diff_dropna_length (x : list Z) :
  length (diff_dropna x) = (length x - 1)%nat.
Proof.
  induction x as [|a [|b tl] IH]; try reflexivity.
  change (diff_dropna (a :: b :: tl)) with ((b - a) :: diff_dropna (b :: tl)).
  simpl length in *. lia.
Qed.

Lemma diff_dropna_nth (x : list Z) (i : nat) :
  (i + 1 < length x)%nat ->
  nth i (diff_dropna x) 0 = nth (i + 1) x 0 - nth i x 0.
Proof.
  revert i. induction x as [|a [|b tl] IH]; intros i Hi; simpl length in *; try lia.
  change (diff_dropna (a :: b :: tl)) with ((b - a) :: diff_dropna (b :: tl)).
  destruct i as [|i]; [reflexivity|].
  change (nth (S i) ((b - a) :: diff_dropna (b :: tl)) 0)
    with (nth i (diff_dropna (b :: tl)) 0).
  rewrite IH by (simpl length; lia). reflexivity.
Qed.

Lemma ConnDiv_nth (x : list Z) :
  x <> [] -> ConnDiv x = nth (length x - 1) x 0 - nth 0 x 0.
Proof.
  intro Hx. unfold ConnDiv. f_equal.
  - destruct (exists_last Hx) as (l & a & ->).
    rewrite last_last, length_app. simpl length.
    rewrite app_nth2 by lia.
    replace (length l + 1 - 1 - length l)%nat with 0%nat by lia. reflexivity.
  - destruct x; [congruence | reflexivity].
Qed.

Lemma seconds_nonempty (x : list Z) : x <> [] -> seconds x <> [].
Proof. destruct x; [congruence | discriminate]. Qed.

Lemma Deltas_nonempty (c : Conversation) : 1 < c_count c -> Deltas c <> [].
Proof.
  unfold c_count, Deltas. intros H E.
  apply (f_equal (@length Z)) in E. rewrite diff_dropna_length in E.
  simpl in E. lia.
Qed.

(** ** Skewness *)

Section SkewFacts.

Local Open Scope Q_scope.

Lemma percentiles_ordered (x : list Z) :
  x <> [] -> Low x <= Mid x /\ Mid x <= High x.
Proof.
  intro Hx. apply seconds_nonempty in Hx.
  split; apply percentile_mono; auto; lia.
Qed.

Lemma bowley_bound (low mid high : Q) :
  low <= mid -> mid <= high -> low < high ->
  -1 <= (low + high - 2 * mid) / (high - low)
  /\ (low + high - 2 * mid) / (high - low) <= 1.
Proof.
  intros H1 H2 H3. split.
  - apply Qle_shift_div_l; lra.
  - apply Qle_shift_div_r; lra.
Qed.

(** The division of line 99 is only reached with a non-zero divisor. *)
Lemma Skew_divisor_nonzero (x : list Z) :
  x <> [] ->
  negb (Qeq_bool (BowleyNum x) 0)
  && negb (Qeq_bool (Mid x) (Low x))
  && negb (Qeq_bool (Mid x) (High x)) = true ->
  ~ BowleyDen x == 0.
Proof.
  intros Hx G. destruct (percentiles_ordered x Hx) as [H1 H2].
  apply andb_prop in G as [G G3]. apply andb_prop in G as [_ G2].
  apply negb_true_iff, Qeq_bool_false in G2.
  unfold BowleyDen. intro E. apply G2. lra.
Qed.

Lemma Skew_bounds (x : list Z) : x <> [] -> -1 <= Skew x /\ Skew x <= 1.
Proof.
  intros Hx. destruct (percentiles_ordered x Hx) as [H1 H2].
  unfold Skew.
  destruct (negb (Qeq_bool (BowleyNum x) 0)
            && negb (Qeq_bool (Mid x) (Low x))
            && negb (Qeq_bool (Mid x) (High x))) eqn:G; [|split; lra].
  apply andb_prop in G as [G G3]. apply andb_prop in G as [_ G2].
  apply negb_true_iff, Qeq_bool_false in G2.
  unfold BowleyNum, BowleyDen. apply bowley_bound; auto.
  apply Qnot_le_lt. intro Hle. apply G2. lra.
Qed.

Lemma SkewScore_bounds (c : Conversation) :
  (1 < c_count c)%Z -> 0 <= SkewScore c /\ SkewScore c <= 1.
Proof.
  intro Hc. unfold SkewScore.
  destruct (Skew_bounds (Deltas c) (Deltas_nonempty c Hc)) as [Hl Hu].
  pose proof (Qabs_nonneg (Skew (Deltas c))).
  assert (Qabs (Skew (Deltas c)) <= 1) by (apply Qabs_Qle_condition; split; lra).
  split; lra.
Qed.

End SkewFacts.

(** ** Dispersion *)

Section DispersionFacts.

Local Open Scope Q_scope.

Lemma Madm_nonneg (x : list Z) : x <> [] -> 0 <= Madm x.
Proof.
  intro Hx. unfold Madm. apply median_nonneg.
  - apply seconds_nonempty in Hx. destruct (seconds x); [congruence | discriminate].
  - apply Forall_forall. intros q Hq. apply in_map_iff in Hq as (y & <- & _).
    apply Qabs_nonneg.
Qed.

Lemma dispersion_cases (m : Q) :
  (1 - m / 30 < 0 /\ dispersion m = 0)
  \/ (0 <= 1 - m / 30 /\ dispersion m = 1 - m / 30).
Proof.
  unfold dispersion; cbv zeta.
  destruct (Qle_bool 0 (1 - m / 30)) eqn:E; simpl.
  - right. apply Qle_bool_iff in E. auto.
  - left. apply Qle_bool_false in E. auto.
Qed.

Lemma div30 (m : Q) : m / 30 == m * (1 # 30).
Proof. reflexivity. Qed.

Lemma dispersion_bounds (m : Q) :
  0 <= m -> 0 <= dispersion m /\ dispersion m <= 1.
Proof.
  intro Hm. pose proof (div30 m) as D.
  destruct (dispersion_cases m) as [[H ->] | [H ->]]; split; lra.
Qed.

End DispersionFacts.

(** ** Rate and composite score *)

Section RateFacts.

Local Open Scope Q_scope.

Lemma inject_Z_nonzero (z : Z) : z <> 0%Z -> Qeq_bool (inject_Z z) 0 = false.
Proof.
  intro H. apply Qeq_bool_false. intro E.
  change 0 with (inject_Z 0) in E. rewrite inject_Z_injective in E.
  contradiction.
Qed.

Lemma inject_Z_pos (z : Z) : (0 < z)%Z -> 0 < inject_Z z.
Proof. intro H. change 0 with (inject_Z 0). now rewrite <- Zlt_Qlt. Qed.

Lemma inject_Z_neg (z : Z) : (z < 0)%Z -> inject_Z z < 0.
Proof. intro H. change 0 with (inject_Z 0). now rewrite <- Zlt_Qlt. Qed.

Lemma rate_nonzero_span (count span : Z) :
  span <> 0%Z ->
  let x := inject_Z (10 * count) / inject_Z span in
  (1 < x /\ rate count span = Fin 1) \/ (x <= 1 /\ rate count span = Fin x).
Proof.
  intros Hs x. unfold rate, Float.div; cbv zeta.
  rewrite (inject_Z_nonzero span Hs). fold x. unfold gtb.
  destruct (Qle_bool x 1) eqn:E; simpl.
  - right. apply Qle_bool_iff in E. auto.
  - left. apply Qle_bool_false in E. auto.
Qed.

(** A zero span: the quotient is +inf, which the cap turns into 1.0. *)
Lemma rate_zero_span (count : Z) : (0 < count)%Z -> rate count 0 = Fin 1.
Proof.
  intro Hc. unfold rate, Float.div; cbv zeta.
  change (Qeq_bool (inject_Z 0) 0) with true. cbv iota.
  assert (E : Qle_bool (inject_Z (10 * count)) 0 = false).
  { apply Qle_bool_false, inject_Z_pos. lia. }
  rewrite E. reflexivity.
Qed.

Lemma quotient_sign (a b : Z) :
  (0 < a)%Z ->
  ((0 < b)%Z -> 0 < inject_Z a / inject_Z b)
  /\ ((b < 0)%Z -> inject_Z a / inject_Z b < 0).
Proof.
  intro Ha.
  assert (HA : 0 < inject_Z a) by now apply inject_Z_pos.
  split; intro Hb.
  - apply Qlt_shift_div_l; [now apply inject_Z_pos | lra].
  - assert (HB : 0 < - inject_Z b) by (apply inject_Z_neg in Hb; lra).
    assert (E : inject_Z a / inject_Z b == - (inject_Z a / - inject_Z b)).
    { field. intro E0. rewrite E0 in HB. lra. }
    rewrite E.
    assert (0 < inject_Z a / - inject_Z b)
      by (apply Qlt_shift_div_l; [exact HB | lra]).
    lra.
Qed.

Lemma Score_of_rate (c : Conversation) (q : Q) :
  ConnCountScore c = Fin q ->
  exists s, Score c = Fin s /\ s == (SkewScore c + MadmScore c + q) / 3.
Proof.
  intro H. unfold Score. rewrite H. simpl.
  eexists; split; [reflexivity|]. field.
Qed.

Lemma third_bounds (a b q : Q) :
  0 <= a <= 1 -> 0 <= b <= 1 -> 0 <= q <= 1 ->
  0 <= (a + b + q) / 3 /\ (a + b + q) / 3 <= 1.
Proof.
  intros Ha Hb Hq. split.
  - apply Qle_shift_div_l; lra.
  - apply Qle_shift_div_r; lra.
Qed.

(** The composite score is the mean of the three sub-scores and lies in
    [0, 1] as soon as the conversation has two observations and its span is
    not negative. *)
Lemma Score_bounds (c : Conversation) :
  (1 < c_count c)%Z -> (0 <= ConnDiv (c_time c))%Z ->
  exists q s,
    ConnCountScore c = Fin q /\ Score c = Fin s
    /\ s == (SkewScore c + MadmScore c + q) / 3
    /\ 0 <= s /\ s <= 1.
Proof.
  intros Hc Hspan.
  assert (HR : exists q, ConnCountScore c = Fin q /\ 0 <= q <= 1).
  { unfold ConnCountScore.
    destruct (Z.eq_dec (ConnDiv (c_time c)) 0) as [E|NE].
    - rewrite E, rate_zero_span by lia. exists 1. split; [reflexivity | lra].
    - destruct (quotient_sign (10 * c_count c) (ConnDiv (c_time c))
                  ltac:(lia)) as [Hpos _].
      specialize (Hpos ltac:(lia)).
      destruct (rate_nonzero_span (c_count c) _ NE) as [[H ->] | [H ->]];
        eexists; (split; [reflexivity | lra]). }
  destruct HR as (q & HR & Hq).
  destruct (Score_of_rate c q HR) as (s & Hs & Es).
  exists q, s. split; [exact HR|]. split; [exact Hs|]. split; [exact Es|].
  rewrite Es. apply third_bounds; auto.
  - apply SkewScore_bounds; assumption.
  - apply dispersion_bounds, Madm_nonneg, Deltas_nonempty; assumption.
Qed.

End RateFacts.

(** ** Sorting by score *)

Section SortFacts.



Lemma insert_by_score_perm (c : Conversation) (l : list Conversation) :
  Permutation (c :: l) (insert_by_score c l).
Proof.
  induction l as [|y l IH]; simpl; [apply Permutation_refl|].
  destruct (geb (Score c) (Score y)); [apply Permutation_refl|].
  eapply perm_trans; [apply perm_swap | now apply perm_skip].
Qed.

Lemma stable_sort_perm (df : list Conversation) :
  Permutation df (stable_sort df).
Proof.
  induction df as [|c df IH]; simpl; [constructor|].
  eapply perm_trans; [apply perm_skip, IH | apply insert_by_score_perm].
Qed.



Lemma sort_values_keeps (df out : list Conversation) (c : Conversation) :
  sort_values df out -> (In c df <-> In c out).
Proof.
  intros [Hp _]. split; intro H.
  - eapply Permutation_in; eauto.
  - eapply Permutation_in; [apply Permutation_sym|]; eauto.
Qed.


(** The order numpy sorts by is a strict weak order on the values of a
    float column, and on numbers it is the negation of [>=]. *)
Lemma DOUBLE_LT_irrefl (x : xfloat) : DOUBLE_LT x x = false.
Proof.
  destruct x as [a| | |]; try reflexivity.
  unfold DOUBLE_LT, ltb, isnan. cbn [andb orb negb].
  rewrite orb_false_r. apply negb_false_iff, Qle_bool_iff, Qle_refl.
Qed.

Lemma DOUBLE_LT_asym (x y : xfloat) :
  DOUBLE_LT x y = true -> DOUBLE_LT y x = false.
Proof.
  destruct x as [a| | |], y as [b| | |]; try reflexivity; try discriminate.
  unfold DOUBLE_LT, ltb, isnan. cbn [andb orb negb]. rewrite !orb_false_r.
  rewrite negb_true_iff, negb_false_iff. intro H.
  apply Qle_bool_false in H. apply Qle_bool_iff. now apply Qlt_le_weak.
Qed.

Lemma DOUBLE_LT_le_trans (x y z : xfloat) :
  DOUBLE_LT y x = false -> DOUBLE_LT z y = false -> DOUBLE_LT z x = false.
Proof.
  destruct x as [a| | |], y as [b| | |], z as [c| | |];
    try reflexivity; try discriminate.
  unfold DOUBLE_LT, ltb, isnan. cbn [andb orb negb]. rewrite !orb_false_r.
  rewrite !negb_false_iff, !Qle_bool_iff. intros H1 H2.
  now apply Qle_trans with b.
Qed.

Lemma DOUBLE_LT_geb (x y : xfloat) :
  isnan x = false -> isnan y = false -> DOUBLE_LT x y = negb (geb x y).
Proof.
  destruct x as [a| | |], y as [b| | |]; try reflexivity; try discriminate.
  intros _ _. unfold DOUBLE_LT, ltb, isnan, geb. cbn [andb orb negb].
  apply orb_false_r.
Qed.

Lemma before_irrefl (x : Conversation) : before x x = false.
Proof. apply DOUBLE_LT_irrefl. Qed.

Lemma before_asym (x y : Conversation) :
  before x y = true -> before y x = false.
Proof. apply DOUBLE_LT_asym. Qed.

Lemma before_le_trans (x y z : Conversation) :
  Npysort.le before x y -> Npysort.le before y z -> Npysort.le before x z.
Proof. unfold Npysort.le, before. apply DOUBLE_LT_le_trans. Qed.

Lemma filter_split (A : Type) (f : A -> bool) (l : list A) :
  Permutation l (filter (fun x => negb (f x)) l ++ filter f l).
Proof.
  induction l as [|x l IH]; [constructor|]. cbn [filter].
  destruct (f x); cbn [negb app].
  - now apply Permutation_cons_app.
  - now apply perm_skip.
Qed.

Lemma sorted_weaken (A : Type) (R R' : A -> A -> Prop) (P : A -> Prop)
      (l : list A) :
  (forall x y, P x -> P y -> R x y -> R' x y) ->
  Forall P l -> StronglySorted R l -> StronglySorted R' l.
Proof.
  intros HR HP Hs. induction Hs as [|x l Hl IH Hx]; [constructor|].
  inversion HP as [|? ? Px Pl]; subst.
  constructor; [now apply IH|].
  rewrite Forall_forall in *. intros y Hy. apply HR; auto.
Qed.

Lemma sorted_before_nan (l nans : list Conversation) :
  StronglySorted score_ge l ->
  Forall (fun c => isnan (Score c) = true) nans ->
  StronglySorted score_ge (l ++ nans).
Proof.
  intros Hl Hn.
  assert (Hge : forall x y, isnan (Score y) = true -> score_ge x y).
  { intros x y Hy. unfold score_ge.
    destruct (Score y); try discriminate. now destruct (Score x). }
  induction Hl as [|x l Hl IH Hx]; cbn [app].
  - induction Hn as [|y nans Hy Hn IH]; constructor; [exact IH|].
    eapply Forall_impl; [|exact Hn]. intros z Hz. now apply Hge.
  - constructor; [exact IH|]. apply Forall_app. split; [exact Hx|].
    eapply Forall_impl; [|exact Hn]. intros z Hz. now apply Hge.
Qed.

(** The order line 115 returns is a descending reordering of the frame. *)
Lemma sort_by_Score_sorts (df : list Conversation) :
  sort_values df (sort_by_Score df).
Proof.
  unfold sort_by_Score, sort_values.
  set (nn := filter (fun c => negb (isnan (Score c))) df).
  set (nans := filter (fun c => isnan (Score c)) df).
  destruct (NpysortFacts.aquicksort_spec before no_row before_irrefl
              before_asym before_le_trans (rev nn)) as [P S].
  set (out := Npysort.aquicksort before no_row (rev nn)) in *.
  assert (Pnn : Permutation nn (rev out)).
  { eapply perm_trans; [apply Permutation_rev|].
    eapply perm_trans; [exact P | apply Permutation_rev]. }
  split.
  - eapply perm_trans; [apply (filter_split _ (fun c => isnan (Score c)))|].
    fold nn nans. now apply Permutation_app_tail.
  - apply sorted_before_nan.
    + apply (sorted_weaken _ (fun x y => Npysort.le before y x) score_ge
                           (fun c => isnan (Score c) = false)).
      * intros x y Hx Hy H. unfold Npysort.le, before in H.
        rewrite (DOUBLE_LT_geb _ _ Hx Hy) in H.
        unfold score_ge. now apply negb_false_iff.
      * eapply Permutation_Forall; [exact Pnn|].
        apply Forall_forall. intros c Hc. unfold nn in Hc.
        apply filter_In in Hc as [_ Hc]. now apply negb_true_iff.
      * apply (NpysortFacts.sorted_rev (Npysort.le before)). exact S.
    + apply Forall_forall. intros c Hc. unfold nans in Hc.
      now apply filter_In in Hc as [_ Hc].
Qed.

Lemma filter_all (A : Type) (f : A -> bool) (l : list A) :
  Forall (fun x => f x = true) l -> filter f l = l.
Proof.
  induction 1 as [|x l Hx _ IH]; [reflexivity|].
  cbn [filter]. now rewrite Hx, IH.
Qed.

Lemma filter_none (A : Type) (f : A -> bool) (l : list A) :
  Forall (fun x => f x = false) l -> filter f l = [].
Proof.
  induction 1 as [|x l Hx _ IH]; [reflexivity|].
  cbn [filter]. now rewrite Hx, IH.
Qed.

Lemma fold_left_rev (A B : Type) (g : A -> B -> B) (l : list A) (acc : B) :
  fold_left (fun b a => g a b) (rev l) acc = fold_right g acc l.
Proof.
  rewrite <- (rev_involutive l) at 2. symmetry. apply fold_left_rev_right.
Qed.

Lemma shift_insert_by_score (c : Conversation) (l : list Conversation) :
  isnan (Score c) = false ->
  Forall (fun y => isnan (Score y) = false) l ->
  Npysort.shift before c l = insert_by_score c l.
Proof.
  intros Hc. induction 1 as [|y l Hy _ IH]; [reflexivity|].
  cbn [Npysort.shift insert_by_score]. unfold before at 1.
  rewrite (DOUBLE_LT_geb _ _ Hc Hy).
  destruct (geb (Score c) (Score y)); cbn [negb]; [reflexivity|].
  now rewrite IH.
Qed.

(** Up to seventeen rows the sort is the insertion sort, which keeps rows
    of equal score in frame order. *)
Lemma sort_by_Score_stable (df : list Conversation) :
  (length df <= 17)%nat ->
  Forall (fun c => isnan (Score c) = false) df ->
  sort_by_Score df = stable_sort df.
Proof.
  intros Hlen Hfin. unfold sort_by_Score.
  rewrite (filter_all _ (fun c => negb (isnan (Score c))) df).
  2:{ eapply Forall_impl; [|exact Hfin]. intros c Hc. cbv beta.
      now rewrite Hc. }
  rewrite (filter_none _ (fun c => isnan (Score c)) df) by exact Hfin.
  rewrite app_nil_r.
  rewrite NpysortFacts.aquicksort_small
    by (rewrite length_rev; unfold Npysort.SMALL_QUICKSORT; exact Hlen).
  unfold Npysort.insertion_sort. rewrite rev_involutive.
  rewrite (fold_left_rev _ _ (Npysort.shift before)). unfold stable_sort.
  induction Hfin as [|c df Hc Hdf IH]; [reflexivity|].
  cbn [fold_right]. cbn [length] in Hlen.
  rewrite IH by lia. apply shift_insert_by_score; [exact Hc|].
  eapply Permutation_Forall; [apply stable_sort_perm | exact Hdf].
Qed.

(** Every conversation with an observation has a number as its score. *)
Lemma Score_number (c : Conversation) :
  (0 < c_count c)%Z -> exists s, Score c = Fin s.
Proof.
  intro Hc.
  assert (HR : exists q, ConnCountScore c = Fin q).
  { unfold ConnCountScore.
    destruct (Z.eq_dec (ConnDiv (c_time c)) 0) as [E|NE].
    - rewrite E, rate_zero_span by exact Hc. eauto.
    - destruct (rate_nonzero_span (c_count c) _ NE) as [[_ ->] | [_ ->]];
        eauto. }
  destruct HR as (q & HR).
  destruct (Score_of_rate c q HR) as (s & Hs & _). eauto.
Qed.

End SortFacts.

(** ** Grouping *)

Section GroupFacts.

Lemma group_insert_key (s d : string) (t : Z) (gs : list Conversation)
      (g : Conversation) :
  In g (group_insert s d t gs) ->
  (c_src g = s /\ c_dst g = d)
  \/ exists g', In g' gs /\ c_src g = c_src g' /\ c_dst g = c_dst g'.
Proof.
  induction gs as [|h gs IH]; simpl.
  - intros [E | []]. subst g. left; auto.
  - destruct (key_compare s d (c_src h) (c_dst h)); simpl.
    + intros [E | H]; right.
      * exists h. subst g. simpl. auto.
      * exists g. auto.
    + intros [E | H]; [subst g; left; auto | right].
      exists g. simpl. auto.
    + intros [E | H].
      * right. exists h. subst g. simpl. auto.
      * destruct (IH H) as [K | (g' & Hg' & K)]; [left; exact K | right].
        exists g'. auto.
Qed.

Lemma fold_group_key (df : list LogRow) (acc : list Conversation)
      (g : Conversation) :
  In g (fold_left (fun gs r => group_insert (src r) (dst r) (timestamp r) gs)
                  df acc) ->
  (exists r, In r df /\ src r = c_src g /\ dst r = c_dst g)
  \/ exists g', In g' acc /\ c_src g = c_src g' /\ c_dst g = c_dst g'.
Proof.
  revert acc. induction df as [|r df IH]; simpl; intros acc H.
  - right. exists g. auto.
  - destruct (IH _ H) as [(r' & Hr' & K) | (g' & Hg' & K1 & K2)].
    + left. exists r'. auto.
    + destruct (group_insert_key _ _ _ _ _ Hg') as [[E1 E2] | (g'' & Hg'' & E1 & E2)].
      * left. exists r. repeat split; [auto | congruence | congruence].
      * right. exists g''. repeat split; [auto | congruence | congruence].
Qed.

(** The key of every group is the key of one of the grouped rows. *)
Lemma groupby_key (df : list LogRow) (g : Conversation) :
  In g (groupby df) ->
  exists r, In r df /\ src r = c_src g /\ dst r = c_dst g.
Proof.
  intro H. destruct (fold_group_key df [] g H) as [K | (g' & [] & _)].
  exact K.
Qed.

Lemma scored_frame_In (rows : list LogRow) (c : Conversation) :
  In c (scored_frame rows)
  <-> In c (groupby (sentinel_filter rows)) /\ minActivityThreshold < c_count c.
Proof.
  unfold scored_frame, remove_short_sessions, active.
  rewrite filter_In, Z.ltb_lt. reflexivity.
Qed.

(** The source of a scored conversation is never the placeholder, and
    every scored conversation stems from a row whose [dest_ip] is not the
    placeholder either. *)
Lemma scored_src_known (rows : list LogRow) (c : Conversation) :
  In c (scored_frame rows) ->
  c_src c <> sentinel
  /\ exists r, In r rows /\ dest_ip r <> sentinel
               /\ username r = c_src c /\ domain r = c_dst c.
Proof.
  intro H. apply scored_frame_In in H as [H _].
  apply groupby_key in H as (r & Hr & Hs & Hd).
  unfold sentinel_filter in Hr. apply filter_In in Hr as [Hr G].
  apply andb_prop in G as [G1 G2].
  apply negb_true_iff, String.eqb_neq in G1, G2.
  unfold src in Hs. unfold dst in Hd. split; [congruence|].
  exists r. auto.
Qed.

(** [groupby] lists, under each key, the timestamps of the rows of that
    key in row order, and has one group per key. *)

Lemma ascii_compare_refl (a : ascii) : Ascii.compare a a = Eq.
Proof. apply N.compare_refl. Qed.

Lemma ascii_compare_lt_trans (a b c : ascii) :
  Ascii.compare a b = Lt -> Ascii.compare b c = Lt -> Ascii.compare a c = Lt.
Proof.
  unfold Ascii.compare. rewrite !N.compare_lt_iff. apply N.lt_trans.
Qed.

Lemma string_compare_refl (s : string) : String.compare s s = Eq.
Proof.
  induction s as [|a s IH]; simpl; [reflexivity|].
  now rewrite ascii_compare_refl.
Qed.

Lemma string_compare_eq (s1 s2 : string) :
  String.compare s1 s2 = Eq <-> s1 = s2.
Proof.
  split; [apply String.compare_eq_iff | intros ->; apply string_compare_refl].
Qed.

Lemma string_compare_lt_trans (s1 s2 s3 : string) :
  String.compare s1 s2 = Lt -> String.compare s2 s3 = Lt ->
  String.compare s1 s3 = Lt.
Proof.
  revert s2 s3. induction s1 as [|a s1 IH]; intros [|b s2] [|c s3]; simpl;
    try discriminate; try reflexivity.
  destruct (Ascii.compare a b) eqn:Eab; try discriminate;
    destruct (Ascii.compare b c) eqn:Ebc; try discriminate; intros H1 H2.
  - apply Ascii.compare_eq_iff in Eab, Ebc. subst.
    rewrite ascii_compare_refl. eapply IH; eauto.
  - apply Ascii.compare_eq_iff in Eab. subst. now rewrite Ebc.
  - apply Ascii.compare_eq_iff in Ebc. subst. now rewrite Eab.
  - now rewrite (ascii_compare_lt_trans a b c).
Qed.

Lemma key_compare_eq (s1 d1 s2 d2 : string) :
  key_compare s1 d1 s2 d2 = Eq <-> s1 = s2 /\ d1 = d2.
Proof.
  unfold key_compare. split.
  - destruct (String.compare s1 s2) eqn:E; try discriminate.
    intro H. apply string_compare_eq in E, H. auto.
  - intros [-> ->]. now rewrite !string_compare_refl.
Qed.

Lemma key_compare_antisym (s1 d1 s2 d2 : string) :
  key_compare s1 d1 s2 d2 = CompOpp (key_compare s2 d2 s1 d1).
Proof.
  unfold key_compare. rewrite (String.compare_antisym s1 s2).
  destruct (String.compare s2 s1); simpl; try reflexivity.
  apply String.compare_antisym.
Qed.

Lemma key_compare_lt_trans (s1 d1 s2 d2 s3 d3 : string) :
  key_compare s1 d1 s2 d2 = Lt -> key_compare s2 d2 s3 d3 = Lt ->
  key_compare s1 d1 s3 d3 = Lt.
Proof.
  unfold key_compare.
  destruct (String.compare s1 s2) eqn:E12; try discriminate;
    destruct (String.compare s2 s3) eqn:E23; try discriminate; intros H1 H2.
  - apply string_compare_eq in E12, E23. subst.
    rewrite string_compare_refl. eapply string_compare_lt_trans; eauto.
  - apply string_compare_eq in E12. subst. now rewrite E23.
  - apply string_compare_eq in E23. subst. now rewrite E12.
  - now rewrite (string_compare_lt_trans s1 s2 s3).
Qed.

Lemma times_of_above (s d : string) (gs : list Conversation) :
  Forall (fun g => key_compare s d (c_src g) (c_dst g) = Lt) gs ->
  times_of s d gs = [].
Proof.
  induction 1 as [|g gs Hg _ IH]; simpl; [reflexivity|].
  now rewrite Hg.
Qed.

Lemma group_insert_sorted (s d : string) (t : Z) (gs : list Conversation) :
  StronglySorted key_lt gs -> StronglySorted key_lt (group_insert s d t gs).
Proof.
  induction 1 as [|h gs Hs IH Hh]; simpl; [repeat constructor|].
  destruct (key_compare s d (c_src h) (c_dst h)) eqn:E.
  - constructor; [exact Hs | exact Hh].
  - constructor; [now constructor|].
    constructor; [exact E|].
    eapply Forall_impl; [|exact Hh]. intros g Hg. unfold key_lt in *; simpl.
    eapply key_compare_lt_trans; eauto.
  - constructor; [exact IH|].
    apply Forall_forall. intros g Hg.
    destruct (group_insert_key _ _ _ _ _ Hg) as [[E1 E2] | (g' & Hg' & E1 & E2)].
    + unfold key_lt. rewrite E1, E2, key_compare_antisym, E. reflexivity.
    + rewrite Forall_forall in Hh. specialize (Hh g' Hg').
      unfold key_lt in *. now rewrite E1, E2.
Qed.

Lemma times_of_group_insert (s d s' d' : string) (t : Z)
      (gs : list Conversation) :
  StronglySorted key_lt gs ->
  times_of s' d' (group_insert s d t gs)
  = match key_compare s' d' s d with
    | Eq => times_of s d gs ++ [t]
    | _ => times_of s' d' gs
    end.
Proof.
  induction 1 as [|h gs Hs IH Hh]; simpl.
  - destruct (key_compare s' d' s d); reflexivity.
  - destruct (key_compare s d (c_src h) (c_dst h)) eqn:E; simpl.
    + apply key_compare_eq in E as [-> ->].
      destruct (key_compare s' d' (c_src h) (c_dst h)); reflexivity.
    + destruct (key_compare s' d' s d) eqn:E'; try reflexivity.
      apply key_compare_eq in E' as [-> ->].
      rewrite times_of_above; [reflexivity|].
      eapply Forall_impl; [|exact Hh]. intros g Hg. unfold key_lt in Hg.
      eapply key_compare_lt_trans; eauto.
    + rewrite IH.
      destruct (key_compare s' d' s d) eqn:E'.
      * apply key_compare_eq in E' as [-> ->]. now rewrite E.
      * reflexivity.
      * reflexivity.
Qed.

Lemma times_of_self (gs : list Conversation) (g : Conversation) :
  StronglySorted key_lt gs -> In g gs ->
  times_of (c_src g) (c_dst g) gs = c_time g.
Proof.
  induction 1 as [|h gs Hs IH Hh]; simpl; [intros []|].
  intros [-> | Hin].
  - now rewrite (proj2 (key_compare_eq _ _ _ _) (conj eq_refl eq_refl)).
  - rewrite Forall_forall in Hh. specialize (Hh g Hin). unfold key_lt in Hh.
    rewrite key_compare_antisym, Hh. simpl. now apply IH.
Qed.

Lemma same_key_compare (s d : string) (r : LogRow) :
  same_key s d r = true <-> key_compare s d (src r) (dst r) = Eq.
Proof.
  unfold same_key. rewrite andb_true_iff, !String.eqb_eq, key_compare_eq.
  split; intros [-> ->]; auto.
Qed.

Lemma fold_group_spec (df : list LogRow) (acc : list Conversation)
      (s d : string) :
  StronglySorted key_lt acc ->
  let out := fold_left (fun gs r => group_insert (src r) (dst r) (timestamp r) gs)
                       df acc in
  StronglySorted key_lt out
  /\ times_of s d out
     = times_of s d acc ++ map timestamp (filter (same_key s d) df).
Proof.
  revert acc. induction df as [|r df IH]; intros acc Hacc; simpl.
  - split; [exact Hacc | now rewrite app_nil_r].
  - destruct (IH (group_insert (src r) (dst r) (timestamp r) acc)
                 (group_insert_sorted _ _ _ _ Hacc)) as [H1 H2].
    split; [exact H1|]. rewrite H2, times_of_group_insert by exact Hacc.
    destruct (same_key s d r) eqn:K.
    + apply same_key_compare in K. rewrite K.
      apply key_compare_eq in K as [-> ->].
      simpl. now rewrite <- app_assoc.
    + destruct (key_compare s d (src r) (dst r)) eqn:K'; try reflexivity.
      apply same_key_compare in K'. congruence.
Qed.

(** Each group lists exactly the timestamps of the rows of its key, in
    the order of the rows; the groups are in strictly increasing key order,
    so no two share a key; and no group is empty. *)
Lemma groupby_spec (df : list LogRow) :
  StronglySorted key_lt (groupby df)
  /\ forall g, In g (groupby df) ->
       c_time g = map timestamp (filter (same_key (c_src g) (c_dst g)) df)
       /\ c_time g <> [].
Proof.
  destruct (fold_group_spec df [] EmptyString EmptyString
              (SSorted_nil _)) as [Hs _].
  split; [exact Hs|]. intros g Hg.
  assert (E : c_time g
              = map timestamp (filter (same_key (c_src g) (c_dst g)) df)).
  { rewrite <- (times_of_self _ g Hs Hg).
    destruct (fold_group_spec df [] (c_src g) (c_dst g) (SSorted_nil _))
      as [_ H]. exact H. }
  split; [exact E|]. rewrite E.
  destruct (groupby_key df g Hg) as (r & Hr & K1 & K2).
  assert (Hin : In r (filter (same_key (c_src g) (c_dst g)) df)).
  { apply filter_In. split; [exact Hr|]. unfold same_key.
    now rewrite K1, K2, !String.eqb_refl. }
  destruct (filter (same_key (c_src g) (c_dst g)) df); [destruct Hin | discriminate].
Qed.

End GroupFacts.

(** * The claims *)

Section Claims.

Local Open Scope Q_scope.

(** C1 (score boundedness).  For every conversation that passes the
    activity filter (more than 36 observations) and whose span is
    positive, the rate score is a finite number, the composite score is the
    mean of skew score, dispersion score and rate score, and it lies
    between 0 and 1. *)
Theorem score_boundedness (c : Conversation) :
  (minActivityThreshold < c_count c)%Z ->
  (0 < ConnDiv (c_time c))%Z ->
  exists q s,
    ConnCountScore c = Fin q /\ Score c = Fin s
    /\ s == (SkewScore c + MadmScore c + q) / 3
    /\ 0 <= s /\ s <= 1.
Proof.
  unfold minActivityThreshold. intros Hc Hs. apply Score_bounds; lia.
Qed.

Lemma score_boundedness_witness :
  exists q s,
    ConnCountScore minute_conv = Fin q /\ Score minute_conv = Fin s
    /\ s == (SkewScore minute_conv + MadmScore minute_conv + q) / 3
    /\ 0 <= s /\ s <= 1.
Proof.
  apply (score_boundedness minute_conv); vm_compute; reflexivity.
Defined.

(** C3 (Bowley skewness).  For every non-empty delta series, with low, mid,
    high its 20th, 50th and 80th percentiles: the skew is
    (low + high - 2 mid) / (high - low) unless high = low or mid = low or
    mid = high, in which case it is 0; it lies in [-1, 1]; and it is exactly
    0 when high = low. *)
Theorem skew_bowley (x : list Z) :
  x <> [] ->
  Skew x == (if Qeq_bool (High x) (Low x)
                || Qeq_bool (Mid x) (Low x)
                || Qeq_bool (Mid x) (High x)
             then 0
             else (Low x + High x - 2 * Mid x) / (High x - Low x))
  /\ (-1 <= Skew x /\ Skew x <= 1)
  /\ (High x == Low x -> Skew x = 0).
Proof.
  intro Hx. destruct (percentiles_ordered x Hx) as [H1 H2].
  split; [|split; [now apply Skew_bounds|]].
  - unfold Skew.
    destruct (Qeq_bool (Mid x) (Low x)) eqn:Eml;
      [rewrite andb_false_r, orb_true_r; simpl; reflexivity|].
    destruct (Qeq_bool (Mid x) (High x)) eqn:Emh;
      [rewrite andb_false_r, orb_true_r; reflexivity|].
    destruct (Qeq_bool (High x) (Low x)) eqn:Ehl.
    { apply Qeq_bool_iff in Ehl. apply Qeq_bool_false in Eml.
      exfalso. apply Eml. lra. }
    destruct (Qeq_bool (BowleyNum x) 0) eqn:En; simpl.
    + apply Qeq_bool_iff in En. unfold BowleyNum in En.
      unfold Qdiv. rewrite En. ring.
    + reflexivity.
  - intro Ehl. unfold Skew.
    assert (Eml : Qeq_bool (Mid x) (Low x) = true)
      by (apply Qeq_bool_iff; lra).
    rewrite Eml, andb_false_r. reflexivity.
Qed.

Lemma skew_bowley_witness :
  (-1 <= Skew [60; 60; 30; 90]%Z /\ Skew [60; 60; 30; 90]%Z <= 1)
  /\ Skew [60; 60; 60]%Z = 0.
Proof.
  destruct (skew_bowley [60; 60; 30; 90]%Z) as (_ & H2 & _); [discriminate|].
  destruct (skew_bowley [60; 60; 60]%Z) as (_ & _ & H3); [discriminate|].
  split; [exact H2|]. apply H3. vm_compute. reflexivity.
Defined.

(** C4 (rate cap).  For every conversation with a positive span the rate
    score is min(1, 10 * count / span); it is 1 as soon as the quotient is
    at least 1, the boundary included, however large the quotient. *)
Theorem rate_cap (c : Conversation) :
  (0 < ConnDiv (c_time c))%Z ->
  exists q,
    ConnCountScore c = Fin q
    /\ q == Qmin 1 (inject_Z (10 * c_count c) / inject_Z (ConnDiv (c_time c)))
    /\ (1 <= inject_Z (10 * c_count c) / inject_Z (ConnDiv (c_time c))
        -> q == 1).
Proof.
  intro Hs. unfold ConnCountScore.
  destruct (rate_nonzero_span (c_count c) (ConnDiv (c_time c)) ltac:(lia))
    as [[H ->] | [H ->]]; eexists; (split; [reflexivity|]); split.
  - symmetry. apply Q.min_l. lra.
  - reflexivity.
  - symmetry. apply Q.min_r. exact H.
  - intro H1. lra.
Qed.

Lemma rate_cap_witness :
  exists q, ConnCountScore ten_second_conv = Fin q /\ q == 1.
Proof.
  destruct (rate_cap ten_second_conv) as (q & Hq & _ & H1);
    [vm_compute; reflexivity|].
  exists q. split; [exact Hq|].
  apply H1. vm_compute. discriminate.
Defined.

(** C5 (monotonic dispersion penalty).  The dispersion score of every
    conversation is max(0, 1 - mad / 30); as a function of mad it never
    increases when mad increases; and it is 0 for every mad of 30 or more. *)
Theorem dispersion_penalty (c : Conversation) (m1 m2 : Q) :
  MadmScore c == Qmax 0 (1 - Madm (Deltas c) / 30)
  /\ dispersion m1 == Qmax 0 (1 - m1 / 30)
  /\ (m1 <= m2 -> dispersion m2 <= dispersion m1)
  /\ (30 <= m1 -> dispersion m1 == 0).
Proof.
  assert (Hmax : forall m, dispersion m == Qmax 0 (1 - m / 30)).
  { intro m. destruct (dispersion_cases m) as [[H ->] | [H ->]].
    - symmetry. apply Q.max_l. lra.
    - symmetry. apply Q.max_r. exact H. }
  split; [apply Hmax|]. split; [apply Hmax|]. split.
  - intro Hle. pose proof (div30 m1). pose proof (div30 m2).
    destruct (dispersion_cases m1) as [[A ->] | [A ->]];
      destruct (dispersion_cases m2) as [[B ->] | [B ->]]; lra.
  - intro H30. pose proof (div30 m1).
    destruct (dispersion_cases m1) as [[A ->] | [A ->]]; lra.
Qed.

Lemma dispersion_penalty_witness :
  dispersion 45 <= dispersion 12 /\ dispersion 45 == 0.
Proof.
  destruct (dispersion_penalty minute_conv 12 45) as (_ & _ & Hmono & _).
  destruct (dispersion_penalty minute_conv 45 45) as (_ & _ & _ & Hzero).
  split; [apply Hmono | apply Hzero]; vm_compute; discriminate.
Defined.



(** C7 (deltas and span).  For every conversation with at least one
    timestamp: there is one delta less than there are timestamps, delta i is
    timestamp i+1 minus timestamp i in the order of the series, which for a
    grouped conversation is the order of its rows in the log; the span is
    the last timestamp minus the first one, it is that number, unclamped,
    that the rate score divides by, and it can be negative. *)
Theorem deltas_and_span (c : Conversation) :
  c_time c <> [] ->
  (Z.of_nat (length (Deltas c)) = c_count c - 1)%Z
  /\ (forall i : nat, (i + 1 < length (c_time c))%nat ->
        nth i (Deltas c) 0%Z
        = (nth (i + 1) (c_time c) 0 - nth i (c_time c) 0)%Z)
  /\ (forall rows, In c (groupby (sentinel_filter rows)) ->
        c_time c
        = map timestamp
              (filter (same_key (c_src c) (c_dst c)) (sentinel_filter rows)))
  /\ ConnDiv (c_time c)
     = (nth (length (c_time c) - 1) (c_time c) 0 - nth 0 (c_time c) 0)%Z
  /\ ConnCountScore c
     = rate (c_count c)
            (nth (length (c_time c) - 1) (c_time c) 0 - nth 0 (c_time c) 0)%Z
  /\ (ConnDiv (c_time newest_first_conv) < 0)%Z.
Proof.
  intro Hx. split; [|split; [|split; [|split; [|split]]]].
  - unfold Deltas, c_count. rewrite diff_dropna_length.
    destruct (c_time c); [congruence | simpl length; lia].
  - intros i Hi. apply diff_dropna_nth, Hi.
  - intros rows Hin.
    destruct (groupby_spec (sentinel_filter rows)) as [_ H].
    apply (H c Hin).
  - apply ConnDiv_nth, Hx.
  - unfold ConnCountScore. rewrite (ConnDiv_nth _ Hx). reflexivity.
  - reflexivity.
Qed.

Lemma deltas_and_span_witness :
  length (Deltas newest_first_conv) = 36%nat
  /\ nth 0 (Deltas newest_first_conv) 0%Z = (-1)%Z
  /\ c_time newest_first_conv = map timestamp newest_first_rows
  /\ ConnDiv (c_time newest_first_conv) = (-36)%Z.
Proof.
  destruct (deltas_and_span newest_first_conv) as (H1 & H2 & H3 & H4 & _);
    [discriminate|].
  split; [|split; [|split]].
  - apply Nat2Z.inj. rewrite H1. reflexivity.
  - rewrite (H2 0%nat); [reflexivity | vm_compute; lia].
  - rewrite (H3 newest_first_rows); [reflexivity|].
    vm_compute. left. reflexivity.
  - rewrite H4. reflexivity.
Defined.

(** A stable sort leaves a frame that is already in descending order as
    it is: rows of equal score keep their order. *)
Lemma stable_sort_descending (df : list Conversation) :
  StronglySorted score_ge df -> stable_sort df = df.
Proof.
  induction 1 as [|c l Hl IH Hc]; [reflexivity|].
  simpl. rewrite IH. destruct l as [|y l]; [reflexivity|].
  simpl. inversion Hc as [|? ? Hy _]; subst.
  unfold score_ge in Hy. now rewrite Hy.
Qed.

Lemma gtb_Fin (q t : Q) : gtb (Fin q) t = true <-> t < q.
Proof.
  simpl. rewrite negb_true_iff. apply Qle_bool_false.
Qed.

(** C8 (ranking, as the code has it).  The report that line 115 returns
    is in descending score order; it contains exactly the conversations of
    the scored frame, none dropped, none added; every conversation has a
    number as its score and is listed among the possible beacons exactly
    when that score is strictly greater than 0.7.  Conversations of equal
    score keep their frame order (the key order of the grouping) as long
    as the scored frame has at most 17 rows, where numpy's quicksort is an
    insertion sort; beyond that the partition step of the quicksort can
    move rows of equal score past one another.  On a scored frame with a
    row the script reports this ranking and its flagged part. *)
Theorem ranking_stage (rows : list LogRow) :
  let df := scored_frame rows in
  let out := sort_by_Score df in
  StronglySorted score_ge out
  /\ Permutation df out
  /\ (forall c, In c df <-> In c out)
  /\ length out = length df
  /\ (forall c, In c out ->
        exists q, Score c = Fin q
          /\ (In (report_row c) (possible_beacons (map report_row out))
              <-> beaconThreshold < q))
  /\ ((length df <= 17)%nat -> out = stable_sort df)
  /\ ranking rows out
  /\ (df <> [] ->
      beacon_finder rows
      = Reported (map report_row out)
                 (possible_beacons (map report_row out))).
Proof.
  intros df out.
  pose proof (sort_by_Score_sorts df) as Hsv. fold out in Hsv.
  pose proof Hsv as [Hp Hs].
  assert (Hnum : forall c, In c df -> exists q, Score c = Fin q).
  { intros c Hc. apply scored_frame_In in Hc as [_ Hc].
    unfold minActivityThreshold in Hc. apply Score_number. lia. }
  split; [exact Hs|]. split; [exact Hp|]. split.
  { intro c. now apply sort_values_keeps. }
  split; [symmetry; now apply Permutation_length|]. split.
  { intros c Hin.
    destruct (Hnum c (proj2 (sort_values_keeps df out c Hsv) Hin))
      as (q & Hq).
    exists q. split; [exact Hq|]. unfold possible_beacons.
    rewrite filter_In. cbn [rep_Score report_row]. rewrite Hq, gtb_Fin.
    split; [tauto|]. intro Hlt. split; [|exact Hlt]. now apply in_map. }
  split.
  { intro Hlen. apply sort_by_Score_stable; [exact Hlen|].
    apply Forall_forall. intros c Hc. destruct (Hnum c Hc) as (q & ->).
    reflexivity. }
  split; [exact Hsv|].
  intro Hne. unfold beacon_finder. fold df. fold out.
  destruct df as [|c l]; [congruence | reflexivity].
Qed.

Lemma ranking_stage_witness :
  sort_by_Score (scored_frame twin_rows) = [twin_a; twin_b]
  /\ In twin_b (sort_by_Score (scored_frame twin_rows)).
Proof.
  destruct (ranking_stage twin_rows)
    as (_ & _ & Hin & _ & _ & Hstable & _).
  assert (E : scored_frame twin_rows = [twin_a; twin_b])
    by (vm_compute; reflexivity).
  assert (S : stable_sort [twin_a; twin_b] = [twin_a; twin_b])
    by (vm_compute; reflexivity).
  split.
  - rewrite Hstable by (rewrite E; simpl; lia). rewrite E. exact S.
  - apply (proj1 (Hin twin_b)). rewrite E. right. left. reflexivity.
Defined.

(** Counterexample to C8 as stated: the eighteen conversations of
    [tied_rows] have the same score and reach line 115 in key order,
    user10 first and user27 last.  A stable sort would keep that order;
    the quicksort partitions the eighteen rows once, exchanging the rows
    it meets from both ends, and the report lists user26 in third place
    and user12 in the last but one. *)
Lemma tie_order_not_fixed :
  scored_frame tied_rows = map tied_conv tied_users
  /\ map Score (scored_frame tied_rows)
     = repeat (Score (tied_conv "user10")) 18
  /\ stable_sort (scored_frame tied_rows) = map tied_conv tied_users
  /\ map c_src (sort_by_Score (scored_frame tied_rows))
     = ["user10"; "user11"; "user26"; "user25"; "user24"; "user23";
        "user22"; "user21"; "user20"; "user19"; "user18"; "user17";
        "user16"; "user15"; "user14"; "user13"; "user12"; "user27"]%string
  /\ sort_by_Score (scored_frame tied_rows)
     <> stable_sort (scored_frame tied_rows).
Proof.
  assert (E : scored_frame tied_rows = map tied_conv tied_users)
    by (vm_compute; reflexivity).
  assert (S : stable_sort (scored_frame tied_rows) = map tied_conv tied_users)
    by (vm_compute; reflexivity).
  assert (Q : map c_src (sort_by_Score (scored_frame tied_rows))
     = ["user10"; "user11"; "user26"; "user25"; "user24"; "user23";
        "user22"; "user21"; "user20"; "user19"; "user18"; "user17";
        "user16"; "user15"; "user14"; "user13"; "user12"; "user27"]%string)
    by (vm_compute; reflexivity).
  split; [exact E|]. split; [vm_compute; reflexivity|].
  split; [exact S|]. split; [exact Q|].
  intro H. rewrite S in H. apply (f_equal (map c_src)) in H.
  rewrite Q in H. vm_compute in H. discriminate.
Qed.




(** C9, at a log whose rows carry a resolved address and the placeholder
    as domain: the rows pass the filter of line 51, which tests [dest_ip],
    and the conversation keyed by [domain], with the placeholder as its
    destination, is scored and is part of every ranking. *)
Theorem sentinel_destination_ranked :
  scored_frame no_domain_rows = [no_domain_conv]
  /\ c_dst no_domain_conv = sentinel
  /\ c_src no_domain_conv <> sentinel
  /\ ranking no_domain_rows [no_domain_conv]
  /\ In (report_row no_domain_conv)
        (possible_beacons (map report_row [no_domain_conv])).
Proof.
  assert (E : scored_frame no_domain_rows = [no_domain_conv])
    by (vm_compute; reflexivity).
  split; [exact E|]. split; [reflexivity|]. split; [discriminate|]. split.
  - unfold ranking, sort_values. rewrite E.
    split; [apply Permutation_refl | repeat constructor].
  - vm_compute. left. reflexivity.
Qed.



End Claims.

(** * Further properties of the pipeline *)

Section PipelineFacts.

Local Open Scope Q_scope.

Lemma Fin_inj (a b : Q) : Fin a = Fin b -> a = b.
Proof. intro H. now inversion H. Qed.

Lemma sorted_keys_NoDup (gs : list Conversation) :
  StronglySorted key_lt gs ->
  NoDup (map (fun g => (c_src g, c_dst g)) gs).
Proof.
  induction 1 as [|h gs Hs IH Hh]; simpl; constructor; [|exact IH].
  intro Hin. apply in_map_iff in Hin as (g & Hk & Hg).
  rewrite Forall_forall in Hh. specialize (Hh g Hg). unfold key_lt in Hh.
  injection Hk as K1 K2. rewrite K1, K2 in Hh.
  rewrite (proj2 (key_compare_eq _ _ _ _) (conj eq_refl eq_refl)) in Hh.
  discriminate.
Qed.

Lemma times_of_found (s d : string) (gs : list Conversation) :
  times_of s d gs <> [] ->
  exists g, In g gs /\ c_src g = s /\ c_dst g = d.
Proof.
  induction gs as [|h gs IH]; simpl; [congruence|].
  destruct (key_compare s d (c_src h) (c_dst h)) eqn:E; intro H.
  - apply key_compare_eq in E as [-> ->]. exists h. auto.
  - destruct (IH H) as (g & Hg & K). exists g. auto.
  - destruct (IH H) as (g & Hg & K). exists g. auto.
Qed.

Lemma groupby_times_of (df : list LogRow) (s d : string) :
  times_of s d (groupby df) = map timestamp (filter (same_key s d) df).
Proof.
  destruct (fold_group_spec df [] s d (SSorted_nil _)) as [_ H]. exact H.
Qed.

Lemma groupby_complete (df : list LogRow) (r : LogRow) :
  In r df ->
  exists g, In g (groupby df) /\ c_src g = src r /\ c_dst g = dst r.
Proof.
  intro Hr. apply times_of_found. rewrite groupby_times_of.
  assert (Hin : In r (filter (same_key (src r) (dst r)) df)).
  { apply filter_In. split; [exact Hr|]. unfold same_key.
    now rewrite !String.eqb_refl. }
  destruct (filter (same_key (src r) (dst r)) df); [destruct Hin | discriminate].
Qed.

Lemma group_insert_total (s d : string) (t : Z) (gs : list Conversation) :
  list_sum (map (fun g => length (c_time g)) (group_insert s d t gs))
  = S (list_sum (map (fun g => length (c_time g)) gs)).
Proof.
  induction gs as [|h gs IH]; simpl; [reflexivity|].
  destruct (key_compare s d (c_src h) (c_dst h)); simpl.
  - rewrite length_app. simpl. lia.
  - reflexivity.
  - rewrite IH. lia.
Qed.

Lemma fold_group_total (df : list LogRow) (acc : list Conversation) :
  list_sum (map (fun g => length (c_time g))
     (fold_left (fun gs r => group_insert (src r) (dst r) (timestamp r) gs)
                df acc))
  = (list_sum (map (fun g => length (c_time g)) acc) + length df)%nat.
Proof.
  revert acc. induction df as [|r df IH]; intro acc; simpl; [lia|].
  rewrite IH, group_insert_total. lia.
Qed.

Lemma csv_groupby_keyed (df : list CsvRow) :
  csv_groupby df = groupby (flat_map keyed df).
Proof.
  unfold csv_groupby, groupby. generalize (@nil Conversation) as acc.
  induction df as [|r df IH]; intro acc; [reflexivity|].
  cbn [fold_left flat_map]. rewrite IH, fold_left_app. unfold keyed.
  destruct (f_username r), (f_domain r); reflexivity.
Qed.

Lemma keyed_times (s d : string) (df : list CsvRow) :
  map timestamp (filter (same_key s d) (flat_map keyed df))
  = map f_timestamp (filter (csv_same_key s d) df).
Proof.
  induction df as [|r df IH]; [reflexivity|].
  cbn [flat_map filter]. rewrite filter_app, map_app, IH.
  unfold keyed, csv_same_key.
  destruct (f_username r) as [u|], (f_domain r) as [v|]; try reflexivity.
  cbn [filter]. unfold same_key, src, dst. cbn [username domain].
  destruct (String.eqb u s && String.eqb v d); reflexivity.
Qed.

Lemma keyed_length (df : list CsvRow) :
  length (flat_map keyed df) = length (filter has_key df).
Proof.
  induction df as [|r df IH]; [reflexivity|].
  cbn [flat_map filter]. rewrite length_app, IH. unfold keyed, has_key.
  destruct (f_username r), (f_domain r); reflexivity.
Qed.

Lemma complete_groupby (rows : list LogRow) :
  csv_groupby (map complete rows) = groupby rows.
Proof.
  unfold csv_groupby, groupby. generalize (@nil Conversation) as acc.
  induction rows as [|r rows IH]; intro acc; [reflexivity|].
  cbn [map fold_left]. apply IH.
Qed.

Lemma complete_filter (rows : list LogRow) :
  csv_sentinel_filter (map complete rows) = map complete (sentinel_filter rows).
Proof.
  unfold csv_sentinel_filter, sentinel_filter.
  induction rows as [|r rows IH]; [reflexivity|].
  cbn [map filter complete differs f_username f_dest_ip].
  destruct (negb (String.eqb (username r) sentinel)
            && negb (String.eqb (dest_ip r) sentinel));
    cbn [map]; now rewrite IH.
Qed.

(** X1 (grouping is a partition of the rows that have a key).  On a frame
    that may hold missing values, [groupby] yields one group per key: no
    two groups share a key; every row whose user name and domain are both
    present has a group of its key; a row with a missing user name passes
    the placeholder filter of line 51 and still is in no group, since each
    group lists exactly the timestamps of the rows that carry its key, in
    row order, and is never empty; the counts add up to the number of rows
    whose key is complete.  On a frame without missing values filter and
    grouping are [sentinel_filter] and [groupby], and the counts add up to
    the number of rows. *)
Theorem groupby_partition (df : list CsvRow) (rows : list LogRow) :
  NoDup (map (fun g => (c_src g, c_dst g)) (csv_groupby df))
  /\ (forall r s d, In r df -> f_username r = Some s -> f_domain r = Some d ->
        exists g, In g (csv_groupby df) /\ c_src g = s /\ c_dst g = d)
  /\ (forall r, In r df -> f_username r = None ->
        (differs (f_dest_ip r) sentinel = true ->
         In r (csv_sentinel_filter df))
        /\ forall s d, csv_same_key s d r = false)
  /\ (forall g, In g (csv_groupby df) ->
        c_time g <> []
        /\ c_time g
           = map f_timestamp (filter (csv_same_key (c_src g) (c_dst g)) df))
  /\ list_sum (map (fun g => length (c_time g)) (csv_groupby df))
     = length (filter has_key df)
  /\ csv_groupby (csv_sentinel_filter (map complete rows))
     = groupby (sentinel_filter rows)
  /\ list_sum (map (fun g => length (c_time g))
                   (csv_groupby (map complete rows))) = length rows.
Proof.
  rewrite csv_groupby_keyed.
  destruct (groupby_spec (flat_map keyed df)) as [Hs Hg].
  split; [now apply sorted_keys_NoDup|]. split.
  { intros r s d Hr Hu Hd.
    destruct (groupby_complete (flat_map keyed df)
                (mkLogRow (f_timestamp r) EmptyString s
                   (match f_dest_ip r with Some a => a | None => EmptyString end)
                   d)) as (g & G1 & G2 & G3).
    - apply in_flat_map. exists r. split; [exact Hr|].
      unfold keyed. rewrite Hu, Hd. left. reflexivity.
    - exists g. auto. }
  split.
  { intros r Hr Hu. split.
    - intro Hd. apply filter_In. split; [exact Hr|].
      rewrite Hu, Hd. reflexivity.
    - intros s d. unfold csv_same_key. now rewrite Hu. }
  split.
  { intros g Hin. destruct (Hg g Hin) as [E Hne].
    split; [exact Hne|]. rewrite E. apply keyed_times. }
  split.
  { unfold groupby. rewrite fold_group_total. cbn [map list_sum].
    apply keyed_length. }
  split.
  { now rewrite complete_filter, complete_groupby. }
  rewrite complete_groupby. unfold groupby. rewrite fold_group_total.
  reflexivity.
Qed.

Lemma groupby_partition_witness :
  csv_groupby (csv_sentinel_filter gappy_rows)
  = [mkConversation "user1" "a.com" [0; 60]%Z]
  /\ In (mkCsvRow 5 None (Some "99.11.99.1"%string) (Some "a.com"%string))
        (csv_sentinel_filter gappy_rows)
  /\ list_sum (map (fun g => length (c_time g))
                   (csv_groupby (csv_sentinel_filter gappy_rows))) = 2%nat.
Proof.
  destruct (groupby_partition (csv_sentinel_filter gappy_rows) [])
    as (_ & _ & _ & _ & Hsum & _).
  split; [vm_compute; reflexivity|]. split.
  - vm_compute. right. left. reflexivity.
  - rewrite Hsum. vm_compute. reflexivity.
Defined.

(** X2 (what reaches scoring).  A conversation is scored exactly when it
    lists, in row order, the timestamps of all rows of its key whose
    username and dest_ip are not the placeholder, and there are more than
    36 of them; its source is then never the placeholder. *)
Theorem scored_frame_spec (rows : list LogRow) (c : Conversation) :
  (In c (scored_frame rows)
   <-> c_time c
       = map timestamp
             (filter (same_key (c_src c) (c_dst c)) (sentinel_filter rows))
       /\ (36 < c_count c)%Z)
  /\ (In c (scored_frame rows) -> c_src c <> sentinel).
Proof.
  split.
  - rewrite scored_frame_In. unfold minActivityThreshold. split.
    + intros [Hin Hc]. split; [|exact Hc].
      destruct (groupby_spec (sentinel_filter rows)) as [_ H].
      apply (H c Hin).
    + intros [Ht Hc]. split; [|exact Hc].
      destruct (filter (same_key (c_src c) (c_dst c)) (sentinel_filter rows))
        as [|r l] eqn:F.
      { unfold c_count in Hc. rewrite Ht in Hc. simpl in Hc. lia. }
      assert (Hr : In r (filter (same_key (c_src c) (c_dst c))
                                (sentinel_filter rows)))
        by (rewrite F; left; reflexivity).
      apply filter_In in Hr as [Hr K].
      unfold same_key in K. apply andb_prop in K as [K1 K2].
      apply String.eqb_eq in K1, K2.
      destruct (groupby_complete _ r Hr) as (g & Hg & G1 & G2).
      destruct (groupby_spec (sentinel_filter rows)) as [_ H].
      destruct (H g Hg) as [E _].
      assert (g = c); [|subst; exact Hg].
      destruct g as [gs gd gt], c as [cs cd ct]; simpl in *.
      subst. rewrite F. reflexivity.
  - intro H. apply scored_src_known in H. tauto.
Qed.

Lemma scored_frame_spec_witness :
  In minute_conv (scored_frame (short_rows ++ minute_rows))
  /\ c_src minute_conv <> sentinel.
Proof.
  destruct (scored_frame_spec (short_rows ++ minute_rows) minute_conv)
    as [[_ Hback] Hsrc].
  assert (Hin : In minute_conv (scored_frame (short_rows ++ minute_rows))).
  { apply Hback. split; vm_compute; reflexivity. }
  split; [exact Hin | exact (Hsrc Hin)].
Defined.

Lemma cumsum_diff (a : Z) (tl : list Z) :
  cumsum a (diff_dropna (a :: tl)) = a :: tl.
Proof.
  revert a. induction tl as [|b tl IH]; intro a; [reflexivity|].
  change (diff_dropna (a :: b :: tl)) with ((b - a) :: diff_dropna (b :: tl))%Z.
  simpl cumsum. replace (a + (b - a))%Z with b by lia. now rewrite IH.
Qed.

Lemma sum_diff (a : Z) (tl : list Z) :
  fold_right Z.add 0%Z (diff_dropna (a :: tl)) = (last (a :: tl) 0 - a)%Z.
Proof.
  revert a. induction tl as [|b tl IH]; intro a; [simpl; lia|].
  change (diff_dropna (a :: b :: tl)) with ((b - a) :: diff_dropna (b :: tl))%Z.
  change (last (a :: b :: tl) 0%Z) with (last (b :: tl) 0%Z).
  cbn [fold_right]. rewrite IH. lia.
Qed.

Lemma diff_cumsum (t0 : Z) (ds : list Z) : diff_dropna (cumsum t0 ds) = ds.
Proof.
  revert t0. induction ds as [|d ds IH]; intro t0; [reflexivity|].
  simpl cumsum. specialize (IH (t0 + d)%Z).
  destruct ds as [|d' ds]; simpl cumsum in *.
  - simpl. f_equal. lia.
  - change (diff_dropna (t0 :: (t0 + d)%Z :: cumsum (t0 + d + d') ds))
      with (((t0 + d) - t0)%Z
              :: diff_dropna ((t0 + d)%Z :: cumsum (t0 + d + d') ds)).
    rewrite IH. f_equal. lia.
Qed.

(** X3 (deltas and timestamps determine each other).  The timestamps of a
    non-empty series are its first timestamp followed by the running sums
    of its deltas; the deltas add up to the span; and differencing the
    running sums of any delta series gives that series back. *)
Theorem deltas_roundtrip (x ds : list Z) (t0 : Z) :
  x <> [] ->
  cumsum (hd 0%Z x) (diff_dropna x) = x
  /\ fold_right Z.add 0%Z (diff_dropna x) = ConnDiv x
  /\ diff_dropna (cumsum t0 ds) = ds.
Proof.
  intro Hx. destruct x as [|a tl]; [congruence|].
  split; [apply cumsum_diff|]. split; [|apply diff_cumsum].
  unfold ConnDiv. simpl hd. apply sum_diff.
Qed.

Lemma deltas_roundtrip_witness :
  cumsum 36 (Deltas newest_first_conv) = c_time newest_first_conv
  /\ fold_right Z.add 0%Z (Deltas newest_first_conv) = (-36)%Z.
Proof.
  destruct (deltas_roundtrip (c_time newest_first_conv) [] 0) as (H1 & H2 & _);
    [discriminate|].
  split; [exact H1|]. unfold Deltas. rewrite H2. reflexivity.
Defined.

Lemma diff_dropna_shift (k : Z) (x : list Z) :
  diff_dropna (map (Z.add k) x) = diff_dropna x.
Proof.
  induction x as [|a [|b tl] IH]; try reflexivity.
  change (map (Z.add k) (a :: b :: tl))
    with ((k + a)%Z :: map (Z.add k) (b :: tl)).
  change (map (Z.add k) (b :: tl)) with ((k + b)%Z :: map (Z.add k) tl) in *.
  change (diff_dropna ((k + a)%Z :: (k + b)%Z :: map (Z.add k) tl))
    with (((k + b) - (k + a))%Z :: diff_dropna ((k + b)%Z :: map (Z.add k) tl)).
  rewrite IH.
  change (diff_dropna (a :: b :: tl)) with ((b - a)%Z :: diff_dropna (b :: tl)).
  f_equal. lia.
Qed.

Lemma last_shift (k : Z) (x : list Z) (a : Z) :
  last (map (Z.add k) (a :: x)) 0%Z = (k + last (a :: x) 0)%Z.
Proof.
  revert a. induction x as [|b x IH]; intro a; [reflexivity|].
  change (last (map (Z.add k) (a :: b :: x)) 0%Z)
    with (last (map (Z.add k) (b :: x)) 0%Z).
  rewrite IH. reflexivity.
Qed.

Lemma ConnDiv_shift (k : Z) (x : list Z) :
  ConnDiv (map (Z.add k) x) = ConnDiv x.
Proof.
  destruct x as [|a x]; [reflexivity|].
  unfold ConnDiv. rewrite last_shift. simpl hd. lia.
Qed.

(** X4 (only the gaps matter).  Moving every timestamp of a conversation by
    the same number of seconds changes neither its deltas, nor its span,
    nor any of its sub-scores, nor its score. *)
Theorem score_shift_invariant (k : Z) (c : Conversation) :
  Deltas (shift_time k c) = Deltas c
  /\ ConnDiv (c_time (shift_time k c)) = ConnDiv (c_time c)
  /\ SkewScore (shift_time k c) = SkewScore c
  /\ MadmScore (shift_time k c) = MadmScore c
  /\ ConnCountScore (shift_time k c) = ConnCountScore c
  /\ Score (shift_time k c) = Score c.
Proof.
  assert (HD : Deltas (shift_time k c) = Deltas c)
    by (unfold Deltas, shift_time; simpl; apply diff_dropna_shift).
  assert (HS : ConnDiv (c_time (shift_time k c)) = ConnDiv (c_time c))
    by (unfold shift_time; simpl; apply ConnDiv_shift).
  assert (HC : c_count (shift_time k c) = c_count c)
    by (unfold c_count, shift_time; simpl; now rewrite length_map).
  assert (H1 : SkewScore (shift_time k c) = SkewScore c)
    by (unfold SkewScore; now rewrite HD).
  assert (H2 : MadmScore (shift_time k c) = MadmScore c)
    by (unfold MadmScore; now rewrite HD).
  assert (H3 : ConnCountScore (shift_time k c) = ConnCountScore c)
    by (unfold ConnCountScore; now rewrite HC, HS).
  repeat split; auto.
  unfold Score. now rewrite H1, H2, H3.
Qed.

(** X5 (the score column holds no nan and no infinity).  For every scored
    conversation, whatever its span, the rate score and the composite score
    are finite numbers not greater than 1, and the composite score is
    negative only when the span is negative. *)
Theorem score_finite (rows : list LogRow) (c : Conversation) :
  In c (scored_frame rows) ->
  exists q s,
    ConnCountScore c = Fin q /\ q <= 1
    /\ Score c = Fin s /\ s <= 1
    /\ (s < 0 -> (ConnDiv (c_time c) < 0)%Z).
Proof.
  intro Hin. apply scored_frame_In in Hin as [_ Hc].
  unfold minActivityThreshold in Hc.
  destruct (Z_lt_le_dec (ConnDiv (c_time c)) 0) as [Hneg|Hpos].
  - destruct (quotient_sign (10 * c_count c) (ConnDiv (c_time c)) ltac:(lia))
      as [_ Hq]. specialize (Hq Hneg).
    assert (HR : ConnCountScore c
                 = Fin (inject_Z (10 * c_count c) / inject_Z (ConnDiv (c_time c)))).
    { unfold ConnCountScore.
      destruct (rate_nonzero_span (c_count c) (ConnDiv (c_time c)) ltac:(lia))
        as [[H _] | [_ H]]; [lra | exact H]. }
    destruct (Score_of_rate c _ HR) as (s & Hs & Es).
    destruct (SkewScore_bounds c ltac:(lia)) as [_ HS].
    destruct (dispersion_bounds (Madm (Deltas c))
                (Madm_nonneg _ (Deltas_nonempty c ltac:(lia)))) as [_ HM].
    fold (MadmScore c) in HM.
    eexists; exists s. split; [exact HR|]. split; [lra|].
    split; [exact Hs|]. split; [|auto].
    rewrite Es. apply Qle_shift_div_r; lra.
  - destruct (Score_bounds c ltac:(lia) Hpos) as (q & s & HR & Hs & Es & H0 & H1).
    exists q, s. split; [exact HR|]. split.
    + unfold ConnCountScore in HR.
      destruct (Z.eq_dec (ConnDiv (c_time c)) 0) as [E|NE].
      * rewrite E, rate_zero_span in HR by lia.
        apply Fin_inj in HR. subst q. lra.
      * destruct (rate_nonzero_span (c_count c) _ NE) as [[H R] | [H R]];
          rewrite R in HR; apply Fin_inj in HR; subst q; lra.
    + split; [exact Hs|]. split; [exact H1|]. intro. lra.
Qed.

Lemma score_finite_witness :
  exists q s,
    ConnCountScore newest_first_conv = Fin q /\ q <= 1
    /\ Score newest_first_conv = Fin s /\ s <= 1.
Proof.
  destruct (score_finite newest_first_rows newest_first_conv)
    as (q & s & H1 & H2 & H3 & H4 & _).
  - assert (E : scored_frame newest_first_rows = [newest_first_conv])
      by (vm_compute; reflexivity).
    rewrite E. left. reflexivity.
  - exists q, s. auto.
Defined.

Lemma div3 (x : Q) : x / 3 == x * (1 # 3).
Proof. reflexivity. Qed.

Lemma Score_upper (c : Conversation) (q : Q) :
  (1 < c_count c)%Z -> ConnCountScore c = Fin q ->
  exists s, Score c = Fin s /\ s <= (2 + q) / 3.
Proof.
  intros Hc HR.
  destruct (Score_of_rate c q HR) as (s & Hs & Es).
  destruct (SkewScore_bounds c Hc) as [_ HS].
  destruct (dispersion_bounds (Madm (Deltas c))
              (Madm_nonneg _ (Deltas_nonempty c Hc))) as [_ HM].
  fold (MadmScore c) in HM.
  exists s. split; [exact Hs|]. rewrite Es.
  pose proof (div3 (2 + q)). pose proof (div3 (SkewScore c + MadmScore c + q)).
  lra.
Qed.


Lemma quotient_slow (n span : Z) :
  (0 < span)%Z -> (101 * n <= span)%Z ->
  inject_Z (10 * n) / inject_Z span <= 10 # 101.
Proof.
  intros Hs Hle. pose proof (inject_Z_pos span Hs) as Hb.
  apply Qle_shift_div_r; [exact Hb|].
  rewrite Zle_Qle in Hle. rewrite inject_Z_mult in Hle.
  rewrite inject_Z_mult.
  change (inject_Z 10) with 10. change (inject_Z 101) with 101 in Hle. lra.
Qed.

(** The score of a scored conversation whose span is negative, or is 101
    seconds per observation or more: the rate score is negative, or at
    most 10/101. *)
Lemma slow_score (c : Conversation) :
  (1 < c_count c)%Z ->
  exists s, Score c = Fin s
    /\ ((ConnDiv (c_time c) < 0)%Z -> s < 2 # 3)
    /\ ((101 * c_count c <= ConnDiv (c_time c))%Z -> s <= 212 # 303).
Proof.
  intro Hc.
  assert (HR : exists q, ConnCountScore c = Fin q
       /\ ((ConnDiv (c_time c) < 0)%Z -> q < 0)
       /\ ((101 * c_count c <= ConnDiv (c_time c))%Z -> q <= 10 # 101)).
  { unfold ConnCountScore.
    destruct (Z.eq_dec (ConnDiv (c_time c)) 0) as [E|NE].
    - rewrite E, rate_zero_span by lia. exists 1.
      split; [reflexivity|]. split; intro; lia.
    - destruct (quotient_sign (10 * c_count c) (ConnDiv (c_time c))
                  ltac:(lia)) as [_ Hqneg].
      destruct (rate_nonzero_span (c_count c) _ NE) as [[H ->] | [H ->]];
        eexists; (split; [reflexivity|]); split; intro Hx.
      + specialize (Hqneg Hx). lra.
      + pose proof (quotient_slow (c_count c) (ConnDiv (c_time c))
                                  ltac:(lia) Hx). lra.
      + exact (Hqneg Hx).
      + apply quotient_slow; [lia | exact Hx]. }
  destruct HR as (q & HR & Q1 & Q2).
  destruct (Score_upper c q ltac:(lia) HR) as (s & Hs & Hle).
  pose proof (div3 (2 + q)) as D.
  exists s. split; [exact Hs|]. split; intro Hx.
  - specialize (Q1 Hx). lra.
  - specialize (Q2 Hx). lra.
Qed.

Lemma gtb_above (s t : Q) : gtb (Fin s) t = true <-> t < s.
Proof.
  unfold gtb. rewrite negb_true_iff. apply Qle_bool_false.
Qed.

(** X6 (what flagging requires).  The score of a scored conversation with
    a negative span is below 2/3, and with a span of 101 seconds per
    observation or more it is at most 212/303 = 0.6997: in both cases the
    score stays more than 0.0003 below the threshold and the conversation
    is not listed among the possible beacons.  So a listed conversation
    has a span that is not negative and is less than 101 seconds per
    observation.  (Between 100 and 101 seconds per observation the score
    can come as close to 0.7 as the rounding of line 114; nothing is said
    of the flag there.) *)
Theorem flagged_needs_rate (rows : list LogRow) (c : Conversation) :
  In c (scored_frame rows) ->
  exists s,
    Score c = Fin s
    /\ ((ConnDiv (c_time c) < 0)%Z ->
        s < 2 # 3 /\ gtb (Score c) beaconThreshold = false)
    /\ ((101 * c_count c <= ConnDiv (c_time c))%Z ->
        s <= 212 # 303 /\ gtb (Score c) beaconThreshold = false)
    /\ ((212 # 303) < s ->
        (0 <= ConnDiv (c_time c) /\ ConnDiv (c_time c) < 101 * c_count c)%Z)
    /\ (gtb (Score c) beaconThreshold = true ->
        (0 <= ConnDiv (c_time c) /\ ConnDiv (c_time c) < 101 * c_count c)%Z).
Proof.
  intro Hin. apply scored_frame_In in Hin as [_ Hc].
  unfold minActivityThreshold in Hc.
  destruct (slow_score c ltac:(lia)) as (s & Hs & S1 & S2).
  assert (Hoff : s <= 212 # 303 -> gtb (Score c) beaconThreshold = false).
  { intro Hle. rewrite Hs. apply not_true_is_false. intro Hflag.
    apply gtb_above in Hflag. unfold beaconThreshold in Hflag. lra. }
  assert (Hband : (212 # 303) < s ->
            (0 <= ConnDiv (c_time c) /\ ConnDiv (c_time c) < 101 * c_count c)%Z).
  { intro Hgt.
    destruct (Z_lt_le_dec (ConnDiv (c_time c)) 0) as [Hneg|Hpos];
      [specialize (S1 Hneg); lra|].
    destruct (Z_lt_le_dec (ConnDiv (c_time c)) (101 * c_count c))
      as [Hlt|Hge]; [lia|].
    specialize (S2 Hge). lra. }
  exists s. split; [exact Hs|]. split.
  { intro Hx. specialize (S1 Hx). split; [exact S1 | apply Hoff; lra]. }
  split.
  { intro Hx. specialize (S2 Hx). split; [exact S2 | apply Hoff, S2]. }
  split; [exact Hband|].
  intro Hflag. apply Hband. rewrite Hs in Hflag.
  apply gtb_above in Hflag. unfold beaconThreshold in Hflag. lra.
Qed.

Lemma flagged_needs_rate_witness :
  (0 <= ConnDiv (c_time minute_conv)
   /\ ConnDiv (c_time minute_conv) < 101 * c_count minute_conv)%Z
  /\ gtb (Score newest_first_conv) beaconThreshold = false.
Proof.
  split.
  - destruct (flagged_needs_rate minute_rows minute_conv)
      as (s & _ & _ & _ & _ & H).
    + assert (E : scored_frame minute_rows = [minute_conv])
        by (vm_compute; reflexivity).
      rewrite E. left. reflexivity.
    + apply H. vm_compute. reflexivity.
  - destruct (flagged_needs_rate newest_first_rows newest_first_conv)
      as (s & _ & H & _).
    + assert (E : scored_frame newest_first_rows = [newest_first_conv])
        by (vm_compute; reflexivity).
      rewrite E. left. reflexivity.
    + apply H. vm_compute. reflexivity.
Defined.

(** Order statistics of a series whose values lie in an interval. *)

Lemma nth_sort_range (a : list Q) (lo hi : Q) (i : nat) :
  Forall (fun q => lo <= q /\ q <= hi) a -> (i < length a)%nat ->
  lo <= nth i (sort a) 0 /\ nth i (sort a) 0 <= hi.
Proof.
  intros Hall Hi. apply sort_Forall in Hall. rewrite Forall_forall in Hall.
  apply Hall, nth_In. now rewrite sort_length.
Qed.

Lemma percentile_range (a : list Q) (lo hi : Q) (p : Z) :
  a <> [] -> (0 <= p <= 100)%Z ->
  Forall (fun q => lo <= q /\ q <= hi) a ->
  lo <= percentile a p /\ percentile a p <= hi.
Proof.
  intros Ha Hp Hall. rewrite percentile_interp.
  assert (Hn : (1 <= Z.of_nat (length a))%Z)
    by (destruct a; [congruence | simpl length; lia]).
  set (n := Z.of_nat (length a)) in *.
  assert (Hr : (0 <= p * (n - 1) <= 100 * (n - 1))%Z) by nia.
  destruct (interp_between (sort a) n (sort_sorted a)
              ltac:(now rewrite sort_length) _ Hr) as [H1 H2].
  assert (Hj : (0 <= p * (n - 1) / 100 <= n - 1)%Z).
  { split; [apply Z.div_pos; lia | apply Z.div_le_upper_bound; lia]. }
  destruct (nth_sort_range a lo hi (Z.to_nat (p * (n - 1) / 100)) Hall
              ltac:(lia)) as [L1 _].
  destruct (nth_sort_range a lo hi
              (Z.to_nat (Z.min (p * (n - 1) / 100 + 1) (n - 1))) Hall
              ltac:(lia)) as [_ L2].
  split; lra.
Qed.

Lemma median_range (a : list Q) (lo hi : Q) :
  a <> [] -> Forall (fun q => lo <= q /\ q <= hi) a ->
  lo <= median a /\ median a <= hi.
Proof.
  intros Ha Hall. unfold median.
  assert (Hn : (0 < length a)%nat)
    by (destruct a; [congruence | simpl; lia]).
  assert (Hhalf : (length a / 2 < length a)%nat) by (apply Nat.div_lt; lia).
  destruct (nth_sort_range a lo hi (length a / 2) Hall Hhalf) as [A1 A2].
  destruct (nth_sort_range a lo hi (length a / 2 - 1) Hall ltac:(lia))
    as [B1 B2].
  destruct (Nat.even (length a)); [|split; assumption].
  set (u := nth (length a / 2 - 1) (sort a) 0) in *.
  set (v := nth (length a / 2) (sort a) 0) in *.
  assert (E : (u + v) / 2 == (u + v) * (1 # 2)) by reflexivity.
  split; lra.
Qed.

Lemma inject_Z_sub (a b : Z) : inject_Z (b - a) == inject_Z b - inject_Z a.
Proof.
  replace (b - a)%Z with (b + - a)%Z by lia.
  rewrite inject_Z_plus, inject_Z_opp. reflexivity.
Qed.

Lemma seconds_range (x : list Z) (a b : Z) :
  Forall (fun d => (a <= d <= b)%Z) x ->
  Forall (fun q => inject_Z a <= q /\ q <= inject_Z b) (seconds x).
Proof.
  intro H. unfold seconds. apply Forall_forall. intros q Hq.
  apply in_map_iff in Hq as (d & <- & Hd).
  rewrite Forall_forall in H. specialize (H d Hd).
  rewrite <- !Zle_Qle. exact H.
Qed.

(** X7 (the features stay within the range of the deltas).  When every
    delta of a non-empty series lies between [a] and [b] seconds, so do its
    20th, 50th and 80th percentiles, in this order, and its median absolute
    deviation is at most [b - a]. *)
Theorem features_in_range (x : list Z) (a b : Z) :
  x <> [] ->
  Forall (fun d => (a <= d <= b)%Z) x ->
  inject_Z a <= Low x /\ Low x <= Mid x /\ Mid x <= High x
  /\ High x <= inject_Z b
  /\ 0 <= Madm x /\ Madm x <= inject_Z (b - a).
Proof.
  intros Hx Hall. pose proof (seconds_nonempty x Hx) as Hs.
  pose proof (seconds_range x a b Hall) as Hr.
  destruct (percentiles_ordered x Hx) as [H1 H2].
  destruct (percentile_range (seconds x) _ _ 20 Hs ltac:(lia) Hr) as [L _].
  destruct (percentile_range (seconds x) _ _ 80 Hs ltac:(lia) Hr) as [_ U].
  split; [exact L|]. split; [exact H1|]. split; [exact H2|].
  split; [exact U|]. split; [now apply Madm_nonneg|].
  unfold Madm.
  destruct (median_range (seconds x) _ _ Hs Hr) as [M1 M2].
  set (m := median (seconds x)) in *.
  apply (median_range (map (fun y => Qabs (y - m)) (seconds x)) 0).
  - destruct (seconds x); [congruence | discriminate].
  - apply Forall_forall. intros q Hq. apply in_map_iff in Hq as (y & <- & Hy).
    rewrite Forall_forall in Hr. destruct (Hr y Hy) as [Y1 Y2].
    split; [apply Qabs_nonneg|].
    rewrite inject_Z_sub. apply Qabs_Qle_condition. split; lra.
Qed.

Lemma features_in_range_witness :
  50 <= Low [55; 70; 50; 62]%Z /\ High [55; 70; 50; 62]%Z <= 70
  /\ Madm [55; 70; 50; 62]%Z <= 20.
Proof.
  destruct (features_in_range [55; 70; 50; 62]%Z 50 70)
    as (H1 & _ & _ & H4 & _ & H6).
  - discriminate.
  - repeat constructor; lia.
  - split; [exact H1|]. split; [exact H4 | exact H6].
Defined.

(** [np.median] and the 50th percentile of [np.percentile] agree. *)

Lemma half_index_odd (k : nat) :
  let n := Z.of_nat (2 * k + 1) in
  (50 * (n - 1) / 100 = Z.of_nat k)%Z /\ ((50 * (n - 1)) mod 100 = 0)%Z
  /\ ((2 * k + 1) / 2 = k)%nat.
Proof.
  cbv zeta. split; [|split].
  - symmetry. apply (Z.div_unique _ _ _ 0); lia.
  - symmetry. apply (Z.mod_unique _ _ (Z.of_nat k)); lia.
  - symmetry. apply (Nat.div_unique _ _ _ 1); lia.
Qed.

Lemma half_index_even (k : nat) :
  (1 <= k)%nat ->
  let n := Z.of_nat (2 * k) in
  (50 * (n - 1) / 100 = Z.of_nat k - 1)%Z /\ ((50 * (n - 1)) mod 100 = 50)%Z
  /\ ((2 * k) / 2 = k)%nat.
Proof.
  intro Hk. cbv zeta. split; [|split].
  - symmetry. apply (Z.div_unique _ _ _ 50); lia.
  - symmetry. apply (Z.mod_unique _ _ (Z.of_nat k - 1)); lia.
  - symmetry. apply (Nat.div_unique _ _ _ 0); lia.
Qed.

Lemma percentile_50_median (a : list Q) :
  a <> [] -> percentile a 50 == median a.
Proof.
  intro Ha. unfold percentile, interp, median; cbv zeta.
  assert (Hn : (0 < length a)%nat)
    by (destruct a; [congruence | simpl; lia]).
  destruct (Nat.even (length a)) eqn:E.
  - apply Nat.even_spec in E as [k Hk].
    destruct (half_index_even k ltac:(lia)) as (H1 & H2 & H3).
    rewrite Hk, H1, H2, H3.
    replace (Z.to_nat (Z.of_nat k - 1)) with (k - 1)%nat by lia.
    replace (Z.to_nat (Z.min (Z.of_nat k - 1 + 1) (Z.of_nat (2 * k) - 1)))
      with k by lia.
    set (u := nth (k - 1) (sort a) 0). set (v := nth k (sort a) 0).
    assert (E2 : (u + v) / 2 == (u + v) * (1 # 2)) by reflexivity.
    rewrite E2.
    assert (E5 : (50 # 100) == (1 # 2)) by reflexivity.
    rewrite E5. ring.
  - assert (Ho : Nat.odd (length a) = true)
      by (rewrite <- Nat.negb_even, E; reflexivity).
    apply Nat.odd_spec in Ho as [k Hk].
    destruct (half_index_odd k) as (H1 & H2 & H3).
    rewrite Hk, H1, H2, H3. rewrite Nat2Z.id.
    set (u := nth k (sort a) 0).
    assert (E0 : (0 # 100) == 0) by reflexivity.
    rewrite E0. ring.
Qed.

(** X8 (one median).  The 50th percentile that enters the skew is the
    median from which the dispersion measures the deviations:
    [np.percentile(x, 50)] and [np.median(x)] agree on every non-empty
    series. *)
Theorem mid_is_median (x : list Z) :
  x <> [] -> Mid x == median (seconds x).
Proof.
  intro Hx. apply percentile_50_median, seconds_nonempty, Hx.
Qed.

Lemma mid_is_median_witness :
  Mid [55; 70; 50; 62]%Z == median (seconds [55; 70; 50; 62]%Z).
Proof.
  apply (mid_is_median [55; 70; 50; 62]%Z). discriminate.
Defined.

(** A conversation with equally spaced timestamps. *)






(** The order statistics depend on the values only, not on their order. *)

Lemma Qeq_same_den (a b : Q) : Qden a = Qden b -> a == b -> a = b.
Proof.
  destruct a as [na da], b as [nb db]; simpl. intros -> H.
  unfold Qeq in H; simpl in H. f_equal.
  apply Z.mul_cancel_r in H; [exact H | discriminate].
Qed.

Lemma sorted_unique (d : positive) (l1 l2 : list Q) :
  Permutation l1 l2 ->
  StronglySorted Qle l1 -> StronglySorted Qle l2 ->
  Forall (fun q => Qden q = d) l1 ->
  l1 = l2.
Proof.
  revert l2. induction l1 as [|h1 t1 IH]; intros l2 Hp S1 S2 Hd.
  - apply Permutation_nil in Hp. now subst.
  - destruct l2 as [|h2 t2];
      [apply Permutation_sym, Permutation_nil in Hp; discriminate|].
    inversion S1 as [|? ? S1' F1]; subst.
    inversion S2 as [|? ? S2' F2]; subst.
    inversion Hd as [|? ? D1 Dt]; subst.
    rewrite Forall_forall in F1, F2.
    assert (H12 : h1 <= h2).
    { assert (Hin : In h2 (h1 :: t1))
        by (eapply Permutation_in; [apply Permutation_sym, Hp | left; reflexivity]).
      destruct Hin as [-> | Hin]; [apply Qle_refl | now apply F1]. }
    assert (H21 : h2 <= h1).
    { assert (Hin : In h1 (h2 :: t2))
        by (eapply Permutation_in; [apply Hp | left; reflexivity]).
      destruct Hin as [-> | Hin]; [apply Qle_refl | now apply F2]. }
    assert (D2 : Qden h2 = Qden h1).
    { assert (Hin : In h2 (h1 :: t1))
        by (eapply Permutation_in; [apply Permutation_sym, Hp | left; reflexivity]).
      rewrite Forall_forall in Hd. exact (Hd h2 Hin). }
    assert (E : h1 = h2)
      by (apply Qeq_same_den; [now symmetry | now apply Qle_antisym]).
    subst h2. f_equal. apply IH; auto.
    now apply Permutation_cons_inv in Hp.
Qed.

Lemma sort_perm_eq (d : positive) (a b : list Q) :
  Permutation a b -> Forall (fun q => Qden q = d) a -> sort a = sort b.
Proof.
  intros Hp Hd. apply (sorted_unique d).
  - eapply perm_trans; [apply Permutation_sym, sort_perm|].
    eapply perm_trans; [exact Hp | apply sort_perm].
  - apply sort_sorted.
  - apply sort_sorted.
  - now apply sort_Forall.
Qed.

Lemma percentile_perm (d : positive) (a b : list Q) (p : Z) :
  Permutation a b -> Forall (fun q => Qden q = d) a ->
  percentile a p = percentile b p.
Proof.
  intros Hp Hd. unfold percentile.
  now rewrite (sort_perm_eq d a b Hp Hd), (Permutation_length Hp).
Qed.

Lemma median_perm (d : positive) (a b : list Q) :
  Permutation a b -> Forall (fun q => Qden q = d) a -> median a = median b.
Proof.
  intros Hp Hd. unfold median.
  now rewrite (sort_perm_eq d a b Hp Hd), (Permutation_length Hp).
Qed.

Lemma seconds_den (x : list Z) : Forall (fun q => Qden q = 1%positive) (seconds x).
Proof.
  apply Forall_forall. intros q Hq. apply in_map_iff in Hq as (z & <- & _).
  reflexivity.
Qed.

(** X10 (the features ignore the order of the deltas).  Two delta series
    with the same values in a different order have the same percentiles,
    the same skew and the same median absolute deviation. *)
Theorem features_order_independent (x y : list Z) :
  Permutation x y ->
  Low x = Low y /\ Mid x = Mid y /\ High x = High y
  /\ Skew x = Skew y /\ Madm x = Madm y.
Proof.
  intro Hp.
  assert (Hs : Permutation (seconds x) (seconds y))
    by (apply Permutation_map, Hp).
  pose proof (seconds_den x) as Hd.
  assert (HL : Low x = Low y) by (apply (percentile_perm 1); assumption).
  assert (HM : Mid x = Mid y) by (apply (percentile_perm 1); assumption).
  assert (HH : High x = High y) by (apply (percentile_perm 1); assumption).
  split; [exact HL|]. split; [exact HM|]. split; [exact HH|]. split.
  - unfold Skew, BowleyNum, BowleyDen. now rewrite HL, HM, HH.
  - unfold Madm. rewrite <- (median_perm 1 _ _ Hs Hd).
    set (m := median (seconds x)).
    apply (median_perm (1 * Qden m)).
    + apply Permutation_map, Hs.
    + apply Forall_forall. intros q Hq.
      apply in_map_iff in Hq as (z & <- & Hz).
      rewrite Forall_forall in Hd. specialize (Hd z Hz).
      destruct z as [nz dz], m as [nm dm]; simpl in *. now subst.
Qed.

Lemma features_order_independent_witness :
  Skew [55; 70; 50; 62]%Z = Skew [70; 55; 50; 62]%Z
  /\ Madm [55; 70; 50; 62]%Z = Madm [70; 55; 50; 62]%Z.
Proof.
  destruct (features_order_independent [55; 70; 50; 62]%Z [70; 55; 50; 62]%Z)
    as (_ & _ & _ & H4 & H5); [apply perm_swap|].
  split; assumption.
Defined.

End PipelineFacts.

(** * Properties of sub_count.py *)

Module SubCountFacts.

Import SubCount.

Local Open Scope string_scope.

(** ** Reading the third column *)

Lemma column2_None (rows : list (list string)) :
  column2 rows = None <-> exists row, In row rows /\ (length row < 3)%nat.
Proof.
  induction rows as [|row rows IH]; cbn [column2].
  - split; [discriminate | intros (row & [] & _)].
  - destruct (nth_error row 2) as [x|] eqn:E.
    + assert (Hlen : (2 < length row)%nat)
        by (apply nth_error_Some; congruence).
      destruct (column2 rows) as [xs|].
      * split; [discriminate|]. intros (r & [<- | Hr] & Hl); [lia|].
        assert (X : Some xs = None) by (apply IH; exists r; auto).
        discriminate X.
      * split; [|reflexivity]. intros _.
        destruct (proj1 IH eq_refl) as (r & Hr & Hl).
        exists r. split; [right; exact Hr | exact Hl].
    + apply nth_error_None in E. split; [|reflexivity].
      intros _. exists row. split; [left; reflexivity | lia].
Qed.

Lemma column2_Some (rows : list (list string)) (lines : list string) :
  column2 rows = Some lines ->
  length lines = length rows
  /\ forall i row, nth_error rows i = Some row ->
       nth_error lines i = nth_error row 2.
Proof.
  revert lines. induction rows as [|row rows IH]; cbn [column2]; intros lines H.
  - injection H as <-. split; [reflexivity|]. intros [|i] row'; discriminate.
  - destruct (nth_error row 2) as [x|] eqn:E; [|discriminate].
    destruct (column2 rows) as [xs|]; [|discriminate].
    injection H as <-. destruct (IH xs eq_refl) as [Hl Hn].
    split; [simpl; congruence|].
    intros [|i] row' Hr; simpl in *.
    + injection Hr as <-. now rewrite E.
    + now apply Hn.
Qed.

(** X11 (a short row aborts the count).  [count_subdomains] raises (the
    [IndexError] of [row[2]]) exactly when some row of the file has fewer
    than three fields, an empty line included; it then prints nothing.
    Otherwise the lines it works on are the third fields of the rows, in
    order. *)
Theorem count_subdomains_error (rows : list (list string))
        (keywords : list string) :
  (count_subdomains rows keywords = None
   <-> exists row, In row rows /\ (length row < 3)%nat)
  /\ (forall out, count_subdomains rows keywords = Some out ->
        exists lines,
          column2 rows = Some lines
          /\ length lines = length rows
          /\ (forall i row, nth_error rows i = Some row ->
                nth_error lines i = nth_error row 2)
          /\ out = report (collect keywords lines)).
Proof.
  unfold count_subdomains. split.
  - rewrite <- column2_None. destruct (column2 rows); split; congruence.
  - intros out H. destruct (column2 rows) as [lines|] eqn:E; [|discriminate].
    injection H as <-. exists lines.
    destruct (column2_Some rows lines E) as [H1 H2]. auto.
Qed.

Lemma count_subdomains_error_witness :
  count_subdomains (sample_rows ++ [[]]) ignore_list = None
  /\ count_subdomains [["t"; "1.1.1.1"]] ignore_list = None.
Proof.
  split.
  - apply (count_subdomains_error (sample_rows ++ [[]]) ignore_list).
    exists []. split; [|simpl; lia].
    apply in_or_app. right. left. reflexivity.
  - apply (count_subdomains_error [["t"; "1.1.1.1"]] ignore_list).
    exists ["t"; "1.1.1.1"]. split; [left; reflexivity | simpl; lia].
Defined.

(** ** Strings *)

Lemma str_length_app (s t : string) :
  String.length (s ++ t) = (String.length s + String.length t)%nat.
Proof. induction s as [|c s IH]; simpl; congruence. Qed.

Lemma substring_0_0 (s : string) : substring 0 0 s = "".
Proof. destruct s; reflexivity. Qed.

Lemma substring_full (s : string) : substring 0 (String.length s) s = s.
Proof. induction s as [|c s IH]; simpl; congruence. Qed.

Lemma substring_app_l (s t : string) :
  substring 0 (String.length s) (s ++ t) = s.
Proof.
  induction s as [|c s IH]; simpl; [apply substring_0_0 | congruence].
Qed.

Lemma substring_app_r (s t : string) (m : nat) :
  substring (String.length s) m (s ++ t) = substring 0 m t.
Proof. induction s as [|c s IH]; simpl; [reflexivity | exact IH]. Qed.

Lemma substring_cut (s : string) (h : nat) :
  (h <= String.length s)%nat ->
  s = substring 0 h s ++ substring h (String.length s - h) s.
Proof.
  revert h. induction s as [|c s IH]; intros h Hh.
  - simpl in Hh. assert (h = 0%nat) by lia. subst. reflexivity.
  - destruct h as [|h].
    + rewrite substring_0_0, Nat.sub_0_r, substring_full. reflexivity.
    + simpl in *. f_equal. apply IH. lia.
Qed.

(** X12 (doubled names).  A line that is some text written twice is
    replaced by that text; any other line is left as it is.  In
    particular the text written twice is recovered from its doubling. *)
Theorem dedupe_doubled (s line : string) :
  dedupe (s ++ s) = s
  /\ (dedupe line = line \/ line = dedupe line ++ dedupe line).
Proof.
  split.
  - unfold dedupe. rewrite str_length_app.
    replace (String.length s + String.length s)%nat
      with (String.length s * 2)%nat by lia.
    rewrite Nat.Div0.mod_mul, Nat.div_mul by lia.
    replace (String.length s * 2 - String.length s)%nat
      with (String.length s) by lia.
    rewrite substring_app_l, substring_app_r, substring_full.
    rewrite String.eqb_refl. reflexivity.
  - unfold dedupe.
    destruct ((String.length line mod 2 =? 0)%nat
              && (substring 0 (String.length line / 2) line
                  =? substring (String.length line / 2)
                       (String.length line - String.length line / 2) line))
      eqn:E; [right | left; reflexivity].
    apply andb_prop in E as [_ E]. apply String.eqb_eq in E.
    rewrite E at 2. apply substring_cut.
    apply Nat.Div0.div_le_upper_bound. lia.
Qed.

(** ** Splitting at the dots *)

Lemma split_from_concat (sep : ascii) (s : string) :
  String.concat (String sep "") (fst (split_from sep s) :: snd (split_from sep s))
  = s.
Proof.
  induction s as [|c s IH]; [reflexivity|].
  simpl split_from. destruct (split_from sep s) as [p ps]. simpl fst in *.
  simpl snd in *.
  destruct (Ascii.eqb c sep) eqn:E.
  - apply Ascii.eqb_eq in E. subst c. simpl fst. simpl snd.
    change (String.concat (String sep "") ("" :: p :: ps))
      with ("" ++ String sep "" ++ String.concat (String sep "") (p :: ps)).
    rewrite IH. reflexivity.
  - simpl fst. simpl snd. destruct ps as [|q ps]; simpl in *; congruence.
Qed.

Lemma split_from_clean (sep : ascii) (s : string) :
  Forall (fun p => ~ In sep (list_ascii_of_string p))
         (fst (split_from sep s) :: snd (split_from sep s)).
Proof.
  induction s as [|c s IH]; [repeat constructor; auto|].
  simpl split_from. destruct (split_from sep s) as [p ps]. simpl fst in *.
  simpl snd in *. inversion IH as [|? ? Hp Hps]; subst.
  destruct (Ascii.eqb c sep) eqn:E; simpl fst; simpl snd.
  - constructor; [auto | exact IH].
  - constructor; [|exact Hps]. apply Ascii.eqb_neq in E.
    simpl. intros [H | H]; [congruence | contradiction].
Qed.

Lemma split_from_count (sep : ascii) (s : string) :
  length (snd (split_from sep s))
  = count_occ ascii_dec (list_ascii_of_string s) sep.
Proof.
  induction s as [|c s IH]; [reflexivity|].
  simpl split_from. destruct (split_from sep s) as [p ps]. simpl snd in *.
  simpl list_ascii_of_string. simpl count_occ.
  destruct (Ascii.eqb c sep) eqn:E; simpl snd.
  - apply Ascii.eqb_eq in E. subst. destruct (ascii_dec sep sep); [|congruence].
    simpl. congruence.
  - apply Ascii.eqb_neq in E. destruct (ascii_dec c sep); [congruence | exact IH].
Qed.

Lemma split_join (sep : ascii) (p : string) (ps : list string) :
  Forall (fun q => ~ In sep (list_ascii_of_string q)) (p :: ps) ->
  split_from sep (String.concat (String sep "") (p :: ps)) = (p, ps).
Proof.
  revert p. induction ps as [|q ps IH]; intros p Hall.
  - simpl. inversion Hall as [|? ? Hp _]; subst. clear Hall.
    induction p as [|c p IHp]; [reflexivity|].
    simpl in *. rewrite IHp by tauto.
    destruct (Ascii.eqb c sep) eqn:E; [|reflexivity].
    apply Ascii.eqb_eq in E. subst. tauto.
  - inversion Hall as [|? ? Hp Hrest]; subst.
    change (String.concat (String sep "") (p :: q :: ps))
      with (p ++ String sep "" ++ String.concat (String sep "") (q :: ps)).
    specialize (IH q Hrest).
    set (rest := String.concat (String sep "") (q :: ps)) in *.
    clear Hall Hrest.
    induction p as [|c p IHp].
    + simpl. rewrite IH. now rewrite Ascii.eqb_refl.
    + simpl in *. rewrite IHp by tauto.
      destruct (Ascii.eqb c sep) eqn:E; [|reflexivity].
      apply Ascii.eqb_eq in E. subst. tauto.
Qed.

(** X13 (split and join).  Splitting a text at the dots and joining the
    parts with dots gives the text back; no part contains a dot; there is
    one part more than there are dots; and splitting the dotted join of
    dot-free parts gives those parts back. *)
Theorem split_join_roundtrip (s : string) (p : string) (ps : list string) :
  String.concat "." (split "." s) = s
  /\ Forall (fun q => ~ In "."%char (list_ascii_of_string q)) (split "." s)
  /\ length (split "." s)
     = S (count_occ ascii_dec (list_ascii_of_string s) "."%char)
  /\ (Forall (fun q => ~ In "."%char (list_ascii_of_string q)) (p :: ps) ->
      split "." (String.concat "." (p :: ps)) = p :: ps).
Proof.
  unfold split. split; [|split; [|split]].
  - pose proof (split_from_concat "." s) as H.
    destruct (split_from "." s); exact H.
  - pose proof (split_from_clean "." s) as H.
    destruct (split_from "." s); exact H.
  - pose proof (split_from_count "." s) as H.
    destruct (split_from "." s); simpl in *. congruence.
  - intro H. now rewrite (split_join "." p ps H).
Qed.

Lemma split_join_roundtrip_witness :
  split "." (String.concat "." ["www"; "example"; "com"])
  = ["www"; "example"; "com"].
Proof.
  apply (split_join_roundtrip "" "www" ["example"; "com"]).
  repeat constructor; simpl; intuition discriminate.
Defined.

(** ** The dictionary of sets *)

Lemma existsb_eqb_In (x : string) (l : list string) :
  existsb (String.eqb x) l = true <-> In x l.
Proof.
  rewrite existsb_exists. split.
  - intros (y & Hy & E). apply String.eqb_eq in E. now subst.
  - intro H. exists x. split; [exact H | apply String.eqb_refl].
Qed.

Lemma set_add_In (x y : string) (l : list string) :
  In y (set_add x l) <-> y = x \/ In y l.
Proof.
  unfold set_add. destruct (existsb (String.eqb x) l) eqn:E.
  - apply existsb_eqb_In in E. split; [auto | intros [-> | H]; auto].
  - rewrite in_app_iff. simpl. intuition.
Qed.

Lemma set_add_NoDup (x : string) (l : list string) :
  NoDup l -> NoDup (set_add x l).
Proof.
  intro H. unfold set_add. destruct (existsb (String.eqb x) l) eqn:E; [exact H|].
  assert (Hx : ~ In x l).
  { intro Hin. apply existsb_eqb_In in Hin. congruence. }
  apply NoDup_rev in H. rewrite <- (rev_involutive (l ++ [x])%list).
  apply NoDup_rev. rewrite rev_app_distr. simpl. constructor; [|exact H].
  now rewrite <- in_rev.
Qed.

Lemma set_add_present (x : string) (l : list string) :
  In x l -> set_add x l = l.
Proof.
  intro H. unfold set_add. apply existsb_eqb_In in H. now rewrite H.
Qed.

Lemma set_add_length (x : string) (l : list string) :
  (length l <= length (set_add x l) <= S (length l))%nat
  /\ set_add x l <> [].
Proof.
  unfold set_add. destruct (existsb (String.eqb x) l) eqn:E.
  - split; [lia|]. apply existsb_eqb_In in E. destruct l; [destruct E | discriminate].
  - rewrite length_app. simpl. split; [lia|]. destruct l; discriminate.
Qed.

Lemma listed_cons (k v k0 : string) (s0 : list string) (d : Domains) :
  listed k v ((k0, s0) :: d) <-> (k = k0 /\ In v s0) \/ listed k v d.
Proof.
  unfold listed. simpl. split.
  - intros (subs & [X | Hin] & Hv).
    + inversion X; subst. left. auto.
    + right. exists subs. auto.
  - intros [[-> Hv] | (subs & Hin & Hv)].
    + exists s0. auto.
    + exists subs. auto.
Qed.

Lemma listed_nil (k v : string) : ~ listed k v [].
Proof. intros (subs & [] & _). Qed.

Lemma dict_add_listed (k v k' v' : string) (d : Domains) :
  listed k' v' (dict_add k v d) <-> (k' = k /\ v' = v) \/ listed k' v' d.
Proof.
  induction d as [|[k0 s0] d IH]; simpl.
  - rewrite listed_cons. simpl. pose proof (listed_nil k' v'). intuition.
  - destruct (String.eqb k k0) eqn:E.
    + apply String.eqb_eq in E. subst k0.
      rewrite !listed_cons, set_add_In. intuition.
    + rewrite !listed_cons, IH. intuition.
Qed.

Lemma dict_add_keys (k v : string) (d : Domains) :
  map fst (dict_add k v d)
  = if existsb (String.eqb k) (map fst d) then map fst d else (map fst d ++ [k])%list.
Proof.
  induction d as [|[k0 s0] d IH]; simpl; [reflexivity|].
  destruct (String.eqb k k0); simpl; [reflexivity|].
  rewrite IH. destruct (existsb (String.eqb k) (map fst d)); reflexivity.
Qed.

Lemma dict_add_well_formed (k v : string) (d : Domains) :
  well_formed d -> well_formed (dict_add k v d).
Proof.
  intros [Hk Hv]. split.
  - rewrite dict_add_keys.
    destruct (existsb (String.eqb k) (map fst d)) eqn:E; [exact Hk|].
    assert (Hx : ~ In k (map fst d)).
    { intro Hin. apply existsb_eqb_In in Hin. congruence. }
    apply NoDup_rev in Hk. rewrite <- (rev_involutive (map fst d ++ [k])%list).
    apply NoDup_rev. rewrite rev_app_distr. simpl. constructor; [|exact Hk].
    now rewrite <- in_rev.
  - clear Hk. induction d as [|[k0 s0] d IH]; simpl.
    + repeat constructor; [intros [] | discriminate].
    + inversion Hv as [|? ? [H1 H2] Hrest]; subst. simpl in *.
      destruct (String.eqb k k0).
      * constructor; [|exact Hrest]. simpl.
        split; [now apply set_add_NoDup | apply set_add_length].
      * constructor; [simpl; auto | now apply IH].
Qed.

Lemma dict_add_present (k v : string) (d : Domains) :
  NoDup (map fst d) -> listed k v d -> dict_add k v d = d.
Proof.
  induction d as [|[k0 s0] d IH]; simpl; intros Hk (subs & Hin & Hv).
  - destruct Hin.
  - inversion Hk as [|? ? Hnot Hk']; subst.
    destruct (String.eqb k k0) eqn:E.
    + apply String.eqb_eq in E. subst k0.
      destruct Hin as [X | Hin].
      * injection X as <-. now rewrite set_add_present.
      * exfalso. apply Hnot. apply in_map_iff. exists (k, subs). auto.
    + destruct Hin as [X | Hin].
      * injection X as <- <-. rewrite String.eqb_refl in E. discriminate.
      * f_equal. apply IH; [exact Hk'|]. exists subs. auto.
Qed.

Lemma dict_add_total (k v : string) (d : Domains) :
  (list_sum (map (fun e => length (snd e)) (dict_add k v d))
   <= S (list_sum (map (fun e => length (snd e)) d)))%nat.
Proof.
  induction d as [|[k0 s0] d IH]; simpl; [lia|].
  destruct (String.eqb k k0); simpl.
  - pose proof (set_add_length v s0). lia.
  - lia.
Qed.

(** ** The loop *)

Lemma visit_contribution (keywords : list string) (d : Domains) (line : string) :
  visit keywords d line
  = match contribution keywords line with
    | Some (k, v) => dict_add k v d
    | None => d
    end.
Proof.
  unfold visit, contribution; cbv zeta.
  destruct (ignored keywords (dedupe (strip line))); [reflexivity|].
  destruct (2 <? length (split "." (dedupe (strip line))))%nat; reflexivity.
Qed.

Lemma fold_visit_spec (keywords lines : list string) (acc : Domains) :
  well_formed acc ->
  well_formed (fold_left (visit keywords) lines acc)
  /\ (forall k v,
        listed k v (fold_left (visit keywords) lines acc)
        <-> listed k v acc
            \/ exists line, In line lines
                             /\ contribution keywords line = Some (k, v))
  /\ (list_sum (map (fun e => length (snd e))
                    (fold_left (visit keywords) lines acc))
      <= list_sum (map (fun e => length (snd e)) acc) + length lines)%nat.
Proof.
  revert acc. induction lines as [|line lines IH]; intros acc Hwf; simpl.
  - split; [exact Hwf|]. split; [|lia].
    intros k v. split; [auto | intros [H | (l & [] & _)]; exact H].
  - assert (Hwf' : well_formed (visit keywords acc line)).
    { rewrite visit_contribution.
      destruct (contribution keywords line) as [[k v]|]; [|exact Hwf].
      now apply dict_add_well_formed. }
    destruct (IH _ Hwf') as (W & L & T). split; [exact W|]. split.
    + intros k v. rewrite L. rewrite visit_contribution.
      destruct (contribution keywords line) as [[k0 v0]|] eqn:C.
      * rewrite dict_add_listed. split.
        -- intros [[[-> ->] | H] | (l & Hl & Cl)].
           ++ right. exists line. auto.
           ++ left. exact H.
           ++ right. exists l. auto.
        -- intros [H | (l & [<- | Hl] & Cl)].
           ++ left. right. exact H.
           ++ left. left. rewrite C in Cl. injection Cl as <- <-. auto.
           ++ right. exists l. auto.
      * split.
        -- intros [H | (l & Hl & Cl)]; [left; exact H | right; exists l; auto].
        -- intros [H | (l & [<- | Hl] & Cl)];
             [left; exact H | congruence | right; exists l; auto].
    + eapply Nat.le_trans; [exact T|].
      rewrite visit_contribution.
      destruct (contribution keywords line) as [[k0 v0]|]; [|lia].
      pose proof (dict_add_total k0 v0 acc). lia.
Qed.

Lemma well_formed_nil : well_formed [].
Proof. split; constructor. Qed.

(** ** Keywords *)

Lemma prefix_app (kw line : string) :
  prefix kw line = true <-> exists post, line = kw ++ post.
Proof.
  revert line. induction kw as [|a kw IH]; intro line.
  - destruct line; simpl; split; eauto.
  - destruct line as [|b line]; simpl.
    + split; [discriminate | intros (post & H); discriminate].
    + destruct (ascii_dec a b) as [<- | NE].
      * rewrite IH. split; intros (post & H); exists post; congruence.
      * split; [discriminate | intros (post & H); congruence].
Qed.

Lemma contains_spec (kw line : string) :
  contains kw line = true <-> exists pre post, line = pre ++ kw ++ post.
Proof.
  induction line as [|c rest IH]; cbn [contains]; rewrite orb_true_iff.
  - split.
    + intros [H | H]; [|discriminate].
      apply prefix_app in H as (post & H). exists "", post. exact H.
    + intros (pre & post & H). left.
      destruct pre; [|discriminate]. apply prefix_app. exists post. exact H.
  - rewrite IH, prefix_app. split.
    + intros [(post & H) | (pre & post & H)].
      * exists "", post. exact H.
      * exists (String c pre), post. simpl. congruence.
    + intros ([|c' pre] & post & H).
      * left. exists post. exact H.
      * right. simpl in H. injection H as _ H. exists pre, post. exact H.
Qed.

Lemma ignored_spec (keywords : list string) (line : string) :
  ignored keywords line = true
  <-> exists kw pre post, In kw keywords /\ line = pre ++ kw ++ post.
Proof.
  unfold ignored. rewrite existsb_exists. split.
  - intros (kw & Hin & H). apply contains_spec in H as (pre & post & H).
    exists kw, pre, post. auto.
  - intros (kw & pre & post & Hin & H). exists kw. split; [exact Hin|].
    apply contains_spec. exists pre, post. exact H.
Qed.

Lemma fold_visit_fixed (keywords lines : list string) (d : Domains) :
  well_formed d ->
  (forall line k v, In line lines ->
     contribution keywords line = Some (k, v) -> listed k v d) ->
  fold_left (visit keywords) lines d = d.
Proof.
  intros Hwf. induction lines as [|line lines IH]; intro H; [reflexivity|].
  simpl. rewrite visit_contribution.
  destruct (contribution keywords line) as [[k v]|] eqn:C.
  - rewrite dict_add_present.
    + apply IH. intros l k' v' Hl. apply H. now right.
    + apply Hwf.
    + apply (H line); [now left | exact C].
  - apply IH. intros l k' v' Hl. apply H. now right.
Qed.

(** X14 (the ignore list).  A line is skipped exactly when, once stripped
    and de-duplicated, it contains one of the keywords as a substring;
    skipped lines could as well be absent from the file; and an empty
    keyword in the list makes the script count nothing at all. *)
Theorem keywords_skip (keywords lines : list string) (line : string) :
  (ignored keywords line = true
   <-> exists kw pre post, In kw keywords /\ line = pre ++ kw ++ post)
  /\ collect keywords lines
     = collect keywords
         (filter (fun l => negb (ignored keywords (dedupe (strip l)))) lines)
  /\ (In "" keywords -> collect keywords lines = []).
Proof.
  split; [apply ignored_spec|]. split.
  - unfold collect. generalize (@nil (string * list string)) as acc.
    induction lines as [|l lines IH]; intro acc; [reflexivity|].
    simpl. destruct (ignored keywords (dedupe (strip l))) eqn:E; simpl.
    + unfold visit at 2. cbv zeta. rewrite E. apply IH.
    + apply IH.
  - intro Hin. unfold collect. apply fold_visit_fixed; [apply well_formed_nil|].
    intros l k v _ C. unfold contribution in C; cbv zeta in C.
    assert (E : ignored keywords (dedupe (strip l)) = true).
    { apply ignored_spec. exists "", "", (dedupe (strip l)). auto. }
    rewrite E in C. discriminate.
Qed.

Lemma keywords_skip_witness :
  collect [""] ["www.example.com"; "mail.example.com"] = [].
Proof.
  apply (keywords_skip [""] ["www.example.com"; "mail.example.com"] "").
  left. reflexivity.
Defined.

(** ** What is counted *)

Lemma last_two (A : Type) (parts : list A) :
  (2 <= length parts)%nat -> exists pre a b, parts = (pre ++ [a; b])%list.
Proof.
  intro H.
  destruct (@exists_last _ parts) as (l & b & ->);
    [destruct parts; [simpl in H; lia | discriminate]|].
  rewrite length_app in H. simpl in H.
  destruct (@exists_last _ l) as (pre & a & ->);
    [destruct l; [simpl in H; lia | discriminate]|].
  exists pre, a, b. now rewrite <- app_assoc.
Qed.

Lemma root_domain_last (pre : list string) (a b : string) :
  root_domain (pre ++ [a; b]) = a ++ "." ++ b.
Proof.
  unfold root_domain. rewrite length_app. simpl length.
  replace (length pre + 2 - 2)%nat with (length pre) by lia.
  rewrite skipn_app, skipn_all, Nat.sub_diag. reflexivity.
Qed.

Lemma contribution_shape (keywords : list string) (line k v : string) :
  contribution keywords line = Some (k, v)
  <-> ignored keywords (dedupe (strip line)) = false
      /\ exists mid a b,
           split "." (dedupe (strip line)) = v :: (mid ++ [a; b])%list
           /\ k = a ++ "." ++ b.
Proof.
  unfold contribution; cbv zeta.
  destruct (ignored keywords (dedupe (strip line)));
    [split; [discriminate | intros [? _]; discriminate]|].
  set (parts := split "." (dedupe (strip line))).
  destruct (2 <? length parts)%nat eqn:E.
  - apply Nat.ltb_lt in E.
    destruct (last_two _ parts ltac:(lia)) as (pre & a & b & Hp).
    rewrite Hp, root_domain_last.
    destruct pre as [|v0 mid];
      [rewrite Hp in E; simpl in E; lia|].
    simpl hd. split.
    + intro H. injection H as <- <-. split; [reflexivity|].
      exists mid, a, b. auto.
    + intros [_ (mid' & a' & b' & H1 & ->)].
      change ((v0 :: mid) ++ [a; b])%list with (v0 :: (mid ++ [a; b]))%list in H1.
      injection H1 as <- H1.
      apply (f_equal (@rev string)) in H1. rewrite !rev_app_distr in H1.
      simpl in H1. injection H1 as <- <- _. reflexivity.
  - apply Nat.ltb_ge in E. split; [discriminate|].
    intros [_ (mid & a & b & H1 & _)]. rewrite H1 in E.
    simpl in E. rewrite length_app in E. simpl in E. lia.
Qed.

(** X15 (what the script counts).  After the loop the dictionary has
    distinct keys and stores under each key a non-empty set without
    repetition; a subdomain [v] is stored under a domain [k] exactly when
    some line, stripped and de-duplicated, contains no keyword, has at
    least three dot-separated labels, [v] is its first label and [k] is
    its last two labels joined by a dot. *)
Theorem collect_spec (keywords lines : list string) (k v : string) :
  well_formed (collect keywords lines)
  /\ (listed k v (collect keywords lines)
      <-> exists line,
            In line lines
            /\ ignored keywords (dedupe (strip line)) = false
            /\ exists mid a b,
                 split "." (dedupe (strip line)) = v :: (mid ++ [a; b])%list
                 /\ k = a ++ "." ++ b).
Proof.
  destruct (fold_visit_spec keywords lines [] well_formed_nil) as (W & L & _).
  split; [exact W|]. unfold collect. rewrite L. split.
  - intros [H | (line & Hl & C)]; [destruct (listed_nil _ _ H)|].
    exists line. split; [exact Hl|]. now apply contribution_shape.
  - intros (line & Hl & H). right. exists line. split; [exact Hl|].
    now apply contribution_shape.
Qed.

Lemma collect_spec_witness :
  listed "example.org" "a"
         (collect ignore_list ["www.example.com"; "a.b.example.org"]).
Proof.
  apply (collect_spec ignore_list ["www.example.com"; "a.b.example.org"]).
  exists "a.b.example.org". split; [right; left; reflexivity|].
  split; [reflexivity|]. exists ["b"], "example", "org". split; reflexivity.
Defined.

Lemma column2_app (r1 r2 : list (list string)) :
  column2 (r1 ++ r2)
  = match column2 r1, column2 r2 with
    | Some a, Some b => Some (a ++ b)%list
    | _, _ => None
    end.
Proof.
  induction r1 as [|row r1 IH]; cbn [column2 app].
  - destruct (column2 r2); reflexivity.
  - rewrite IH. destruct (nth_error row 2); [|reflexivity].
    destruct (column2 r1); [|reflexivity].
    destruct (column2 r2); reflexivity.
Qed.

(** X16 (repetitions do not count).  Lines that already occurred earlier in
    the file change nothing: appending them leaves the dictionary, hence
    the printed counts, as they are; in particular a file written twice
    prints what the file prints. *)
Theorem repeated_lines (keywords lines lines' : list string)
        (rows : list (list string)) :
  incl lines' lines ->
  collect keywords (lines ++ lines') = collect keywords lines
  /\ count_subdomains (rows ++ rows) keywords = count_subdomains rows keywords.
Proof.
  assert (G : forall l l', incl l' l ->
                collect keywords (l ++ l') = collect keywords l).
  { intros l l' Hincl. unfold collect. rewrite fold_left_app.
    destruct (fold_visit_spec keywords l [] well_formed_nil) as (W & L & _).
    apply fold_visit_fixed; [exact W|].
    intros line k v Hl C. apply L. right. exists line. split; [|exact C].
    now apply Hincl. }
  intro Hincl. split; [now apply G|].
  unfold count_subdomains. rewrite column2_app.
  destruct (column2 rows) as [ls|]; [|reflexivity].
  rewrite G; [reflexivity | apply incl_refl].
Qed.

Lemma repeated_lines_witness :
  count_subdomains (sample_rows ++ sample_rows) ignore_list
  = count_subdomains sample_rows ignore_list.
Proof.
  apply (repeated_lines ignore_list [] [] sample_rows). apply incl_refl.
Defined.

(** ** The printed lines *)

Lemma total_bounds (d : Domains) :
  Forall (fun e => NoDup (snd e) /\ snd e <> []) d ->
  (length d <= list_sum (map (fun e => length (snd e)) d))%nat
  /\ forall e, In e d ->
       (1 <= length (snd e)
        <= list_sum (map (fun e => length (snd e)) d))%nat.
Proof.
  induction 1 as [|e d [_ He] Hd [IH1 IH2]]; simpl.
  - split; [lia | intros e []].
  - assert (1 <= length (snd e))%nat
      by (destruct (snd e); [congruence | simpl; lia]).
    split; [lia|]. intros e' [<- | Hin]; [lia|].
    specialize (IH2 e' Hin). lia.
Qed.

Lemma split_clean (s : string) :
  Forall (fun q => ~ In "."%char (list_ascii_of_string q)) (split "." s).
Proof.
  unfold split. pose proof (split_from_clean "." s) as H.
  destruct (split_from "." s); exact H.
Qed.

(** X17 (the printed lines).  The script prints one line per domain, each
    domain once; every printed line reads [<n> <a>.<b>] where [a] and [b]
    are dot-free labels and [n], the number of distinct first labels seen
    with that domain, is at least 1 and at most the number of lines read;
    the counts add up to at most the number of lines read, and so does
    the number of printed lines. *)
Theorem report_lines (keywords lines : list string) (out_line : string) :
  let d := collect keywords lines in
  length (report d) = length d
  /\ NoDup (map fst d)
  /\ (length d <= list_sum (map (fun e => length (snd e)) d) <= length lines)%nat
  /\ (In out_line (report d) ->
      exists n a b,
        out_line = show_nat n ++ " " ++ a ++ "." ++ b
        /\ In (a ++ "." ++ b) (map fst d)
        /\ (1 <= n <= length lines)%nat
        /\ ~ In "."%char (list_ascii_of_string a)
        /\ ~ In "."%char (list_ascii_of_string b)).
Proof.
  intro d.
  destruct (fold_visit_spec keywords lines [] well_formed_nil)
    as ([Wk Wv] & L & T).
  fold (collect keywords lines) in Wk, Wv, L, T. fold d in Wk, Wv, L, T.
  simpl in T. destruct (total_bounds d Wv) as [B1 B2].
  split; [unfold report; apply length_map|]. split; [exact Wk|].
  split; [lia|].
  intro Hin. unfold report in Hin. apply in_map_iff in Hin as (e & <- & He).
  destruct (B2 e He) as [N1 N2].
  destruct (snd e) as [|v subs] eqn:Ev; [simpl in N1; lia|].
  assert (Hl : listed (fst e) v d).
  { exists (snd e). split; [destruct e; exact He | rewrite Ev; left; reflexivity]. }
  apply L in Hl as [Hl | (line & Hline & C)]; [destruct (listed_nil _ _ Hl)|].
  apply contribution_shape in C as [_ (mid & a & b & Hs & Hk)].
  pose proof (split_clean (dedupe (strip line))) as Hc.
  rewrite Hs in Hc. rewrite Forall_forall in Hc.
  exists (length (v :: subs)), a, b. rewrite Hk.
  split; [reflexivity|]. split.
  - rewrite <- Hk. apply in_map. exact He.
  - split; [lia|]. split; apply Hc; right; apply in_or_app;
      right; simpl; auto.
Qed.

Lemma report_lines_witness :
  exists n a b,
    "2 example.com" = show_nat n ++ " " ++ a ++ "." ++ b
    /\ (1 <= n <= 3)%nat.
Proof.
  destruct (report_lines ignore_list
              ["www.example.com"; "mail.example.com"; "example.com"]
              "2 example.com") as (_ & _ & _ & H).
  destruct H as (n & a & b & H1 & _ & H2 & _); [left; reflexivity|].
  exists n, a, b. split; [exact H1 | exact H2].
Defined.

(** ** Surrounding white space *)

Lemma lstrip_blank (ws s : string) :
  forallb is_space (list_ascii_of_string ws) = true ->
  lstrip (ws ++ s) = lstrip s.
Proof.
  induction ws as [|c ws IH]; simpl; [reflexivity|].
  intro H. apply andb_prop in H as [Hc Hws]. rewrite Hc. now apply IH.
Qed.

Lemma lstrip_all_blank (ws : string) :
  forallb is_space (list_ascii_of_string ws) = true -> lstrip ws = "".
Proof.
  induction ws as [|c ws IH]; simpl; [reflexivity|].
  intro H. apply andb_prop in H as [Hc Hws]. rewrite Hc. now apply IH.
Qed.

Lemma rstrip_blank (ws : string) :
  forallb is_space (list_ascii_of_string ws) = true -> rstrip ws = "".
Proof.
  induction ws as [|c ws IH]; simpl; [reflexivity|].
  intro H. apply andb_prop in H as [Hc Hws]. now rewrite IH, Hc.
Qed.

Lemma rstrip_app_blank (s ws : string) :
  forallb is_space (list_ascii_of_string ws) = true ->
  rstrip (s ++ ws) = rstrip s.
Proof.
  intro H. induction s as [|c s IH]; simpl; [now apply rstrip_blank|].
  now rewrite IH.
Qed.

Lemma strip_padded (ws1 ws2 line : string) :
  forallb is_space (list_ascii_of_string ws1) = true ->
  forallb is_space (list_ascii_of_string ws2) = true ->
  strip (ws1 ++ line ++ ws2) = strip line.
Proof.
  intros H1 H2. unfold strip. rewrite lstrip_blank by exact H1.
  induction line as [|c line IH]; simpl.
  - rewrite lstrip_all_blank by exact H2. reflexivity.
  - destruct (is_space c); [exact IH|].
    simpl. now rewrite rstrip_app_blank.
Qed.

Lemma strip_clean (line : string) :
  (forall c rest, strip line = String c rest -> is_space c = false)
  /\ strip (strip line) = strip line.
Proof.
  assert (L : forall s c rest, lstrip s = String c rest -> is_space c = false).
  { induction s as [|a s IH]; simpl; [discriminate|].
    destruct (is_space a) eqn:E; [exact IH|].
    intros c rest H. injection H as <- _. exact E. }
  assert (R : forall s c rest,
            (forall c' r', s = String c' r' -> is_space c' = false) ->
            rstrip s = String c rest -> is_space c = false).
  { intros [|a s] c rest Hs; simpl; [discriminate|].
    assert (Ha : is_space a = false) by (eapply Hs; reflexivity).
    rewrite Ha. destruct (rstrip s); intro H; injection H as <- _; exact Ha. }
  assert (RR : forall s, rstrip (rstrip s) = rstrip s).
  { induction s as [|a s IH]; simpl; [reflexivity|].
    destruct (rstrip s) as [|b r] eqn:E.
    - destruct (is_space a) eqn:Ea; simpl; [reflexivity|]. now rewrite Ea.
    - simpl in *. rewrite IH. reflexivity. }
  assert (H1 : forall c rest, strip line = String c rest -> is_space c = false).
  { intros c rest H. unfold strip in H. eapply R; [|exact H].
    intros c' r' E. eapply L. exact E. }
  split; [exact H1|].
  unfold strip at 1.
  assert (E : lstrip (strip line) = strip line).
  { destruct (strip line) as [|c rest] eqn:S; [reflexivity|].
    simpl. now rewrite (H1 c rest eq_refl). }
  rewrite E. unfold strip. apply RR.
Qed.

(** X18 (white space around a name).  White space before and after the
    third field does not matter: a line padded with blanks, tabs or line
    ends contributes what the bare line contributes, stripping twice is
    stripping once, and a stripped line does not start with white space. *)
Theorem padding_ignored (keywords : list string) (d : Domains)
        (ws1 ws2 line : string) :
  forallb is_space (list_ascii_of_string ws1) = true ->
  forallb is_space (list_ascii_of_string ws2) = true ->
  visit keywords d (ws1 ++ line ++ ws2) = visit keywords d line
  /\ strip (strip line) = strip line
  /\ (forall c rest, strip line = String c rest -> is_space c = false).
Proof.
  intros H1 H2. destruct (strip_clean line) as [A B].
  split; [|split; assumption].
  unfold visit. now rewrite strip_padded.
Qed.

Lemma padding_ignored_witness :
  visit ignore_list [] "  www.example.com "
  = visit ignore_list [] "www.example.com".
Proof.
  apply (padding_ignored ignore_list [] "  " " " "www.example.com");
    reflexivity.
Defined.

End SubCountFacts.

(** * Properties of proxy_log_generator.py *)

Module GeneratorFacts.

Import Generator.

Local Open Scope Z_scope.

(** ** The values the rows are made of *)

Lemma combine_maps (A B C : Type) (f : A -> B) (g : A -> C) (l : list A) :
  combine (map f l) (map g l) = map (fun x => (f x, g x)) l.
Proof. induction l as [|x l IH]; simpl; congruence. Qed.

Lemma pair_known (n : nat) (bp : string * string) :
  In bp (source_username_pairs n) ->
  fst bp <> "-"%string /\ snd bp <> "-"%string
  /\ exists i, (1 <= i <= n)%nat
                /\ bp = (("172.30.0." ++ show i)%string, ("user" ++ show i)%string).
Proof.
  unfold source_username_pairs, sources, usernames.
  rewrite combine_maps. intro H. apply in_map_iff in H as (i & <- & Hin).
  apply in_seq in Hin. simpl.
  split; [discriminate|]. split; [discriminate|]. exists i.
  split; [lia | reflexivity].
Qed.

Lemma dest_ip_known (bd : string) : In bd dest_ips -> bd <> "-"%string.
Proof.
  unfold dest_ips. intro H. apply in_map_iff in H as (i & <- & _). discriminate.
Qed.

Lemma domain_not_beacon (k : nat) :
  String.eqb (nth k domains ""%string) "itsabeacon.com" = false.
Proof.
  apply String.eqb_neq.
  destruct (nth_in_or_default k domains ""%string) as [H | ->]; [|discriminate].
  unfold domains in H at 2. apply in_map_iff in H as (i & E & _).
  rewrite <- E. discriminate.
Qed.

Lemma regular_not_beacon (n : nat) (t : Z) (d : Draw) :
  is_beacon (regular_row n t d) = false.
Proof. unfold is_beacon, regular_row. simpl. apply domain_not_beacon. Qed.

(** ** The loop *)

Section Loop.

Variables (n : nat) (bp : string * string) (bd : string) (draw : nat -> Draw).
Hypothesis jitter_range : forall i, -10 <= d_jitter (draw i) <= 10.

Lemma seq_step (A : Type) (f : nat -> A) (m : nat) :
  map f (seq 0 (S m)) = f 0%nat :: map (fun k => f (S k)) (seq 0 m).
Proof. simpl. f_equal. rewrite <- seq_shift, map_map. reflexivity. Qed.

Lemma loop_spec (fuel : nat) :
  forall (i : nat) (cur bt : Z),
    cur <= bt -> cur <= end_time ->
    (Z.to_nat (end_time - cur) < fuel)%nat ->
    exists rows,
      loop fuel n bp bd draw i cur bt = Some rows
      /\ loop_result n bp bd draw i cur bt rows.
Proof.
  induction fuel as [|fuel IH]; intros i cur bt Hinv Hend Hfuel; [lia|].
  cbn [loop]. destruct (cur <? end_time) eqn:Elt.
  - apply Z.ltb_lt in Elt. unfold time_increment, beacon_increment.
    pose proof (jitter_range i) as Hj.
    set (m := Z.to_nat (end_time - (cur + 1))).
    assert (Hm : Z.to_nat (end_time - cur) = S m) by (unfold m; lia).
    destruct (bt <=? cur) eqn:Efire.
    + apply Z.leb_le in Efire. assert (bt = cur) by lia. subst bt.
      remember (cur + (60 + d_jitter (draw i))) as bt' eqn:Ebt.
      assert (Hbt : cur + 50 <= bt' <= cur + 70) by lia.
      clear Ebt Hj.
      destruct (IH (S i) (cur + 1) bt' ltac:(lia) ltac:(lia) ltac:(lia))
        as (rows & -> & R1 & R2 & R3 & R4 & R5).
      eexists. split; [reflexivity|].
      unfold loop_result. cbn [app filter].
      assert (Eb : is_beacon (beacon_row cur bp bd) = true) by reflexivity.
      rewrite Eb, regular_not_beacon. cbn [negb map p_time beacon_row].
      split; [|split; [|split; [|split]]].
      * rewrite R1, Hm, seq_step. fold m. f_equal.
        -- now rewrite Z.add_0_r, Nat.add_0_r.
        -- apply map_ext. intro k. f_equal; [lia | f_equal; lia].
      * constructor; [reflexivity | exact R2].
      * constructor; [lia|]. eapply Forall_impl; [|exact R3].
        intros t Ht. cbv beta in Ht. lia.
      * intros _. split; [reflexivity|].
        destruct (map p_time (filter is_beacon rows)) as [|t T] eqn:ET.
        -- cbn [last].
           destruct (Z_lt_le_dec bt' end_time) as [Hlt|Hge]; [|lia].
           destruct (R4 Hlt) as [X _]. discriminate.
        -- change (last (cur :: t :: T) 0) with (last (t :: T) 0).
           assert (Ht : bt' <= t < end_time)
             by (apply (Forall_inv R3)).
           apply R4. lia.
      * destruct (map p_time (filter is_beacon rows)) as [|t T] eqn:ET;
          [constructor|].
        change (diff_dropna (cur :: t :: T)) with ((t - cur) :: diff_dropna (t :: T)).
        constructor; [|exact R5].
        assert (Ht : bt' <= t < end_time) by (apply (Forall_inv R3)).
        destruct (R4 ltac:(lia)) as [X _]. cbn [hd_error] in X.
        assert (t = bt') by congruence. lia.
    + apply Z.leb_gt in Efire.
      destruct (IH (S i) (cur + 1) bt ltac:(lia) ltac:(lia) ltac:(lia))
        as (rows & -> & R1 & R2 & R3 & R4 & R5).
      eexists. split; [reflexivity|].
      unfold loop_result. cbn [app filter].
      rewrite regular_not_beacon. cbn [negb].
      split; [|split; [|split; [|split]]]; try assumption.
      rewrite R1, Hm, seq_step. fold m. f_equal.
      * now rewrite Z.add_0_r, Nat.add_0_r.
      * apply map_ext. intro k. f_equal; [lia | f_equal; lia].
  - apply Z.ltb_ge in Elt. assert (cur = end_time) by lia. subst cur.
    exists []. split; [reflexivity|]. unfold loop_result. cbn [filter map].
    rewrite Z.sub_diag. cbn [Z.to_nat seq map diff_dropna].
    split; [reflexivity|]. repeat split; try constructor; lia.
Qed.

Lemma loop_more_fuel (fuel : nat) :
  forall (i : nat) (cur bt : Z) (rows : list ProxyRow) (fuel' : nat),
    loop fuel n bp bd draw i cur bt = Some rows ->
    (fuel <= fuel')%nat ->
    loop fuel' n bp bd draw i cur bt = Some rows.
Proof.
  induction fuel as [|fuel IH]; intros i cur bt rows fuel' H Hle;
    [discriminate|].
  destruct fuel' as [|fuel']; [lia|].
  cbn [loop] in *. destruct (cur <? end_time); [|exact H].
  destruct (loop fuel n bp bd draw (S i) (cur + time_increment)
              (if bt <=? cur
               then bt + (beacon_increment + d_jitter (draw i)) else bt))
    as [rows'|] eqn:E; [|discriminate].
  rewrite (IH _ _ _ _ fuel' E ltac:(lia)). exact H.
Qed.

End Loop.

(** ** The rows of every second *)

Lemma pairs_length (n : nat) : length (source_username_pairs n) = n.
Proof.
  unfold source_username_pairs, sources, usernames.
  now rewrite combine_maps, length_map, length_seq.
Qed.

Lemma regular_row_fields (n : nat) (t : Z) (d : Draw) :
  valid_draw n d ->
  let r := regular_row n t d in
  p_time r = t
  /\ In (p_source r, p_username r) (source_username_pairs n ++ [("-", "-")%string])
  /\ (p_username r = "-"%string <-> p_source r = "-"%string)
  /\ In (p_dest_ip r) (dest_ips ++ ["-"%string])
  /\ In (p_domain r) domains
  /\ 100 <= p_bytes_received r <= 1000
  /\ 1000 <= p_bytes_sent r <= 10000.
Proof.
  intros (V1 & V2 & V3 & V4 & V5 & _) r. unfold r, regular_row.
  cbv zeta.
  cbn [p_time p_source p_username p_dest_ip p_domain p_bytes_received
       p_bytes_sent].
  set (pr := nth (d_pair d) (source_username_pairs n ++ [("-", "-")%string])
                 ("-", "-")%string).
  assert (Hpr : In pr (source_username_pairs n ++ [("-", "-")%string])).
  { apply nth_In. rewrite length_app, pairs_length. cbn [length]. lia. }
  split; [reflexivity|]. split; [destruct pr; exact Hpr|]. split.
  - apply in_app_or in Hpr as [Hin | [<- | []]].
    + destruct (pair_known n pr Hin) as (A & B & _). tauto.
    + cbn [fst snd]. tauto.
  - split.
    { apply nth_In. rewrite length_app. unfold dest_ips.
      rewrite length_map, length_seq. cbn [length]. lia. }
    split.
    { apply nth_In. unfold domains. rewrite length_map, length_seq. exact V3. }
    split; assumption.
Qed.

Lemma loop_started (fuel n : nat) (r : Random) (bp : string * string)
      (bd : string) :
  valid_random n r ->
  (Z.to_nat (end_time - start_time) < fuel)%nat ->
  exists rows,
    loop fuel n bp bd (r_draw r) 0 start_time start_time = Some rows
    /\ loop_result n bp bd (r_draw r) 0 start_time start_time rows.
Proof.
  intros (_ & _ & V) Hfuel. apply loop_spec.
  - intro i. destruct (V i) as (_ & _ & _ & _ & _ & J). exact J.
  - lia.
  - unfold end_time. lia.
  - exact Hfuel.
Qed.

Lemma beacon_choice (n : nat) (r : Random) :
  valid_random n r ->
  exists bp bd,
    nth_error (source_username_pairs n) (r_beacon_pair r) = Some bp
    /\ nth_error dest_ips (r_beacon_dest_ip r) = Some bd
    /\ In bp (source_username_pairs n) /\ In bd dest_ips.
Proof.
  intros (V1 & V2 & _).
  destruct (nth_error (source_username_pairs n) (r_beacon_pair r)) as [bp|] eqn:E1.
  2:{ apply nth_error_None in E1. rewrite pairs_length in E1. lia. }
  destruct (nth_error dest_ips (r_beacon_dest_ip r)) as [bd|] eqn:E2.
  2:{ apply nth_error_None in E2. unfold dest_ips in E2.
      rewrite length_map, length_seq in E2. lia. }
  exists bp, bd. split; [reflexivity|]. split; [reflexivity|].
  split; eapply nth_error_In; eassumption.
Qed.

(** X19 (one row per second).  With no source the script raises the
    [IndexError] of [random.choice] before printing anything.  With valid
    draws the loop ends (any fuel above 28800 iterations gives the same
    output), and apart from the beacon rows it prints exactly one row for
    each of the 28800 seconds from the start time on, in time order, the
    row of second [k] being built from the draws of iteration [k]; in such
    a row user name and source are both the placeholder or neither is, the
    domain is one of the hundred domains, and the byte counts are in
    range. *)
Theorem generator_rows (fuel n : nat) (r : Random) :
  valid_random n r ->
  (Z.to_nat (end_time - start_time) < fuel)%nat ->
  generate_dummy_log_data fuel 0 r = IndexError
  /\ exists rows,
      generate_dummy_log_data fuel n r = Done rows
      /\ (forall fuel', (fuel <= fuel')%nat ->
            generate_dummy_log_data fuel' n r = Done rows)
      /\ filter (fun row => negb (is_beacon row)) rows
         = map (fun k => regular_row n (start_time + Z.of_nat k) (r_draw r k))
               (seq 0 (Z.to_nat 28800))
      /\ Forall (fun row =>
                   (p_username row = "-"%string <-> p_source row = "-"%string)
                   /\ In (p_dest_ip row) (dest_ips ++ ["-"%string])
                   /\ In (p_domain row) domains
                   /\ 100 <= p_bytes_received row <= 1000
                   /\ 1000 <= p_bytes_sent row <= 10000)
                (filter (fun row => negb (is_beacon row)) rows).
Proof.
  intros V Hfuel. split.
  - unfold generate_dummy_log_data. simpl.
    destruct (r_beacon_pair r); reflexivity.
  - destruct (beacon_choice n r V) as (bp & bd & E1 & E2 & _).
    destruct (loop_started fuel n r bp bd V Hfuel) as (rows & L & R1 & _).
    exists rows. unfold generate_dummy_log_data. rewrite E1, E2.
    split; [now rewrite L|]. split.
    + intros fuel' Hle.
      now rewrite (loop_more_fuel n bp bd (r_draw r) fuel _ _ _ rows fuel' L Hle).
    + assert (E : end_time - start_time = 28800) by (unfold end_time; lia).
      rewrite E in R1. split; [exact R1|].
      rewrite R1. apply Forall_forall. intros row Hrow.
      apply in_map_iff in Hrow as (k & <- & _).
      destruct V as (_ & _ & V).
      destruct (regular_row_fields n (start_time + Z.of_nat k) _ (V k))
        as (_ & _ & F3 & F4 & F5 & F6 & F7).
      auto.
Qed.

Lemma steady_valid (j : Z) : -10 <= j <= 10 -> valid_random 200 (steady j).
Proof.
  intro Hj. split; [simpl; lia|]. split; [simpl; lia|].
  intro i. unfold valid_draw. simpl. lia.
Qed.

Lemma generator_rows_witness :
  generate_dummy_log_data (S (Z.to_nat 28800)) 0 (steady 3) = IndexError
  /\ exists rows,
      generate_dummy_log_data (S (Z.to_nat 28800)) 200 (steady 3) = Done rows.
Proof.
  destruct (generator_rows (S (Z.to_nat 28800)) 200 (steady 3))
    as (H0 & rows & H1 & _).
  - apply steady_valid. lia.
  - unfold end_time. lia.
  - split; [exact H0|]. exists rows. exact H1.
Defined.

(** ** The beacon rows *)

Lemma sum_bounds (lo hi : Z) (l : list Z) :
  Forall (fun d => lo <= d <= hi) l ->
  lo * Z.of_nat (length l) <= fold_right Z.add 0 l <= hi * Z.of_nat (length l).
Proof.
  induction 1 as [|d l Hd _ IH]; [simpl; lia|].
  cbn [fold_right length]. lia.
Qed.

Lemma last_In (l : list Z) (a : Z) : In (last (a :: l) 0) (a :: l).
Proof.
  revert a. induction l as [|b l IH]; intro a; [left; reflexivity|].
  right. apply IH.
Qed.

Lemma beacon_times (bt : Z) (T : list Z) :
  bt < end_time ->
  Forall (fun t => bt <= t < end_time) T ->
  hd_error T = Some bt ->
  end_time - 70 <= last T 0 ->
  Forall (fun d => 50 <= d <= 70) (diff_dropna T) ->
  70 * (Z.of_nat (length T) - 1) >= end_time - 70 - bt
  /\ 50 * (Z.of_nat (length T) - 1) <= end_time - 1 - bt
  /\ ConnDiv T = last T 0 - bt
  /\ 0 <= ConnDiv T.
Proof.
  intros Hbt Hall Hhd Hlast Hgaps.
  destruct T as [|a tl]; [discriminate|]. injection Hhd as ->.
  pose proof (sum_bounds 50 70 _ Hgaps) as Hsum.
  rewrite diff_dropna_length in Hsum.
  assert (Es : fold_right Z.add 0 (diff_dropna (bt :: tl)) = last (bt :: tl) 0 - bt).
  { apply sum_diff. }
  rewrite Es in Hsum.
  assert (Hl : bt <= last (bt :: tl) 0 < end_time).
  { rewrite Forall_forall in Hall. apply Hall, last_In. }
  cbn [length] in *. unfold ConnDiv. cbn [hd].
  repeat split; lia.
Qed.

(** X20 (the beacon rows).  With valid draws the rows whose domain is
    itsabeacon.com all carry the same source, user name and address, drawn
    before the loop and none of them the placeholder; the first one is
    printed at the start time, each next one 50 to 70 seconds after the
    previous one, and there are between 412 and 576 of them. *)
Theorem generator_beacon (fuel n : nat) (r : Random) :
  valid_random n r ->
  (Z.to_nat (end_time - start_time) < fuel)%nat ->
  exists rows bp bd,
    generate_dummy_log_data fuel n r = Done rows
    /\ In bp (source_username_pairs n) /\ In bd dest_ips
    /\ fst bp <> "-"%string /\ snd bp <> "-"%string /\ bd <> "-"%string
    /\ Forall (fun row => row = beacon_row (p_time row) bp bd)
              (filter is_beacon rows)
    /\ hd_error (map p_time (filter is_beacon rows)) = Some start_time
    /\ Forall (fun d => 50 <= d <= 70)
              (diff_dropna (map p_time (filter is_beacon rows)))
    /\ 412 <= Z.of_nat (length (filter is_beacon rows)) <= 576.
Proof.
  intros V Hfuel.
  destruct (beacon_choice n r V) as (bp & bd & E1 & E2 & I1 & I2).
  destruct (loop_started fuel n r bp bd V Hfuel)
    as (rows & L & _ & R2 & R3 & R4 & R5).
  assert (Hst : start_time < end_time) by (unfold end_time; lia).
  destruct (R4 Hst) as [Hhd Hlast].
  destruct (pair_known n bp I1) as (P1 & P2 & _).
  exists rows, bp, bd. unfold generate_dummy_log_data. rewrite E1, E2, L.
  split; [reflexivity|]. split; [exact I1|]. split; [exact I2|].
  split; [exact P1|]. split; [exact P2|]. split; [now apply dest_ip_known|].
  split; [exact R2|]. split; [exact Hhd|]. split; [exact R5|].
  destruct (beacon_times start_time _ Hst R3 Hhd Hlast R5) as (B1 & B2 & _).
  rewrite length_map in B1, B2. unfold end_time in B1, B2. lia.
Qed.

Lemma generator_beacon_witness :
  exists rows,
    generate_dummy_log_data (S (Z.to_nat 28800)) 200 (steady 3) = Done rows
    /\ 412 <= Z.of_nat (length (filter is_beacon rows)) <= 576.
Proof.
  destruct (generator_beacon (S (Z.to_nat 28800)) 200 (steady 3))
    as (rows & bp & bd & H1 & _ & _ & _ & _ & _ & _ & _ & _ & H2).
  - apply steady_valid. lia.
  - unfold end_time. lia.
  - exists rows. split; [exact H1 | exact H2].
Defined.

(** ** The generated log in the finder *)

Lemma beacon_row_kept (bp : string * string) (bd : string) (t : Z) :
  snd bp <> "-"%string -> bd <> "-"%string ->
  negb (String.eqb (username (read_row (beacon_row t bp bd))) sentinel)
  && negb (String.eqb (dest_ip (read_row (beacon_row t bp bd))) sentinel)
  = true
  /\ same_key (snd bp) "itsabeacon.com" (read_row (beacon_row t bp bd)) = true.
Proof.
  intros Hu Hd. apply String.eqb_neq in Hu, Hd.
  unfold read_row, beacon_row, same_key, src, dst, sentinel.
  cbn [username dest_ip domain p_username p_dest_ip p_domain].
  rewrite Hu, Hd, !String.eqb_refl. split; reflexivity.
Qed.

Lemma other_row_dropped (u : string) (row : ProxyRow) :
  is_beacon row = false ->
  same_key u "itsabeacon.com" (read_row row) = false.
Proof.
  unfold is_beacon, same_key, src, dst, read_row. cbn [username domain].
  intros ->. apply andb_false_r.
Qed.

Lemma beacon_rows_selected (bp : string * string) (bd : string)
      (rows : list ProxyRow) :
  snd bp <> "-"%string -> bd <> "-"%string ->
  Forall (fun row => row = beacon_row (p_time row) bp bd)
         (filter is_beacon rows) ->
  filter (same_key (snd bp) "itsabeacon.com")
         (sentinel_filter (map read_row rows))
  = map read_row (filter is_beacon rows).
Proof.
  intros Hu Hd. unfold sentinel_filter.
  induction rows as [|row rows IH]; intro Hall; [reflexivity|].
  cbn [map filter] in *.
  destruct (is_beacon row) eqn:Eb.
  - pose proof (Forall_inv Hall) as Hrow. cbv beta in Hrow.
    pose proof (Forall_inv_tail Hall) as Hrest.
    destruct (beacon_row_kept bp bd (p_time row) Hu Hd) as [K1 K2].
    rewrite <- Hrow in K1, K2. rewrite K1. cbn [filter]. rewrite K2.
    cbn [map]. f_equal. apply IH, Hrest.
  - pose proof (other_row_dropped (snd bp) row Eb) as K.
    destruct (negb (String.eqb (username (read_row row)) sentinel)
              && negb (String.eqb (dest_ip (read_row row)) sentinel));
      [|apply IH, Hall].
    cbn [filter]. rewrite K. apply IH, Hall.
Qed.

Lemma Madm_upper (x : list Z) (a b : Z) :
  x <> [] -> Forall (fun d => a <= d <= b) x ->
  (Madm x <= inject_Z (b - a))%Q.
Proof.
  intros Hx Hall. pose proof (seconds_nonempty x Hx) as Hs.
  pose proof (seconds_range x a b Hall) as Hr.
  unfold Madm.
  destruct (median_range (seconds x) _ _ Hs Hr) as [M1 M2].
  set (m := median (seconds x)) in *.
  apply (median_range (map (fun y => Qabs (y - m)) (seconds x)) 0).
  - destruct (seconds x); [congruence | discriminate].
  - apply Forall_forall. intros q Hq. apply in_map_iff in Hq as (y & <- & Hy).
    rewrite Forall_forall in Hr. destruct (Hr y Hy) as [Y1 Y2].
    split; [apply Qabs_nonneg|].
    rewrite inject_Z_sub. apply Qabs_Qle_condition. split; lra.
Qed.

(** X21 (the finder on the generated log).  Read by the finder, a log
    generated with valid draws always contains the beacon as a scored
    conversation: its key is the user name of the pair drawn before the
    loop (the one every beacon row carries) and itsabeacon.com, its
    timestamps are those of the beacon rows and of no other row, it has
    more than 36 observations, every delta lies between 50 and 70 seconds,
    the span is positive, the dispersion is at most 20 seconds so that the
    dispersion score is at least 1/3, and the score is a number between 0
    and 1. *)
Theorem generated_beacon_scored (fuel n : nat) (r : Random) :
  valid_random n r ->
  (Z.to_nat (end_time - start_time) < fuel)%nat ->
  exists rows c bp bd,
    generate_dummy_log_data fuel n r = Done rows
    /\ nth_error (source_username_pairs n) (r_beacon_pair r) = Some bp
    /\ nth_error dest_ips (r_beacon_dest_ip r) = Some bd
    /\ Forall (fun row => row = beacon_row (p_time row) bp bd)
              (filter is_beacon rows)
    /\ In c (scored_frame (map read_row rows))
    /\ c_src c = snd bp
    /\ c_src c <> "-"%string
    /\ c_dst c = "itsabeacon.com"%string
    /\ c_time c = map p_time (filter is_beacon rows)
    /\ 412 <= c_count c <= 576
    /\ Forall (fun d => 50 <= d <= 70) (Deltas c)
    /\ 0 < ConnDiv (c_time c)
    /\ (Madm (Deltas c) <= 20)%Q
    /\ ((1 # 3) <= MadmScore c)%Q
    /\ exists s, Score c = Fin s /\ (0 <= s)%Q /\ (s <= 1)%Q.
Proof.
  intros V Hfuel.
  destruct (beacon_choice n r V) as (bp & bd & E1 & E2 & I1 & I2).
  destruct (loop_started fuel n r bp bd V Hfuel)
    as (rows & L & _ & R2 & R3 & R4 & R5).
  assert (Hst : start_time < end_time) by (unfold end_time; lia).
  destruct (R4 Hst) as [Hhd Hlast].
  destruct (pair_known n bp I1) as (P1 & P2 & _).
  pose proof (dest_ip_known bd I2) as P3.
  destruct (beacon_times start_time _ Hst R3 Hhd Hlast R5)
    as (B1 & B2 & B3 & B4).
  rewrite length_map in B1, B2.
  pose proof (beacon_rows_selected bp bd rows P2 P3 R2) as Hsel.
  set (F := sentinel_filter (map read_row rows)) in *.
  set (B := filter is_beacon rows) in *.
  (* the first beacon row is a row of the filtered frame *)
  destruct B as [|b0 B'] eqn:EB; [discriminate|].
  assert (Hb0 : In (read_row b0) F).
  { assert (X : In (read_row b0)
                   (filter (same_key (snd bp) "itsabeacon.com") F))
      by (rewrite Hsel; left; reflexivity).
    apply filter_In in X. tauto. }
  assert (Kb0 : src (read_row b0) = snd bp
                /\ dst (read_row b0) = "itsabeacon.com"%string).
  { pose proof (Forall_inv R2) as X. cbv beta in X. rewrite X.
    split; reflexivity. }
  destruct Kb0 as [K1 K2].
  destruct (groupby_complete F (read_row b0) Hb0) as (g & Hg & G1 & G2).
  destruct (groupby_spec F) as [_ Hspec].
  destruct (Hspec g Hg) as [Htime _].
  rewrite G1, G2, K1, K2, Hsel, map_map in Htime.
  assert (Etime : c_time g = map p_time (b0 :: B'))
    by (rewrite Htime; apply map_ext; reflexivity).
  assert (Hcount : c_count g = Z.of_nat (length (b0 :: B')))
    by (unfold c_count; rewrite Etime, length_map; reflexivity).
  assert (Hn : 412 <= c_count g <= 576)
    by (rewrite Hcount; unfold end_time in B1, B2; lia).
  assert (HD : Forall (fun d => 50 <= d <= 70) (Deltas g))
    by (unfold Deltas; rewrite Etime; exact R5).
  assert (Hspan : 0 < ConnDiv (c_time g)).
  { rewrite Etime, B3. unfold end_time in Hlast. lia. }
  assert (Hne : Deltas g <> []) by (apply Deltas_nonempty; lia).
  assert (HM : (Madm (Deltas g) <= 20)%Q).
  { pose proof (Madm_upper _ 50 70 Hne HD) as X.
    change (inject_Z (70 - 50)) with 20%Q in X. exact X. }
  exists rows, g, bp, bd. unfold generate_dummy_log_data. rewrite E1, E2, L.
  split; [reflexivity|]. split; [reflexivity|]. split; [reflexivity|].
  split; [fold B; rewrite EB; exact R2|]. split.
  { apply scored_frame_In. fold F. split; [exact Hg|].
    unfold minActivityThreshold. lia. }
  split; [now rewrite G1, K1|]. split; [now rewrite G1, K1|].
  split; [now rewrite G2, K2|].
  split; [fold B; rewrite EB; exact Etime|]. split; [exact Hn|].
  split; [exact HD|]. split; [exact Hspan|]. split; [exact HM|]. split.
  - unfold MadmScore. pose proof (div30 (Madm (Deltas g))) as D.
    pose proof (Madm_nonneg _ Hne) as M0.
    destruct (dispersion_cases (Madm (Deltas g))) as [[A ->] | [A ->]]; lra.
  - destruct (Score_bounds g ltac:(lia) ltac:(lia))
      as (q & s & _ & Hs & _ & S0 & S1).
    exists s. auto.
Qed.

Lemma generated_beacon_scored_witness :
  exists rows c,
    generate_dummy_log_data (S (Z.to_nat 28800)) 200 (steady 3) = Done rows
    /\ In c (scored_frame (map read_row rows))
    /\ c_src c = "user1"%string
    /\ c_dst c = "itsabeacon.com"%string.
Proof.
  destruct (generated_beacon_scored (S (Z.to_nat 28800)) 200 (steady 3))
    as (rows & c & bp & bd & H1 & H2 & _ & _ & H3 & H4 & _ & H5 & _).
  - apply steady_valid. lia.
  - unfold end_time. lia.
  - exists rows, c. split; [exact H1|]. split; [exact H3|].
    split; [|exact H5]. rewrite H4.
    assert (E : nth_error (source_username_pairs 200) (r_beacon_pair (steady 3))
                = Some ("172.30.0.1", "user1")%string)
      by (vm_compute; reflexivity).
    rewrite E in H2. injection H2 as <-. reflexivity.
Defined.

(** ** Time order *)

Lemma loop_sorted (n : nat) (bp : string * string) (bd : string)
      (draw : nat -> Draw) (fuel : nat) :
  forall (i : nat) (cur bt : Z) (rows : list ProxyRow),
    loop fuel n bp bd draw i cur bt = Some rows ->
    StronglySorted Z.le (map p_time rows)
    /\ Forall (fun t => cur <= t < end_time) (map p_time rows).
Proof.
  induction fuel as [|fuel IH]; intros i cur bt rows H; [discriminate|].
  cbn [loop] in H. destruct (cur <? end_time) eqn:Elt.
  - apply Z.ltb_lt in Elt.
    destruct (loop fuel n bp bd draw (S i) (cur + time_increment)
                (if bt <=? cur
                 then bt + (beacon_increment + d_jitter (draw i)) else bt))
      as [rows'|] eqn:E; [|discriminate].
    injection H as <-. destruct (IH _ _ _ _ E) as [S1 F1].
    unfold time_increment in F1.
    assert (F2 : Forall (fun t => cur <= t < end_time) (map p_time rows')).
    { eapply Forall_impl; [|exact F1]. intros t Ht. cbv beta in Ht. lia. }
    assert (F3 : Forall (Z.le cur) (map p_time rows')).
    { eapply Forall_impl; [|exact F1]. intros t Ht. cbv beta in Ht. lia. }
    destruct (bt <=? cur); cbn [app map p_time beacon_row regular_row].
    + split.
      * constructor; [constructor; assumption|].
        constructor; [lia | exact F3].
      * constructor; [lia|]. constructor; [lia | exact F2].
    + split.
      * constructor; assumption.
      * constructor; [lia | exact F2].
  - injection H as <-. split; constructor.
Qed.

Lemma sorted_filter (A : Type) (R : A -> A -> Prop) (P : A -> bool)
      (l : list A) :
  StronglySorted R l -> StronglySorted R (filter P l).
Proof.
  induction 1 as [|x l Hl IH Hx]; simpl; [constructor|].
  destruct (P x); [|exact IH].
  constructor; [exact IH|].
  rewrite Forall_forall in *. intros y Hy. apply filter_In in Hy as [Hy _].
  now apply Hx.
Qed.

Lemma sorted_map (A B : Type) (f : A -> B) (R : B -> B -> Prop) (l : list A) :
  StronglySorted R (map f l) <-> StronglySorted (fun a b => R (f a) (f b)) l.
Proof.
  induction l as [|x l IH]; simpl; split; intro H; try constructor;
    inversion H as [|? ? Hl Hx]; subst.
  - now apply IH.
  - rewrite Forall_forall in *. intros y Hy. apply Hx. now apply in_map.
  - now apply IH.
  - rewrite Forall_forall in *. intros y Hy.
    apply in_map_iff in Hy as (z & <- & Hz). now apply Hx.
Qed.

Lemma sorted_deltas (x : list Z) :
  StronglySorted Z.le x ->
  Forall (fun d => 0 <= d) (diff_dropna x) /\ 0 <= ConnDiv x.
Proof.
  intro H. split.
  - induction H as [|a l Hl IH Ha]; [constructor|].
    destruct l as [|b l]; [constructor|].
    change (diff_dropna (a :: b :: l)) with ((b - a) :: diff_dropna (b :: l)).
    constructor; [|exact IH]. pose proof (Forall_inv Ha). lia.
  - destruct x as [|a l]; [unfold ConnDiv; simpl; lia|].
    inversion H as [|? ? _ Ha]; subst. unfold ConnDiv. cbn [hd].
    destruct l as [|b l]; [simpl; lia|].
    rewrite Forall_forall in Ha.
    assert (In (last (a :: b :: l) 0) (b :: l)).
    { change (last (a :: b :: l) 0) with (last (b :: l) 0). apply last_In. }
    specialize (Ha _ H0). lia.
Qed.

Lemma loop_terminates (n : nat) (bp : string * string) (bd : string)
      (draw : nat -> Draw) (fuel : nat) :
  forall (i : nat) (cur bt : Z),
    (Z.to_nat (end_time - cur) < fuel)%nat ->
    exists rows, loop fuel n bp bd draw i cur bt = Some rows.
Proof.
  induction fuel as [|fuel IH]; intros i cur bt Hfuel; [lia|].
  cbn [loop]. destruct (cur <? end_time) eqn:Elt; [|eexists; reflexivity].
  apply Z.ltb_lt in Elt. unfold time_increment.
  destruct (IH (S i) (cur + 1)
               (if bt <=? cur
                then bt + (beacon_increment + d_jitter (draw i)) else bt)
               ltac:(lia)) as (rows & ->).
  eexists. reflexivity.
Qed.

(** X22 (a generated log is chronological).  Whatever is drawn inside the
    loop, the generator ends and prints its rows in time order, all within
    the eight hours (the two draws made before the loop pick an element of
    a non-empty sequence); so, read by the finder, every conversation of a
    generated log has non-negative deltas and a non-negative span, and
    every scored conversation gets a score between 0 and 1. *)
Theorem generated_log_chronological (fuel n : nat) (r : Random) :
  (r_beacon_pair r < n)%nat ->
  (r_beacon_dest_ip r < 20)%nat ->
  (Z.to_nat (end_time - start_time) < fuel)%nat ->
  exists rows,
    generate_dummy_log_data fuel n r = Done rows
    /\ StronglySorted Z.le (map p_time rows)
    /\ Forall (fun t => start_time <= t < end_time) (map p_time rows)
    /\ forall c, In c (groupby (sentinel_filter (map read_row rows))) ->
         Forall (fun d => 0 <= d) (Deltas c)
         /\ 0 <= ConnDiv (c_time c)
         /\ (In c (scored_frame (map read_row rows)) ->
             exists s, Score c = Fin s /\ (0 <= s)%Q /\ (s <= 1)%Q).
Proof.
  intros Hp Hd Hfuel. unfold generate_dummy_log_data.
  destruct (nth_error (source_username_pairs n) (r_beacon_pair r))
    as [bp|] eqn:E1.
  2:{ apply nth_error_None in E1. rewrite pairs_length in E1. lia. }
  destruct (nth_error dest_ips (r_beacon_dest_ip r)) as [bd|] eqn:E2.
  2:{ apply nth_error_None in E2. unfold dest_ips in E2.
      rewrite length_map, length_seq in E2. lia. }
  destruct (loop_terminates n bp bd (r_draw r) fuel 0 start_time start_time
                            Hfuel) as (rows & L).
  rewrite L. exists rows. split; [reflexivity|].
  destruct (loop_sorted _ _ _ _ _ _ _ _ _ L) as [S1 F1].
  split; [exact S1|]. split; [exact F1|].
  intros c Hc.
  destruct (groupby_spec (sentinel_filter (map read_row rows))) as [_ Hspec].
  destruct (Hspec c Hc) as [Et _].
  assert (Hs : StronglySorted Z.le (c_time c)).
  { rewrite Et. apply sorted_map. unfold sentinel_filter.
    do 2 apply sorted_filter. apply sorted_map.
    apply (proj1 (sorted_map _ _ p_time Z.le rows)) in S1. exact S1. }
  destruct (sorted_deltas _ Hs) as [D1 D2].
  split; [exact D1|]. split; [exact D2|].
  intro Hin. apply scored_frame_In in Hin as [_ Hcount].
  unfold minActivityThreshold in Hcount.
  destruct (Score_bounds c ltac:(lia) D2) as (q & s & _ & Hsc & _ & S0 & S2).
  exists s. auto.
Qed.

Lemma generated_log_chronological_witness :
  exists rows,
    generate_dummy_log_data (S (Z.to_nat 28800)) 200 varied = Done rows
    /\ StronglySorted Z.le (map p_time rows).
Proof.
  destruct (generated_log_chronological (S (Z.to_nat 28800)) 200 varied)
    as (rows & G & S1 & _).
  - simpl. lia.
  - simpl. lia.
  - unfold end_time. lia.
  - exists rows. split; [exact G | exact S1].
Defined.

End GeneratorFacts.
